(** * MusicBingo: ticket generation and win detection

    A shallow embedding of [BingoGameLogic] (utils/BingoLogic.ts) and of
    [generateTickets] (context/GameContext.tsx), with the properties of the
    bound calculator, the ticket generator and the win evaluator.

    Conventions of the embedding.
    - JavaScript numbers that only ever hold integers (lengths, indices,
      loop counters, grid sizes) are [nat] or [Z].  The running product of
      [combinations] is a rational [Q]: on integer arguments a value that
      passes the cap test is a binomial coefficient of at most 1,000,000,
      and its product with the next factor is either an integer below 2^53,
      which the doubles of the source hold exactly, or above the cap in
      both arithmetics.  [Doubles.combinations] is the same function on
      binary64 numbers; [combinations_double_agrees] compares the two on a
      range of arguments.
    - A JavaScript string is a [string]; [Set<string>] is [gset string] and
      [Map<string, BingoTicket>] is [gmap string BingoTicket].
    - A thrown exception is the [Throw] branch of [result].
    - [Math.random] and [uuidv4] are an explicit generator state threaded
      through the calls. *)

From Stdlib Require Import QArith Qround Floats Uint63.
From stdpp Require Import gmap strings pretty list list_numbers sorting.

Local Open Scope Z_scope.

(** ** Exceptions *)

Inductive exn : Type :=
  | Error (message : string)      (* new Error(message) *)
  | TypeError.                    (* property read on undefined / null *)

Inductive result (A : Type) : Type :=
  | Ok (a : A)
  | Throw (e : exn).
Arguments Ok {A} a.
Arguments Throw {A} e.

Global Instance result_ret : MRet result := λ A a, Ok a.
Global Instance result_bind : MBind result := λ A B k m,
  match m with
  | Ok a => k a
  | Throw e => Throw e
  end.

(** ** Data model (BingoLogic.ts) *)

Record Song := {
  id : string;
  artist : string;
  title : string;
  filePath : string;
  duration : option Q;
  startTime : option Q;
  endTime : option Q;
  albumArtist : option string;
  bitrate : option Q;
  channels : option Q;
  sampleRate : option Q
}.

Record BingoGridCell := {
  song : Song;
  marked : bool
}.

(** [grid] is [None] when the field is [null] or [undefined] at run time,
    the case [checkWins] tests with [!grid]. *)
Record BingoTicket := {
  ticket_id : string;
  grid : option (list (list BingoGridCell))
}.

Inductive WinType : Type :=
  | LINE_1            (* '1_LINE' *)
  | LINES_2           (* '2_LINES' *)
  | FOUR_CORNERS
  | FULL_HOUSE
  | NO_WIN.           (* null *)

(** ** The random source

    [generateTicket] shuffles with [[...catalog].sort(() => 0.5 - Math.random())]
    and draws ticket ids from [uuidv4()].  Both read a global generator; the
    embedding threads its state [G] through the calls.  What the engine's sort
    returns under a random comparator is implementation-defined, so the
    shuffle is a parameter, and [EngineOk] records the one fact relied upon:
    the sorted copy holds the elements of the array it was given.
    [type_error_message] is the engine's [message] text of a [TypeError]. *)

Class Engine := {
  G : Type;
  shuffle : G → list Song → list Song * G;
  uuidv4 : G → string * G;
  type_error_message : string
}.

Class EngineOk (E : Engine) : Prop :=
  shuffle_perm : ∀ (g : G) (l : list Song), (shuffle g l).1 ≡ₚ l.

Module BingoGameLogic.

(** *** combinations, calculateSafeMax *)

Definition CAP : Z := 1000000.

(** [res > 1_000_000] on the running product. *)
Definition exceeds_cap (res : Q) : bool := negb (Qle_bool res (inject_Z CAP)).

(** The body of [for (let i = 1; i <= r; i++)]: [todo] iterations remain
    and the loop variable is [i]. *)
Fixpoint combinations_loop (n : Z) (todo : nat) (i : Z) (res : Q) : Z :=
  match todo with
  | O => Qfloor res
  | S todo' =>
      let res' := (res * inject_Z (n - i + 1) / inject_Z i)%Q in
      if exceeds_cap res' then CAP
      else combinations_loop n todo' (i + 1) res'
  end.

Definition combinations (n r : Z) : Z :=
  if (r <? 0) || (n <? r) then 0
  else if (r =? 0) || (r =? n) then 1
  else
    let r := if negb (Qle_bool (inject_Z r) (inject_Z n / 2)) then n - r else r in
    combinations_loop n (Z.to_nat r) 1 1%Q.

(** The product [gridSize * gridSize] is taken in [Z].  The product of the
    source is a binary64 product, which is the same number as long as
    gridSize * gridSize <= 2^53, that is for every grid size up to
    94,906,265; beyond that the source may round the square
    ([Doubles.calculateSafeMax] below is the function on doubles). *)
Definition calculateSafeMax (catalogSize gridSize : Z) : Z :=
  let requiredSongs := gridSize * gridSize in
  if catalogSize <? requiredSongs then 0
  else combinations catalogSize requiredSongs.

(** *** combinations on binary64 numbers

    The same code with the arithmetic of the source: [float] is IEEE 754
    binary64, as a JavaScript number. *)

Module Doubles.

(** The double that holds the integer [z], for |z| < 2^63. *)
Definition number (z : Z) : float :=
  match z with
  | Z0 => PrimFloat.zero
  | Zpos _ => PrimFloat.of_uint63 (Uint63.of_Z z)
  | Zneg p => PrimFloat.opp (PrimFloat.of_uint63 (Uint63.of_Z (Zpos p)))
  end.

(** The integer that a double holds, if it holds one. *)
Definition integer (x : float) : option Z :=
  match Prim2SF x with
  | S754_zero _ => Some 0
  | S754_finite s m e =>
      let v := if s then Zneg m else Zpos m in
      if 0 <=? e then Some (v * 2 ^ e)
      else if v mod 2 ^ (- e) =? 0 then Some (v / 2 ^ (- e)) else None
  | _ => None
  end.

(** [Math.floor] *)
Definition Math_floor (x : float) : float :=
  match Prim2SF x with
  | S754_finite s m e =>
      if 0 <=? e then x
      else number ((if s then Zneg m else Zpos m) / 2 ^ (- e))
  | _ => x
  end.

Fixpoint combinations_loop (n : float) (todo : nat) (i res : float) : float :=
  match todo with
  | O => Math_floor res
  | S todo' =>
      let res := (res * (n - i + 1) / i)%float in
      if (number 1000000 <? res)%float then number 1000000
      else combinations_loop n todo' (i + 1)%float res
  end.

(** The number of passes of [for (let i = 1; i <= r; i++)]. *)
Definition passes (r : float) : nat :=
  Z.to_nat (default 0 (integer (Math_floor r))).

Definition combinations (n r : float) : float :=
  if (r <? 0)%float || (n <? r)%float then 0%float
  else if (r =? 0)%float || (r =? n)%float then 1%float
  else
    let r := if (n / 2 <? r)%float then (n - r)%float else r in
    combinations_loop n (passes r) 1%float 1%float.

Definition calculateSafeMax (catalogSize gridSize : float) : float :=
  let requiredSongs := (gridSize * gridSize)%float in
  if (catalogSize <? requiredSongs)%float then 0%float
  else combinations catalogSize requiredSongs.

End Doubles.

(** *** generateTicket *)

Definition catalog_error (requiredSongs gridSize : nat) : string :=
  "Catalog must have at least " +:+ pretty requiredSongs
  +:+ " songs to generate a " +:+ pretty gridSize +:+ "x" +:+ pretty gridSize
  +:+ " ticket.".

(** The value of an array read past the end ([undefined] in the source).
    [generateTicket] reads [selectedSongs[songIndex]] only below
    [requiredSongs], which its guard keeps within the array
    (lemma [read_all]). *)
Definition undefined_song : Song :=
  {| id := "undefined"; artist := ""; title := ""; filePath := "";
     duration := None; startTime := None; endTime := None;
     albumArtist := None; bitrate := None; channels := None;
     sampleRate := None |}.

Definition read (selectedSongs : list Song) (songIndex : nat) : Song :=
  default undefined_song (selectedSongs !! songIndex).

(** [for (let c = 0; c < gridSize; c++)]: [todo] columns remain. *)
Fixpoint fill_row (selectedSongs : list Song) (todo songIndex : nat)
    (row : list BingoGridCell) : list BingoGridCell * nat :=
  match todo with
  | O => (row, songIndex)
  | S todo' =>
      fill_row selectedSongs todo' (S songIndex)
        (row ++ [{| song := read selectedSongs songIndex; marked := false |}])
  end.

(** [for (let r = 0; r < gridSize; r++)]: [todo] rows remain. *)
Fixpoint fill_grid (selectedSongs : list Song) (gridSize todo songIndex : nat)
    (grid : list (list BingoGridCell)) : list (list BingoGridCell) :=
  match todo with
  | O => grid
  | S todo' =>
      let '(row, songIndex') := fill_row selectedSongs gridSize songIndex [] in
      fill_grid selectedSongs gridSize todo' songIndex' (grid ++ [row])
  end.

(** [id || uuidv4()]: the empty string is falsy. *)
Definition id_or_uuid {E : Engine} (id : option string) (g : G) : string * G :=
  match id with
  | Some s => if decide (s = "") then uuidv4 g else (s, g)
  | None => uuidv4 g
  end.

Definition generateTicket {E : Engine} (catalog : list Song) (gridSize : nat)
    (id : option string) (g : G) : result BingoTicket * G :=
  let requiredSongs := (gridSize * gridSize)%nat in
  if (length catalog <? requiredSongs)%nat then
    (Throw (Error (catalog_error requiredSongs gridSize)), g)
  else
    let '(shuffled, g) := shuffle g catalog in
    let selectedSongs := take requiredSongs shuffled in
    let grid := fill_grid selectedSongs gridSize gridSize 0 [] in
    let '(tid, g) := id_or_uuid id g in
    (Ok {| ticket_id := tid; grid := Some grid |}, g).

(** *** checkWins *)

(** [playedSongIds.has(cell.song.id)] *)
Definition played_has (playedSongIds : gset string) (cell : BingoGridCell) : bool :=
  bool_decide (id (song cell) ∈ playedSongIds).

(** [grid[r][c]] followed by [.song]: a [TypeError] when the cell is absent. *)
Definition cell_at (grid : list (list BingoGridCell)) (r c : nat)
    : result BingoGridCell :=
  match grid !! r with
  | Some row =>
      match row !! c with
      | Some cell => Ok cell
      | None => Throw TypeError
      end
  | None => Throw TypeError
  end.

(** The loops that walk one line and [break] at the first cell not played:
    [todo] steps remain, the step index is [i], the cell of step [i] is at
    row [i], column [col i]. *)
Fixpoint line_complete (playedSongIds : gset string)
    (grid : list (list BingoGridCell)) (col : nat → nat) (todo i : nat)
    : result bool :=
  match todo with
  | O => Ok true
  | S todo' =>
      cell ← cell_at grid i (col i);
      if played_has playedSongIds cell
      then line_complete playedSongIds grid col todo' (S i)
      else Ok false
  end.

(** [for (let r = 0; r < rows; r++) if (grid[r].every(...)) horizontalLines++] *)
Fixpoint count_rows (playedSongIds : gset string)
    (grid : list (list BingoGridCell)) (horizontalLines : nat) : nat :=
  match grid with
  | [] => horizontalLines
  | row :: grid' =>
      count_rows playedSongIds grid'
        (if forallb (played_has playedSongIds) row
         then S horizontalLines else horizontalLines)
  end.

(** [for (let c = 0; c < cols; c++)]: [todo] columns remain. *)
Fixpoint count_columns (playedSongIds : gset string)
    (grid : list (list BingoGridCell)) (rows todo c verticalLines : nat)
    : result nat :=
  match todo with
  | O => Ok verticalLines
  | S todo' =>
      colComplete ← line_complete playedSongIds grid (λ _, c) rows 0;
      count_columns playedSongIds grid rows todo' (S c)
        (if colComplete : bool then S verticalLines else verticalLines)
  end.

Definition count_diagonals (playedSongIds : gset string)
    (grid : list (list BingoGridCell)) (rows cols : nat) : result nat :=
  if decide (rows = cols) then
    diag1Complete ← line_complete playedSongIds grid (λ i, i) rows 0;
    let diagonalLines := if diag1Complete : bool then 1%nat else 0%nat in
    diag2Complete ← line_complete playedSongIds grid (λ i, (rows - 1 - i)%nat) rows 0;
    Ok (if diag2Complete : bool then S diagonalLines else diagonalLines)
  else Ok 0%nat.

Definition four_corners (playedSongIds : gset string)
    (grid : list (list BingoGridCell)) (rows cols : nat) : result bool :=
  if (2 <=? rows)%nat && (2 <=? cols)%nat then
    topLeft ← cell_at grid 0 0;
    topRight ← cell_at grid 0 (cols - 1);
    bottomLeft ← cell_at grid (rows - 1) 0;
    bottomRight ← cell_at grid (rows - 1) (cols - 1);
    Ok (played_has playedSongIds topLeft && played_has playedSongIds topRight
        && played_has playedSongIds bottomLeft
        && played_has playedSongIds bottomRight)
  else Ok false.

Definition checkWins (ticket : BingoTicket) (playedSongIds : gset string)
    : result (list WinType) :=
  match grid ticket with
  | None => Ok []
  | Some [] => Ok []
  | Some ((row0 :: _) as grid) =>
      let rows := length grid in
      let cols := length row0 in
      let horizontalLines := count_rows playedSongIds grid 0 in
      verticalLines ← count_columns playedSongIds grid rows cols 0 0;
      diagonalLines ← count_diagonals playedSongIds grid rows cols;
      let totalLines := (horizontalLines + verticalLines + diagonalLines)%nat in
      fourCorners ← four_corners playedSongIds grid rows cols;
      let allMarked := forallb (forallb (played_has playedSongIds)) grid in
      Ok ((if (1 <=? totalLines)%nat then [LINE_1] else [])
          ++ (if (2 <=? totalLines)%nat then [LINES_2] else [])
          ++ (if fourCorners : bool then [FOUR_CORNERS] else [])
          ++ (if allMarked then [FULL_HOUSE] else []))
  end.

End BingoGameLogic.

(** ** generateTickets (GameContext.tsx) *)

Module GameContext.
Import BingoGameLogic.

(** The part of the provider's state that [generateTickets] reads. *)
Record GameState := {
  songs : list Song;
  selectedSongIds : gset string;
  gridSize : nat
}.

Definition maxAttempts : nat := 200.

Definition no_songs_message : string :=
  "No songs available for ticket generation. Please select songs or load a music folder.".

Definition too_many_message (count : nat) (safeMax : Z) (available gridSize : nat)
    : string :=
  "You requested " +:+ pretty count +:+ " tickets, but only " +:+ pretty safeMax
  +:+ " unique tickets can be generated with " +:+ pretty available
  +:+ " selected songs and grid size " +:+ pretty gridSize
  +:+ ". Please request " +:+ pretty safeMax +:+ " or fewer.".

Definition exhausted_message (created : nat) : string :=
  "Could not generate the requested number of unique tickets due to high chance of duplicates. "
  +:+ pretty created +:+ " were created successfully.".

(** [e.message] in the [catch] block; every [exn] is an [instanceof Error]. *)
Definition exn_message {E : Engine} (e : exn) : string :=
  match e with
  | Error message => message
  | TypeError => type_error_message
  end.

(** [ticket.grid.flat().map(c => c.song.id).sort().join(',')].  The default
    sort of the source orders strings by their UTF-16 code units; [String.le]
    orders them by their bytes.  The two orders agree on ASCII ids and may
    differ on others; what is proved of the key uses only that it is a
    function of the sorted list of ids, which holds under either order. *)
Definition songIdsKey (grid : list (list BingoGridCell)) : string :=
  String.concat "," (merge_sort String.le ((λ c, id (song c)) <$> concat grid)).

(** The locals of one call: the two collections, the generator, and
    [calls], which counts the invocations of [generateTicket] (it is not a
    variable of the source). *)
Record Batch {E : Engine} := {
  newTickets : gmap string BingoTicket;
  generatedSets : gset string;
  gen : G;
  calls : nat
}.

(** How the [while (attempts < maxAttempts)] loop of one slot ends. *)
Inductive Slot {E : Engine} : Type :=
  | Unique (b : Batch)             (* break: a ticket was stored *)
  | Exhausted (b : Batch)          (* attempts === maxAttempts *)
  | Caught (e : exn) (b : Batch).  (* catch (e): return *)

(** [todo] is [maxAttempts - attempts]. *)
Fixpoint attempts_loop {E : Engine} (songsToUse : list Song) (gridSize i todo : nat)
    (b : Batch) : Slot :=
  match todo with
  | O => Exhausted b
  | S todo' =>
      let ticketId := pretty (i + 1)%nat in
      let '(r, g) := generateTicket songsToUse gridSize (Some ticketId) (gen b) in
      let b := {| newTickets := newTickets b; generatedSets := generatedSets b;
                  gen := g; calls := S (calls b) |} in
      match r with
      | Throw e => Caught e b
      | Ok ticket =>
          match grid ticket with
          | None => Caught TypeError b
          | Some cells =>
              let songIds := songIdsKey cells in
              if decide (songIds ∈ generatedSets b) then
                attempts_loop songsToUse gridSize i todo' b
              else
                Unique {| newTickets := <[ticket_id ticket := ticket]> (newTickets b);
                          generatedSets := {[songIds]} ∪ generatedSets b;
                          gen := gen b; calls := calls b |}
          end
      end
  end.

(** What one call did: the texts passed to [alert], the arguments of
    [setTickets] and [setGameCatalog] ([None] when the call returned before
    them), the number of [generateTicket] calls, and the generator.  What
    [console.error] prints is not recorded. *)
Record Run {E : Engine} := {
  alerts : list string;
  stored : option (gmap string BingoTicket * list Song);
  attempted : nat;
  gen_out : G
}.

(** How [for (let i = 0; i < count; i++)] ends. *)
Inductive BatchEnd {E : Engine} : Type :=
  | Completed (b : Batch)          (* i reached count *)
  | StoppedEarly (b : Batch)       (* a slot was exhausted: alert, break *)
  | Aborted (e : exn) (b : Batch). (* a slot threw: alert, return *)

(** [todo] slots remain, the loop variable is [i]. *)
Fixpoint slots_loop {E : Engine} (songsToUse : list Song) (gridSize todo i : nat)
    (b : Batch) : BatchEnd :=
  match todo with
  | O => Completed b
  | S todo' =>
      match attempts_loop songsToUse gridSize i maxAttempts b with
      | Unique b' => slots_loop songsToUse gridSize todo' (S i) b'
      | Exhausted b' => StoppedEarly b'
      | Caught e b' => Aborted e b'
      end
  end.

Definition songsToUse (st : GameState) : list Song :=
  if (0 <? size (selectedSongIds st))%nat
  then filter (λ s, id s ∈ selectedSongIds st) (songs st)
  else songs st.

Definition generateTickets {E : Engine} (st : GameState) (count : nat) (g : G) : Run :=
  let songsToUse := songsToUse st in
  if (length songsToUse =? 0)%nat then
    {| alerts := [no_songs_message]; stored := None; attempted := 0; gen_out := g |}
  else
    let safeMax :=
      calculateSafeMax (Z.of_nat (length songsToUse)) (Z.of_nat (gridSize st)) in
    if (safeMax <? Z.of_nat count) && (0 <? safeMax) then
      {| alerts := [too_many_message count safeMax (length songsToUse) (gridSize st)];
         stored := None; attempted := 0; gen_out := g |}
    else
      let start := {| newTickets := ∅; generatedSets := ∅; gen := g; calls := 0 |} in
      match slots_loop songsToUse (gridSize st) count 0 start with
      | Completed b =>
          {| alerts := []; stored := Some (newTickets b, songsToUse);
             attempted := calls b; gen_out := gen b |}
      | StoppedEarly b =>
          {| alerts := [exhausted_message (size (newTickets b))];
             stored := Some (newTickets b, songsToUse);
             attempted := calls b; gen_out := gen b |}
      | Aborted e b =>
          {| alerts := [exn_message e]; stored := None;
             attempted := calls b; gen_out := gen b |}
      end.

End GameContext.

(** ** Reference definitions for the statements *)

(** The binomial coefficient, by Pascal's rule. *)
Fixpoint binomial (n k : nat) : Z :=
  match k, n with
  | O, _ => 1
  | S _, O => 0
  | S k', S n' => binomial n' k' + binomial n' k
  end.

Definition choose (n r : Z) : Z := binomial (Z.to_nat n) (Z.to_nat r).

Fixpoint factorial (n : nat) : Z :=
  match n with
  | O => 1
  | S n' => Z.of_nat n * factorial n'
  end.

(** A generator for running the model: an insertion sort whose comparator
    answers with the next of a list of random signs ([true]: the new element
    goes first), as a sort run with [() => 0.5 - Math.random()] does; when
    the list is used up the order is kept.  The state also counts the ids
    drawn. *)
Fixpoint insert_random (x : Song) (sorted : list Song) (signs : list bool)
    : list Song * list bool :=
  match sorted, signs with
  | [], _ => ([x], signs)
  | _ :: _, [] => (x :: sorted, [])
  | y :: sorted', sign :: signs' =>
      if sign then (x :: sorted, signs')
      else let '(rest, signs'') := insert_random x sorted' signs' in
           (y :: rest, signs'')
  end.

Fixpoint sort_random (l : list Song) (signs : list bool) : list Song * list bool :=
  match l with
  | [] => ([], signs)
  | x :: l' =>
      let '(sorted, signs') := sort_random l' signs in
      insert_random x sorted signs'
  end.

Definition insertion_engine : Engine := {|
  G := list bool * nat;
  shuffle g l := let '(shuffled, signs) := sort_random l g.1 in (shuffled, (signs, g.2));
  uuidv4 g := ("uuid-" +:+ pretty g.2, (g.1, S g.2));
  type_error_message := "Cannot read properties of null (reading 'flat')"
|}.

Definition mk_song (name : string) : Song :=
  {| id := name; artist := "Artist " +:+ name; title := "Title " +:+ name;
     filePath := "/music/" +:+ name +:+ ".mp3";
     duration := None; startTime := None; endTime := None;
     albumArtist := None; bitrate := None; channels := None;
     sampleRate := None |}.

(** *** Completed lines, in the words of the specification

    A line is complete when the identifier of each of its cells is in the
    played set.  The lines of a grid are its rows, its columns and, for a
    square grid, its two full diagonals. *)

Definition all_played (playedSongIds : gset string) (cells : list BingoGridCell)
    : Prop :=
  Forall (λ cell, id (song cell) ∈ playedSongIds) cells.

Global Instance all_played_dec playedSongIds cells :
  Decision (all_played playedSongIds cells).
Proof. unfold all_played. apply _. Defined.

Definition width (grid : list (list BingoGridCell)) : nat :=
  from_option length 0%nat (head grid).

Definition rectangular (grid : list (list BingoGridCell)) : Prop :=
  Forall (λ row, length row = width grid) grid.

Definition cell_of (grid : list (list BingoGridCell)) (r c : nat)
    : option BingoGridCell :=
  row ← grid !! r; row !! c.

(** The cells at (r, col r), one for each row index r. *)
Definition line (grid : list (list BingoGridCell)) (col : nat → nat)
    : list BingoGridCell :=
  omap (λ r, cell_of grid r (col r)) (seq 0 (length grid)).

Definition column (grid : list (list BingoGridCell)) (c : nat) :=
  line grid (λ _, c).
Definition main_diagonal (grid : list (list BingoGridCell)) :=
  line grid (λ i, i).
Definition anti_diagonal (grid : list (list BingoGridCell)) :=
  line grid (λ i, (length grid - 1 - i)%nat).

Definition complete_rows (playedSongIds : gset string)
    (grid : list (list BingoGridCell)) : nat :=
  length (filter (all_played playedSongIds) grid).

Definition complete_columns (playedSongIds : gset string)
    (grid : list (list BingoGridCell)) : nat :=
  length (filter (λ c, all_played playedSongIds (column grid c))
            (seq 0 (width grid))).

Definition complete_diagonals (playedSongIds : gset string)
    (grid : list (list BingoGridCell)) : nat :=
  if decide (length grid = width grid)
  then length (filter (all_played playedSongIds)
                 [main_diagonal grid; anti_diagonal grid])
  else 0%nat.

Definition total_lines (playedSongIds : gset string)
    (grid : list (list BingoGridCell)) : nat :=
  (complete_rows playedSongIds grid + complete_columns playedSongIds grid
   + complete_diagonals playedSongIds grid)%nat.

(** The cell that one [row.push] of [generateTicket] adds. *)
Definition new_cell (selectedSongs : list Song) (songIndex : nat) : BingoGridCell :=
  {| song := BingoGameLogic.read selectedSongs songIndex; marked := false |}.

(** *** Sample data for running the model *)

Definition mk_cell (name : string) : BingoGridCell :=
  {| song := mk_song name; marked := false |}.

Definition ticket_2x2 : BingoTicket :=
  {| ticket_id := "1";
     grid := Some [[mk_cell "a"; mk_cell "b"]; [mk_cell "c"; mk_cell "d"]] |}.

Definition ticket_null : BingoTicket := {| ticket_id := "2"; grid := None |}.

Definition ticket_3x0 : BingoTicket :=
  {| ticket_id := "3"; grid := Some [[]; []; []] |}.

Definition catalog_5 : list Song := mk_song <$> ["a"; "b"; "c"; "d"; "e"].

(** *** Notions used in the properties of a batch *)

(** The sorted sequence of the song ids of a grid. *)
Definition sorted_ids (grid : list (list BingoGridCell)) : list string :=
  merge_sort String.le ((λ c, id (song c)) <$> concat grid).

(** A message names a value when the value's text occurs in it. *)
Definition names (message text : string) : Prop :=
  ∃ before after, message = before +:+ text +:+ after.

(** What holds of the locals of [generateTickets] when slot [i] is entered:
    one ticket per earlier slot, under the ids "1" .. "i"; the key of each
    stored ticket has been recorded; stored tickets have different keys. *)
Record BatchInv {E : Engine} (i : nat) (b : GameContext.Batch) : Prop := {
  inv_keys : ∀ k, is_Some (GameContext.newTickets b !! k)
                  ↔ ∃ j, (j < i)%nat ∧ k = pretty (j + 1)%nat;
  inv_size : size (GameContext.newTickets b) = i;
  inv_seen : ∀ k t, GameContext.newTickets b !! k = Some t →
      ∃ cells, grid t = Some cells
               ∧ GameContext.songIdsKey cells ∈ GameContext.generatedSets b;
  inv_unique : ∀ k1 k2 t1 t2 c1 c2, k1 ≠ k2 →
      GameContext.newTickets b !! k1 = Some t1 →
      GameContext.newTickets b !! k2 = Some t2 →
      grid t1 = Some c1 → grid t2 = Some c2 →
      GameContext.songIdsKey c1 ≠ GameContext.songIdsKey c2
}.

(** The locals after [new Map()] and [new Set()]. *)
Definition start {E : Engine} (g : G) : GameContext.Batch :=
  {| GameContext.newTickets := ∅; GameContext.generatedSets := ∅;
     GameContext.gen := g; GameContext.calls := 0 |}.

Definition state_2 : GameContext.GameState :=
  {| GameContext.songs := [mk_song "a"; mk_song "b"];
     GameContext.selectedSongIds := ∅; GameContext.gridSize := 1 |}.

Definition state_3 : GameContext.GameState :=
  {| GameContext.songs := [mk_song "a"; mk_song "b"; mk_song "c"];
     GameContext.selectedSongIds := ∅; GameContext.gridSize := 2 |}.

(** ** Further notions for the statements *)

(** The four corner cells of a grid, where they exist. *)
Definition corner_cells (grid : list (list BingoGridCell)) : list BingoGridCell :=
  omap (λ rc : nat * nat, cell_of grid rc.1 rc.2)
    [(0, 0); (0, width grid - 1); (length grid - 1, 0);
     (length grid - 1, width grid - 1)]%nat.

Global Instance WinType_eq_dec : EqDecision WinType.
Proof. solve_decision. Defined.

(** The win conditions in the order in which [checkWins] pushes them. *)
Definition win_order : list WinType := [LINE_1; LINES_2; FOUR_CORNERS; FULL_HOUSE].

Definition ticket_jagged : BingoTicket :=
  {| ticket_id := "4";
     grid := Some [[mk_cell "a"; mk_cell "b"]; [mk_cell "c"]] |}.

(** ** The ticket checkers (TicketChecker.tsx, TicketCheck.tsx) *)

Module TicketChecker.

(** [const ticket = tickets.get(ticketId);
     ticket ? BingoGameLogic.checkWins(ticket, playedSongs) : []] *)
Definition winStatuses (tickets : gmap string BingoTicket) (ticketId : string)
    (playedSongs : gset string) : result (list WinType) :=
  match tickets !! ticketId with
  | Some ticket => BingoGameLogic.checkWins ticket playedSongs
  | None => Ok []
  end.

(** [\D] matches every character but the ten ASCII digits. *)
Definition is_digit (a : Ascii.ascii) : bool :=
  (48 <=? Ascii.nat_of_ascii a)%nat && (Ascii.nat_of_ascii a <=? 57)%nat.

(** [handleIdChange]: [e.target.value.replace(/\D/g, '')] *)
Fixpoint handleIdChange (value : string) : string :=
  match value with
  | EmptyString => EmptyString
  | String a rest =>
      if is_digit a then String a (handleIdChange rest) else handleIdChange rest
  end.

End TicketChecker.

(** What holds of a ticket that [generateTicket] built for a grid size. *)
Definition well_shaped (gridSize : nat) (ticket : BingoTicket) : Prop :=
  ∃ cells, grid ticket = Some cells
    ∧ length cells = gridSize
    ∧ Forall (λ row, length row = gridSize) cells
    ∧ Forall (λ cell, marked cell = false) (concat cells).

Definition drawn_from (catalog : list Song) (ticket : BingoTicket) : Prop :=
  ∃ cells, grid ticket = Some cells
    ∧ NoDup ((λ cell, id (song cell)) <$> concat cells)
    ∧ ∀ cell, cell ∈ concat cells → song cell ∈ catalog.

Definition state_4 : GameContext.GameState :=
  {| GameContext.songs := mk_song <$> ["a"; "b"; "c"; "d"; "e"];
     GameContext.selectedSongIds := {["a"; "b"; "c"; "d"; "x"]};
     GameContext.gridSize := 2 |}.

Definition state_5 : GameContext.GameState :=
  {| GameContext.songs := mk_song <$> ["a"; "b"; "c"; "d"; "e"];
     GameContext.selectedSongIds := {["x"]};
     GameContext.gridSize := 2 |}.

(** ** The ticket form (TicketManagement.tsx) *)

Module TicketManagement.
Import GameContext.

(** [songIds = new Set(songs.map(s => s.id));
     Array.from(selectedSongIds).filter(id => songIds.has(id))].
    Only the length of the array is used, so the order in which the set is
    listed does not matter. *)
Definition validSelectedSongIds (st : GameState) : list string :=
  filter (λ i, i ∈ (list_to_set (id <$> songs st) : gset string))
    (elements (selectedSongIds st)).

Definition songsForGeneration (st : GameState) : nat :=
  if (0 <? length (validSelectedSongIds st))%nat
  then length (validSelectedSongIds st)
  else length (songs st).

Definition safeMax (st : GameState) : Z :=
  BingoGameLogic.calculateSafeMax (Z.of_nat (songsForGeneration st))
    (Z.of_nat (gridSize st)).

(** The [disabled] attribute of the Generate button. *)
Definition generateDisabled (st : GameState) (tickets : gmap string BingoTicket)
    : bool :=
  (songsForGeneration st <? gridSize st * gridSize st)%nat
  || (0 <? size tickets)%nat.

(** The [onChange] handler of the ticket count: [parsed] is the result of
    [parseInt(e.target.value)], [None] for [NaN]. *)
Definition onCountChange (parsed : option Z) (safeMax : Z) : Z :=
  let val := match parsed with
             | Some v => if v =? 0 then 0 else v
             | None => 0
             end in
  let val := if (0 <? safeMax) && (safeMax <? val) then safeMax else val in
  if val <? 1 then 1 else val.

(** [useState(30)]: the count that the form holds until the field is
    edited. *)
Definition initialTicketCount : Z := 30.

(** [handleGenerate]: [generateTickets(ticketCountToGen)], with the count
    as the form holds it, an integer of at least 1. *)
Definition handleGenerate {E : Engine} (st : GameState) (ticketCountToGen : Z)
    (g : G) : Run :=
  generateTickets st (Z.to_nat ticketCountToGen) g.

End TicketManagement.

(** ** The library and the selection (GameContext.tsx) *)

Module Library.
Import GameContext.

Definition addSongs (newSongs : list Song) (st : GameState) : GameState :=
  {| songs := songs st ++ newSongs;
     selectedSongIds := selectedSongIds st; gridSize := gridSize st |}.

Definition removeSong (id0 : string) (st : GameState) : GameState :=
  {| songs := filter (λ s, id s ≠ id0) (songs st);
     selectedSongIds := selectedSongIds st; gridSize := gridSize st |}.

(** [updated.has(songId) ? updated.delete(songId) : updated.add(songId)] *)
Definition toggleSongSelection (songId : string) (st : GameState) : GameState :=
  {| songs := songs st;
     selectedSongIds :=
       if decide (songId ∈ selectedSongIds st)
       then selectedSongIds st ∖ {[songId]}
       else {[songId]} ∪ selectedSongIds st;
     gridSize := gridSize st |}.

Definition selectAllSongs (st : GameState) : GameState :=
  {| songs := songs st;
     selectedSongIds := list_to_set (id <$> songs st);
     gridSize := gridSize st |}.

Definition deselectAllSongs (st : GameState) : GameState :=
  {| songs := songs st; selectedSongIds := ∅; gridSize := gridSize st |}.

End Library.

(** ** Playing a game (GameContext.tsx)

    The part of the provider's state that the game functions read and
    write, and those functions as transitions on it.  A handler's state
    updates are applied together when it returns, so a transition maps the
    state the handler saw to the state after it.

    - [toLowerCase] is the engine's; nothing about it is relied upon.
    - [Math.floor(Math.random() * n)] is [random_index g n], on a generator
      state of its own; [DiceOk] records that the result is an index below
      [n], which holds as [Math.random()] is below 1. *)

Module Play.

Class Text := toLowerCase : string → string.

Class Dice := {
  dice : Type;
  random_index : dice → nat → nat * dice
}.

Class DiceOk (D : Dice) : Prop :=
  random_index_lt : ∀ (g : dice) (n : nat), (0 < n)%nat → ((random_index g n).1 < n)%nat.

Record Game := {
  songs : list Song;
  gameCatalog : list Song;
  tickets : gmap string BingoTicket;
  playedSongs : gset string;
  songHistory : list string;
  historyIndex : Z;
  currentSong : option Song;
  isPlaying : bool
}.

(** [array.find(p)] *)
Definition find {A} (P : A → Prop) `{!∀ x, Decision (P x)} (l : list A) : option A :=
  head (filter P l).

(** [array[i]] for an integer [i]: [undefined] outside the array. *)
Definition at_index {A} (l : list A) (i : Z) : option A :=
  if i <? 0 then None else l !! Z.to_nat i.

Definition backslash : Ascii.ascii := Ascii.ascii_of_nat 92.
Definition slash : Ascii.ascii := Ascii.ascii_of_nat 47.

(** [.replace(/\\/g, '/')] *)
Fixpoint replace_backslashes (s : string) : string :=
  match s with
  | EmptyString => EmptyString
  | String a rest =>
      String (if Ascii.eqb a backslash then slash else a) (replace_backslashes rest)
  end.

Section text.
Context {T : Text}.

Definition normalized (p : string) : string := replace_backslashes (toLowerCase p).

(** [songs.find(s => s.id === x.id ||
      s.filePath.toLowerCase().replace(/\\/g, '/')
        === x.filePath.toLowerCase().replace(/\\/g, '/'))] *)
Definition libMatch (library : list Song) (x : Song) : option Song :=
  find (λ s, id s = id x ∨ normalized (filePath s) = normalized (filePath x)) library.

(** [libMatch ? { ...x, startTime: libMatch.startTime,
      endTime: libMatch.endTime, duration: libMatch.duration } : x] *)
Definition synced (library : list Song) (x : Song) : Song :=
  match libMatch library x with
  | Some lib =>
      {| id := id x; artist := artist x; title := title x; filePath := filePath x;
         duration := duration lib; startTime := startTime lib;
         endTime := endTime lib; albumArtist := albumArtist x;
         bitrate := bitrate x; channels := channels x;
         sampleRate := sampleRate x |}
  | None => x
  end.

(** [gameCatalog.length > 0 ? gameCatalog : songs] *)
Definition catalogToUse (st : Game) : list Song :=
  if (0 <? length (gameCatalog st))%nat then gameCatalog st else songs st.

(** [startGame] and [resetGame] have the same body. *)
Definition startGame (st : Game) : Game :=
  {| songs := songs st; gameCatalog := gameCatalog st; tickets := tickets st;
     playedSongs := ∅; songHistory := []; historyIndex := -1;
     currentSong := None; isPlaying := false |}.

Definition resetGame (st : Game) : Game := startGame st.

(** The song that [playNext] and [replayPrevious] move to inside the
    history: [songs.find(s => s.id === songHistory[index])]. *)
Definition history_song (st : Game) (index : Z) : option Song :=
  match at_index (songHistory st) index with
  | Some songId => find (λ s, id s = songId) (songs st)
  | None => None
  end.

Definition move_to (st : Game) (index : Z) (song : Song) : Game :=
  {| songs := songs st; gameCatalog := gameCatalog st; tickets := tickets st;
     playedSongs := playedSongs st; songHistory := songHistory st;
     historyIndex := index; currentSong := Some song; isPlaying := true |}.

(** The first part of [playNext]: the state to return with, if any. *)
Definition forward (st : Game) : option Game :=
  if historyIndex st <? Z.of_nat (length (songHistory st)) - 1 then
    let nextIndex := historyIndex st + 1 in
    match history_song st nextIndex with
    | Some nextSongBase => Some (move_to st nextIndex (synced (songs st) nextSongBase))
    | None => None
    end
  else None.

Definition unplayed (st : Game) : list Song :=
  filter (λ s, id s ∉ playedSongs st) (catalogToUse st).

Section dice.
Context {D : Dice}.

(** [playNext].  Reading [nextFromCatalog.id] of an element that the
    array does not have throws before any state is set. *)
Definition playNext (st : Game) (g : dice) : result Game * dice :=
  match forward st with
  | Some st' => (Ok st', g)
  | None =>
      if (length (unplayed st) =? 0)%nat then
        (Ok {| songs := songs st; gameCatalog := gameCatalog st;
               tickets := tickets st; playedSongs := playedSongs st;
               songHistory := songHistory st; historyIndex := historyIndex st;
               currentSong := currentSong st; isPlaying := false |}, g)
      else
        let '(i, g') := random_index g (length (unplayed st)) in
        match unplayed st !! i with
        | None => (Throw TypeError, g')
        | Some nextFromCatalog =>
            let next := synced (songs st) nextFromCatalog in
            (Ok {| songs := songs st; gameCatalog := gameCatalog st;
                   tickets := tickets st;
                   playedSongs := {[id next]} ∪ playedSongs st;
                   songHistory := songHistory st ++ [id next];
                   historyIndex := historyIndex st + 1;
                   currentSong := Some next; isPlaying := true |}, g')
        end
  end.

(** The effect that cues the first song once tickets exist. *)
Definition autoCue (st : Game) (g : dice) : result Game * dice :=
  if (0 <? size (tickets st))%nat && negb (bool_decide (is_Some (currentSong st)))
     && (size (playedSongs st) =? 0)%nat
  then
    if (0 <? length (catalogToUse st))%nat then
      let '(i, g') := random_index g (length (catalogToUse st)) in
      match catalogToUse st !! i with
      | None => (Throw TypeError, g')
      | Some first =>
          let syncedFirst := synced (songs st) first in
          (Ok {| songs := songs st; gameCatalog := gameCatalog st;
                 tickets := tickets st;
                 playedSongs := {[id syncedFirst]};
                 songHistory := [id syncedFirst];
                 historyIndex := 0;
                 currentSong := Some syncedFirst; isPlaying := false |}, g')
      end
    else (Ok st, g)
  else (Ok st, g).

End dice.

(** What [replayPrevious] leaves for its 10 ms timer. *)
Inductive Timer : Type :=
  | NoTimer
  | SetCurrentSong (current : option Song).

Definition with_currentSong (st : Game) (current : option Song) : Game :=
  {| songs := songs st; gameCatalog := gameCatalog st; tickets := tickets st;
     playedSongs := playedSongs st; songHistory := songHistory st;
     historyIndex := historyIndex st; currentSong := current;
     isPlaying := isPlaying st |}.

Definition replayPrevious (st : Game) : Game * Timer :=
  if 0 <? historyIndex st then
    let prevIndex := historyIndex st - 1 in
    match history_song st prevIndex with
    | Some prevSongBase => (move_to st prevIndex (synced (songs st) prevSongBase), NoTimer)
    | None => (st, NoTimer)
    end
  else if historyIndex st =? 0 then
    (with_currentSong st None, SetCurrentSong (currentSong st))
  else (st, NoTimer).

Definition run_timer (timer : Timer) (st : Game) : Game :=
  match timer with
  | NoTimer => st
  | SetCurrentSong current => with_currentSong st current
  end.

Definition togglePause (st : Game) : Game :=
  {| songs := songs st; gameCatalog := gameCatalog st; tickets := tickets st;
     playedSongs := playedSongs st; songHistory := songHistory st;
     historyIndex := historyIndex st; currentSong := currentSong st;
     isPlaying := negb (isPlaying st) |}.

End text.

(** What the host can do during a game. *)
Inductive Action : Type :=
  | StartGame | ResetGame | PlayNext | ReplayPrevious | TogglePause | AutoCue.

Section run.
Context {T : Text} {D : Dice}.

(** One action.  The timer that [replayPrevious] starts runs before the
    next action. *)
Definition step (a : Action) (st : Game) (g : dice) : result Game * dice :=
  match a with
  | StartGame => (Ok (startGame st), g)
  | ResetGame => (Ok (resetGame st), g)
  | PlayNext => playNext st g
  | ReplayPrevious =>
      let '(st', timer) := replayPrevious st in (Ok (run_timer timer st'), g)
  | TogglePause => (Ok (togglePause st), g)
  | AutoCue => autoCue st g
  end.

Fixpoint run (actions : list Action) (st : Game) (g : dice) : result Game * dice :=
  match actions with
  | [] => (Ok st, g)
  | a :: rest =>
      match step a st g with
      | (Ok st', g') => run rest st' g'
      | (Throw e, g') => (Throw e, g')
      end
  end.

End run.

(** *** Handlers of an earlier render

    A handler is a closure over the state of the render that made it.
    [step] and [run] call every handler with the state of the moment, as
    after a render.  Called later, from a timer say, a handler still reads
    the state of its render, [seen], while its updates go to the state of
    the moment, [now]: [setX(v)] puts [v] there, and [setX(prev => ...)]
    changes the value found there. *)

Section closures.
Context {T : Text} {D : Dice}.

Definition forward_in (seen now : Game) : option Game :=
  if historyIndex seen <? Z.of_nat (length (songHistory seen)) - 1 then
    let nextIndex := historyIndex seen + 1 in
    match history_song seen nextIndex with
    | Some nextSongBase =>
        Some (move_to now nextIndex (synced (songs seen) nextSongBase))
    | None => None
    end
  else None.

(** [playNext]: [setHistoryIndex(nextIndex)] in the history branch, and
    [setPlayedSongs(prev => ...)], [setSongHistory(prev => ...)] and
    [setHistoryIndex(prev => prev + 1)] for a new song. *)
Definition playNext_in (seen now : Game) (g : dice) : result Game * dice :=
  match forward_in seen now with
  | Some st' => (Ok st', g)
  | None =>
      if (length (unplayed seen) =? 0)%nat then
        (Ok {| songs := songs now; gameCatalog := gameCatalog now;
               tickets := tickets now; playedSongs := playedSongs now;
               songHistory := songHistory now; historyIndex := historyIndex now;
               currentSong := currentSong now; isPlaying := false |}, g)
      else
        let '(i, g') := random_index g (length (unplayed seen)) in
        match unplayed seen !! i with
        | None => (Throw TypeError, g')
        | Some nextFromCatalog =>
            let next := synced (songs seen) nextFromCatalog in
            (Ok {| songs := songs now; gameCatalog := gameCatalog now;
                   tickets := tickets now;
                   playedSongs := {[id next]} ∪ playedSongs now;
                   songHistory := songHistory now ++ [id next];
                   historyIndex := historyIndex now + 1;
                   currentSong := Some next; isPlaying := true |}, g')
        end
  end.

Definition autoCue_in (seen now : Game) (g : dice) : result Game * dice :=
  if (0 <? size (tickets seen))%nat && negb (bool_decide (is_Some (currentSong seen)))
     && (size (playedSongs seen) =? 0)%nat
  then
    if (0 <? length (catalogToUse seen))%nat then
      let '(i, g') := random_index g (length (catalogToUse seen)) in
      match catalogToUse seen !! i with
      | None => (Throw TypeError, g')
      | Some first =>
          let syncedFirst := synced (songs seen) first in
          (Ok {| songs := songs now; gameCatalog := gameCatalog now;
                 tickets := tickets now;
                 playedSongs := {[id syncedFirst]};
                 songHistory := [id syncedFirst];
                 historyIndex := 0;
                 currentSong := Some syncedFirst; isPlaying := false |}, g')
      end
    else (Ok now, g)
  else (Ok now, g).

Definition replayPrevious_in (seen now : Game) : Game * Timer :=
  if 0 <? historyIndex seen then
    let prevIndex := historyIndex seen - 1 in
    match history_song seen prevIndex with
    | Some prevSongBase =>
        (move_to now prevIndex (synced (songs seen) prevSongBase), NoTimer)
    | None => (now, NoTimer)
    end
  else if historyIndex seen =? 0 then
    (with_currentSong now None, SetCurrentSong (currentSong seen))
  else (now, NoTimer).

(** [setIsPlaying(!isPlaying)] *)
Definition togglePause_in (seen now : Game) : Game :=
  {| songs := songs now; gameCatalog := gameCatalog now; tickets := tickets now;
     playedSongs := playedSongs now; songHistory := songHistory now;
     historyIndex := historyIndex now; currentSong := currentSong now;
     isPlaying := negb (isPlaying seen) |}.

Definition step_in (a : Action) (seen now : Game) (g : dice) : result Game * dice :=
  match a with
  | StartGame => (Ok (startGame now), g)
  | ResetGame => (Ok (resetGame now), g)
  | PlayNext => playNext_in seen now g
  | ReplayPrevious =>
      let '(st', timer) := replayPrevious_in seen now in (Ok (run_timer timer st'), g)
  | TogglePause => (Ok (togglePause_in seen now), g)
  | AutoCue => autoCue_in seen now g
  end.

(** A game in which every action comes with the age of the render whose
    handler is called: 0 for the render of the moment, [n] for the one
    [n] actions back (the first render when there are fewer).  [renders]
    holds the earlier states, the latest first. *)
Fixpoint run_in (schedule : list (Action * nat)) (renders : list Game) (now : Game)
    (g : dice) : result Game * dice :=
  match schedule with
  | [] => (Ok now, g)
  | (a, age) :: rest =>
      let seen := default (List.last renders now) ((now :: renders) !! age) in
      match step_in a seen now g with
      | (Ok st', g') => run_in rest (now :: renders) st' g'
      | (Throw e, g') => (Throw e, g')
      end
  end.

End closures.

Definition same_library (a b : Game) : Prop :=
  songs a = songs b ∧ gameCatalog a = gameCatalog b.

(** What holds of the state whichever render the handlers are of, in a
    game on the library and catalog of [st0]. *)
Definition consistent {T : Text} (st0 st : Game) : Prop :=
  playedSongs st = list_to_set (songHistory st)
  ∧ (∀ i, i ∈ songHistory st → i ∈ id <$> catalogToUse st0)
  ∧ same_library st st0.

(** Sample instances: lower-casing of the ASCII letters, and a counter
    as generator. *)
Definition ascii_lower (a : Ascii.ascii) : Ascii.ascii :=
  let n := Ascii.nat_of_ascii a in
  if (65 <=? n)%nat && (n <=? 90)%nat then Ascii.ascii_of_nat (n + 32) else a.

Fixpoint ascii_toLowerCase (s : string) : string :=
  match s with
  | EmptyString => EmptyString
  | String a rest => String (ascii_lower a) (ascii_toLowerCase rest)
  end.

Definition ascii_text : Text := ascii_toLowerCase.

Definition counter_dice : Dice :=
  {| dice := nat; random_index := λ g n, ((g `mod` n)%nat, S g) |}.

(** A generator that always answers with the first index. *)
Definition first_dice : Dice :=
  {| dice := unit; random_index := λ g n, (0%nat, g) |}.

(** What holds of the state in every game. *)
Record GameInv {T : Text} (st : Game) : Prop := {
  inv_played : playedSongs st = list_to_set (songHistory st);
  inv_history : NoDup (songHistory st);
  inv_index : -1 ≤ historyIndex st < Z.of_nat (length (songHistory st));
  inv_catalog : ∀ i, i ∈ songHistory st → ∃ s, s ∈ catalogToUse st ∧ id s = i
}.

Definition game_3 : Game :=
  {| songs := mk_song <$> ["a"; "b"; "c"]; gameCatalog := [];
     tickets := {[ "1" := ticket_2x2 ]};
     playedSongs := ∅; songHistory := []; historyIndex := -1;
     currentSong := None; isPlaying := false |}.

Definition game_mid : Game :=
  {| songs := mk_song <$> ["a"; "b"; "c"]; gameCatalog := [];
     tickets := {[ "1" := ticket_2x2 ]};
     playedSongs := {["b"; "c"]}; songHistory := ["b"; "c"]; historyIndex := 1;
     currentSong := Some (mk_song "c"); isPlaying := true |}.

End Play.

(** ** Reloading saved boards (GameContext.tsx)

    A board as [boards:load] hands it over: an id and cells
    [{ row, col, songId }] in file order.  [row] and [col] hold integers
    and [songId] a string. *)

Module Boards.
Import Play.




(** [s.split('/').pop()]: what follows the last ['/']; [current] is the
    segment read so far. *)
Fixpoint last_segment_from (s current : string) : string :=
  match s with
  | EmptyString => current
  | String a rest =>
      if Ascii.eqb a slash then last_segment_from rest EmptyString
      else last_segment_from rest (current +:+ String a EmptyString)
  end.

Definition last_segment (s : string) : string := last_segment_from s EmptyString.



Section text.
Context {T : Text}.

(** The three ways in which a library song matches the [songId] of a
    cell. *)
Definition matches (songId : string) (s : Song) : Prop :=
  id s = songId
  ∨ normalized (filePath s) = normalized songId
  ∨ (last_segment (normalized (filePath s)) ≠ ""
     ∧ last_segment (normalized (filePath s)) = last_segment (normalized songId)).

Global Instance matches_dec songId s : Decision (matches songId s).
Proof. unfold matches. apply _. Defined.













End text.


End Boards.

(** ** Printing the tickets (utils/PDFGenerator.ts)

    [generateTicketsPDF] as the sequence of its calls on the document.
    [drawTicket] lays one ticket out with jsPDF and autoTable; here it is
    a call recorded with its arguments, whose outcome is a parameter. *)

Module PDFGenerator.

Inductive Op : Type :=
  | AddPage                                             (* doc.addPage() *)
  | DrawTicket (ticket : BingoTicket) (halfStartY : Q)  (* this.drawTicket(...) *)
  | CutLine                         (* the dashed line at 148.5 mm *)
  | Save (filename : string).                           (* doc.save(...) *)

Definition half_page : Q := 297 # 2.

Section draw.
Variable drawTicket : BingoTicket → Q → result unit.

(** The body of [for (let i = 0; i < ticketsArray.length; i += 2)]:
    [todo] iterations remain, [done_ops] are the calls made so far, latest
    first.  Reading [ticket.grid] of a ticket that the array does not have
    throws inside [drawTicket]. *)
Fixpoint pages_loop (todo i : nat) (ticketsArray : list BingoTicket)
    (done_ops : list Op) : list Op * result unit :=
  match todo with
  | O => (done_ops, Ok ())
  | S todo' =>
      let done_ops := if (0 <? i)%nat then AddPage :: done_ops else done_ops in
      match ticketsArray !! i with
      | None => (done_ops, Throw TypeError)
      | Some topTicket =>
          let done_ops := DrawTicket topTicket 0 :: done_ops in
          match drawTicket topTicket 0 with
          | Throw e => (done_ops, Throw e)
          | Ok _ =>
              match ticketsArray !! (i + 1)%nat with
              | None => pages_loop todo' (i + 2) ticketsArray done_ops
              | Some bottomTicket =>
                  let done_ops := DrawTicket bottomTicket half_page :: CutLine :: done_ops in
                  match drawTicket bottomTicket half_page with
                  | Throw e => (done_ops, Throw e)
                  | Ok _ => pages_loop todo' (i + 2) ticketsArray done_ops
                  end
              end
          end
      end
  end.

(** The calls in the order in which they were made, and whether the
    function returned. *)
Definition generateTicketsPDF (tickets : list BingoTicket) : list Op * result unit :=
  match pages_loop (Nat.div2 (S (length tickets))) 0 tickets [] with
  | (done_ops, Ok _) => (reverse (Save "bingo-tickets.pdf" :: done_ops), Ok ())
  | (done_ops, Throw e) => (reverse done_ops, Throw e)
  end.

End draw.

(** The tickets drawn, with the half of the page each was drawn on. *)
Definition drawn (ops : list Op) : list (BingoTicket * Q) :=
  omap (λ op, match op with DrawTicket t y => Some (t, y) | _ => None end) ops.

Definition is_AddPage (op : Op) : bool :=
  match op with AddPage => true | _ => false end.

Definition is_CutLine (op : Op) : bool :=
  match op with CutLine => true | _ => false end.

(** The number of [doc.addPage()] calls. *)
Definition added_pages (ops : list Op) : nat := length (List.filter is_AddPage ops).

Definition cut_lines (ops : list Op) : nat := length (List.filter is_CutLine ops).

(** The calls that lay the tickets [l] out two to a page: for each pair a
    new page (unless it is the page the document starts with, [first]),
    the upper ticket, and for a second ticket the cut line and the lower
    ticket. *)
Fixpoint sheets (first : bool) (l : list BingoTicket) : list Op :=
  match l with
  | [] => []
  | top :: rest =>
      (if first then [] else [AddPage])
      ++ DrawTicket top 0
         :: match rest with
            | [] => []
            | bottom :: rest' =>
                CutLine :: DrawTicket bottom half_page :: sheets false rest'
            end
  end.

(** Where the ticket at index [i] belongs. *)
Definition half_of (i : nat) : Q := if Nat.even i then 0%Q else half_page.

End PDFGenerator.

(** * Properties *)

Import BingoGameLogic GameContext.

(** ** The binomial reference *)

Lemma binomial_0_r n : binomial n 0 = 1.
Proof. by destruct n. Qed.

Lemma binomial_S_S n k :
  binomial (S n) (S k) = binomial n k + binomial n (S k).
Proof. done. Qed.

Lemma binomial_nonneg n k : 0 ≤ binomial n k.
Proof.
  revert k. induction n as [|n IH]; intros [|k]; simpl; try lia.
  pose proof (IH k). pose proof (IH (S k)). lia.
Qed.

Lemma binomial_above n k : (n < k)%nat → binomial n k = 0.
Proof.
  revert k. induction n as [|n IH]; intros [|k] Hk; simpl; try lia.
  rewrite !IH by lia. lia.
Qed.

Lemma binomial_diag n : binomial n n = 1.
Proof.
  induction n as [|n IH]; simpl; [done|].
  rewrite IH, binomial_above by lia. lia.
Qed.

(** (k+1) C(n,k+1) = (n-k) C(n,k), written without subtraction. *)
Lemma binomial_step n k :
  Z.of_nat (S k) * binomial n (S k) + Z.of_nat k * binomial n k
  = Z.of_nat n * binomial n k.
Proof.
  revert k. induction n as [|n IH]; intros k.
  - destruct k; simpl; lia.
  - destruct k as [|k].
    + pose proof (IH 0%nat) as H0.
      rewrite binomial_S_S, !binomial_0_r in *. lia.
    + pose proof (IH k) as H1. pose proof (IH (S k)) as H2.
      rewrite !binomial_S_S. nia.
Qed.

(** The reference is the factorial quotient n! / (k! (n-k)!). *)
Lemma binomial_factorial n k :
  (k ≤ n)%nat → binomial n k * factorial k * factorial (n - k) = factorial n.
Proof.
  induction k as [|k IH]; intros Hk.
  - rewrite Nat.sub_0_r. destruct n; simpl; lia.
  - specialize (IH ltac:(lia)).
    pose proof (binomial_step n k) as Hs.
    replace (n - k)%nat with (S (n - S k)) in IH by lia.
    change (factorial (S k)) with (Z.of_nat (S k) * factorial k).
    change (factorial (S (n - S k)))
      with (Z.of_nat (S (n - S k)) * factorial (n - S k)) in IH.
    rewrite <- IH.
    replace (Z.of_nat (S (n - S k))) with (Z.of_nat n - Z.of_nat k) by lia.
    assert (Z.of_nat (S k) * binomial n (S k)
            = (Z.of_nat n - Z.of_nat k) * binomial n k) as Hs' by lia.
    transitivity ((Z.of_nat (S k) * binomial n (S k))
                  * (factorial k * factorial (n - S k))); [ring|].
    rewrite Hs'. ring.
Qed.

Lemma binomial_mono_step n k :
  (2 * k + 1 ≤ n)%nat → binomial n k ≤ binomial n (S k).
Proof.
  intros Hk. pose proof (binomial_step n k).
  pose proof (binomial_nonneg n k). pose proof (binomial_nonneg n (S k)). nia.
Qed.

Lemma binomial_mono n i j :
  (i ≤ j)%nat → (2 * j ≤ n)%nat → binomial n i ≤ binomial n j.
Proof.
  induction 1 as [|j Hij IH]; intros Hj; [lia|].
  etrans; [apply IH; lia|]. apply binomial_mono_step. lia.
Qed.

Lemma binomial_sym n k : (k ≤ n)%nat → binomial n (n - k) = binomial n k.
Proof.
  intros Hk.
  pose proof (binomial_factorial n k Hk) as H1.
  pose proof (binomial_factorial n (n - k) ltac:(lia)) as H2.
  replace (n - (n - k))%nat with k in H2 by lia.
  assert (Hpos : ∀ m, 0 < factorial m).
  { induction m; simpl; nia. }
  pose proof (Hpos k). pose proof (Hpos (n - k)%nat).
  assert (0 < factorial k * factorial (n - k)) by nia.
  apply (Z.mul_reg_r _ _ (factorial k * factorial (n - k))); [lia|]. nia.
Qed.

(** ** combinations and calculateSafeMax *)

Lemma exceeds_cap_inject (res : Q) (c : Z) :
  (res == inject_Z c)%Q → exceeds_cap res = bool_decide (CAP < c).
Proof.
  intros Hres. unfold exceeds_cap. rewrite Hres.
  unfold Qle_bool, inject_Z; simpl. rewrite Z.mul_1_r.
  case_bool_decide; destruct (Z.leb_spec c CAP); simpl; lia || done.
Qed.

Lemma half_test (n r : Z) :
  Qle_bool (inject_Z r) (inject_Z n / 2) = (2 * r <=? n).
Proof.
  unfold Qle_bool, Qdiv, Qmult, Qinv, inject_Z; simpl.
  change (Z.pos (1 * 2)) with 2.
  destruct (Z.leb_spec (r * 2) (n * 1 * 1)), (Z.leb_spec (2 * r) n); lia || done.
Qed.

(** One iteration keeps the running product on the binomial coefficients:
    C(n,k) (n - (k+1) + 1) / (k+1) = C(n,k+1). *)
Lemma step_exact (n k : nat) (res : Q) :
  (res == inject_Z (binomial n k))%Q →
  (res * inject_Z (Z.of_nat n - Z.of_nat (S k) + 1) / inject_Z (Z.of_nat (S k))
   == inject_Z (binomial n (S k)))%Q.
Proof.
  intros ->. rewrite <- inject_Z_mult.
  replace (binomial n k * (Z.of_nat n - Z.of_nat (S k) + 1))
    with (binomial n (S k) * Z.of_nat (S k))
    by (pose proof (binomial_step n k); lia).
  rewrite inject_Z_mult. apply Qdiv_mult_l.
  unfold Qeq, inject_Z; simpl. lia.
Qed.

Lemma combinations_loop_exact (n todo k : nat) (res : Q) :
  (2 * (k + todo) ≤ n)%nat →
  (res == inject_Z (binomial n k))%Q →
  binomial n k ≤ CAP →
  combinations_loop (Z.of_nat n) todo (Z.of_nat (S k)) res
  = Z.min (binomial n (k + todo)) CAP.
Proof.
  revert k res. induction todo as [|todo IH]; intros k res Hhalf Hres Hcap.
  - simpl. rewrite Hres, Qfloor_Z, Nat.add_0_r. lia.
  - cbn [combinations_loop].
    pose proof (step_exact n k res Hres) as Hstep.
    rewrite (exceeds_cap_inject _ _ Hstep).
    case_bool_decide as Hover.
    + pose proof (binomial_mono n (S k) (k + S todo) ltac:(lia) ltac:(lia)). lia.
    + replace (Z.of_nat (S k) + 1) with (Z.of_nat (S (S k))) by lia.
      rewrite (IH (S k)); [|lia|done|lia].
      by replace (S k + todo)%nat with (k + S todo)%nat by lia.
Qed.

(** On its domain the calculator is the binomial coefficient, cut at the cap. *)
Lemma combinations_exact (n r : Z) :
  0 ≤ r ≤ n → combinations n r = Z.min (choose n r) CAP.
Proof.
  intros Hr. unfold combinations, choose.
  destruct (Z.ltb_spec r 0); [lia|]. destruct (Z.ltb_spec n r); [lia|]. simpl.
  destruct (Z.eqb_spec r 0) as [->|Hr0]; simpl.
  { rewrite binomial_0_r. done. }
  destruct (Z.eqb_spec r n) as [->|Hrn]; simpl.
  { rewrite binomial_diag. done. }
  rewrite half_test.
  assert (n = Z.of_nat (Z.to_nat n)) as Hn by lia.
  set (m := Z.to_nat n) in *. clearbody m. subst n.
  assert (r = Z.of_nat (Z.to_nat r)) as Hk by lia.
  set (k := Z.to_nat r) in *. clearbody k. subst r.
  destruct (Z.leb_spec (2 * Z.of_nat k) (Z.of_nat m)); simpl.
  - rewrite Nat2Z.id, (combinations_loop_exact _ _ 0%nat);
      [done|lia|by rewrite binomial_0_r|by rewrite binomial_0_r].
  - rewrite (combinations_loop_exact _ _ 0%nat);
      [|lia|by rewrite binomial_0_r|by rewrite binomial_0_r].
    replace (0 + Z.to_nat (Z.of_nat m - Z.of_nat k))%nat with (m - k)%nat by lia.
    rewrite binomial_sym by lia. done.
Qed.

(** The reference computed from factorials. *)
Lemma choose_factorial (n r : Z) :
  0 ≤ r ≤ n →
  choose n r
  = factorial (Z.to_nat n)
    / (factorial (Z.to_nat r) * factorial (Z.to_nat (n - r))).
Proof.
  intros Hr. unfold choose.
  rewrite <- (binomial_factorial (Z.to_nat n) (Z.to_nat r)) by lia.
  rewrite Z2Nat.inj_sub, <- Z.mul_assoc by lia.
  symmetry. apply Z.div_mul.
  assert (∀ m, 0 < factorial m) as Hpos by (induction m; simpl; nia).
  pose proof (Hpos (Z.to_nat r)). pose proof (Hpos (Z.to_nat n - Z.to_nat r)%nat).
  nia.
Qed.

Lemma choose_nonneg (n r : Z) : 0 ≤ choose n r.
Proof. apply binomial_nonneg. Qed.

Lemma combinations_outside (n r : Z) : r > n ∨ r < 0 → combinations n r = 0.
Proof.
  intros Hout. unfold combinations.
  destruct (Z.ltb_spec r 0), (Z.ltb_spec n r); simpl; lia || done.
Qed.

(** The doubles of the source return the integers of the exact model, for
    every pair of arguments in the range checked (which covers the cap and
    the arguments outside the domain). *)
Lemma combinations_double_agrees (n r : Z) :
  -5 ≤ n ≤ 60 → -5 ≤ r ≤ 65 →
  Doubles.integer (Doubles.combinations (Doubles.number n) (Doubles.number r))
  = Some (combinations n r).
Proof.
  intros Hn Hr.
  assert (Forall (λ n, Forall (λ r,
            Doubles.integer
              (Doubles.combinations (Doubles.number n) (Doubles.number r))
            = Some (combinations n r)) (seqZ (-5) 71)) (seqZ (-5) 66)) as Hall.
  { apply (bool_decide_unpack _). by vm_compute. }
  rewrite Forall_forall in Hall.
  specialize (Hall n ltac:(apply elem_of_seqZ; lia)).
  rewrite Forall_forall in Hall. apply Hall, elem_of_seqZ. lia.
Qed.

(** C9.  The calculator is a total function of two integers: it returns 0
    whenever [r > n] or [r < 0], and for [0 <= r <= n] it returns 1 whenever
    [r = 0] or [r = n]. *)
Theorem combinations_edge_cases (n r : Z) :
  (r > n ∨ r < 0 → combinations n r = 0)
  ∧ (0 ≤ r ≤ n → r = 0 ∨ r = n → combinations n r = 1).
Proof.
  split; [apply combinations_outside|].
  intros Hin Hedge. unfold combinations.
  destruct (Z.ltb_spec r 0), (Z.ltb_spec n r); simpl; try lia.
  destruct (Z.eqb_spec r 0), (Z.eqb_spec r n); simpl; lia || done.
Qed.

Lemma combinations_edge_cases_witness :
  combinations 3 5 = 0 ∧ combinations (-4) (-1) = 0
  ∧ combinations 7 0 = 1 ∧ combinations 7 7 = 1.
Proof.
  split; [apply (proj1 (combinations_edge_cases 3 5)); lia|].
  split; [apply (proj1 (combinations_edge_cases (-4) (-1))); lia|].
  split; [apply (proj2 (combinations_edge_cases 7 0)); lia|].
  apply (proj2 (combinations_edge_cases 7 7)); lia.
Defined.

(** C7.  For every pair of integers the calculator returns a value between
    0 and 1,000,000; an iteration whose running product exceeds 1,000,000
    returns exactly 1,000,000; and [combinations 50 25 = 1,000,000], in
    exact arithmetic and on doubles. *)
Theorem combinations_capped :
  (∀ n r : Z, 0 ≤ combinations n r ≤ 1000000)
  ∧ (∀ (n i : Z) (todo : nat) (res : Q),
        (inject_Z 1000000 < res * inject_Z (n - i + 1) / inject_Z i)%Q →
        combinations_loop n (S todo) i res = 1000000)
  ∧ combinations 50 25 = 1000000
  ∧ Doubles.integer (Doubles.combinations (Doubles.number 50) (Doubles.number 25))
    = Some 1000000.
Proof.
  split_and!.
  - intros n r.
    destruct (decide (0 ≤ r ≤ n)) as [Hr|Hr].
    + rewrite combinations_exact by done.
      pose proof (choose_nonneg n r). unfold CAP. lia.
    + rewrite combinations_outside by lia. lia.
  - intros n i todo res Hover. cbn [combinations_loop].
    unfold exceeds_cap.
    destruct (Qle_bool _ _) eqn:Hle; [|done].
    apply Qle_bool_iff in Hle. by apply Qlt_not_le in Hover.
  - by vm_compute.
  - by vm_compute.
Qed.

Lemma combinations_capped_witness :
  combinations_loop 50 21 5 230300 = 1000000 ∧ 0 ≤ combinations 50 25 ≤ 1000000.
Proof.
  split.
  - apply (proj1 (proj2 combinations_capped)). by vm_compute.
  - apply (proj1 combinations_capped).
Defined.

(** C4, as the code has it.  For [0 <= r <= n <= 30] the calculator returns
    the exact binomial coefficient C(n,r) when that is at most 1,000,000 and
    1,000,000 otherwise, in exact arithmetic and on doubles;
    [calculateSafeMax] returns the same for [r = gridSize * gridSize]. *)
Theorem combinations_exact_to_cap (n r : Z) :
  0 ≤ r ≤ n → n ≤ 30 →
  combinations n r = Z.min (choose n r) 1000000
  ∧ (choose n r ≤ 1000000 → combinations n r = choose n r)
  ∧ Doubles.integer (Doubles.combinations (Doubles.number n) (Doubles.number r))
    = Some (Z.min (choose n r) 1000000)
  ∧ (∀ g : Z, r = g * g →
       calculateSafeMax n g = Z.min (choose n r) 1000000).
Proof.
  intros Hr Hn. pose proof (combinations_exact n r Hr) as Hc. unfold CAP in Hc.
  split_and!; [done|lia| |].
  - rewrite combinations_double_agrees by lia. by rewrite Hc.
  - intros g ->. unfold calculateSafeMax.
    destruct (Z.ltb_spec n (g * g)); [lia|done].
Qed.

Lemma combinations_exact_to_cap_witness :
  combinations 10 5 = Z.min (choose 10 5) 1000000
  ∧ (choose 10 5 ≤ 1000000 → combinations 10 5 = choose 10 5)
  ∧ Doubles.integer (Doubles.combinations (Doubles.number 10) (Doubles.number 5))
    = Some (Z.min (choose 10 5) 1000000)
  ∧ (∀ g : Z, 5 = g * g → calculateSafeMax 10 g = Z.min (choose 10 5) 1000000).
Proof. apply (combinations_exact_to_cap 10 5); lia. Defined.

(** The values the specification lists are below the cap, hence exact. *)
Example combinations_listed_values :
  combinations 25 25 = 1 ∧ combinations 25 0 = 1
  ∧ combinations 25 1 = 25 ∧ combinations 10 5 = 252.
Proof. by vm_compute. Qed.

(** C4 fails as stated: C(23,11) = 1,352,078, and the calculator answers
    1,000,000 (the running product passes the cap at i = 10), in exact
    arithmetic and on doubles. *)
Lemma combinations_not_exact :
  0 ≤ 11 ≤ 23 ∧ 23 ≤ 30
  ∧ choose 23 11 = 1352078
  ∧ combinations 23 11 = 1000000
  ∧ Doubles.integer (Doubles.combinations (Doubles.number 23) (Doubles.number 11))
    = Some 1000000
  ∧ combinations 23 11 ≠ choose 23 11
  ∧ calculateSafeMax 30 3 ≠ choose 30 (3 * 3).
Proof.
  split; [lia|]. split; [lia|].
  split; [rewrite choose_factorial by lia; by vm_compute|].
  split; [by vm_compute|]. split; [by vm_compute|].
  split; rewrite choose_factorial by lia; by vm_compute.
Qed.

(** ** checkWins *)

Lemma played_has_spec playedSongIds cell :
  played_has playedSongIds cell = true ↔ id (song cell) ∈ playedSongIds.
Proof. unfold played_has. by rewrite bool_decide_eq_true. Qed.

Lemma every_Forall {A} (f : A → bool) (P : A → Prop)
    `{!∀ x, Decision (P x)} (l : list A) :
  (∀ x, f x = true ↔ P x) → forallb f l = bool_decide (Forall P l).
Proof.
  intros Hf. apply eq_true_iff_eq.
  rewrite bool_decide_eq_true, forallb_forall, Forall_forall.
  split; intros Hall x Hx; apply Hf, Hall; by apply list_elem_of_In.
Qed.

Lemma every_all_played playedSongIds cells :
  forallb (played_has playedSongIds) cells
  = bool_decide (all_played playedSongIds cells).
Proof. apply every_Forall, played_has_spec. Qed.

Lemma count_rows_spec playedSongIds grid acc :
  count_rows playedSongIds grid acc
  = (acc + length (filter (all_played playedSongIds) grid))%nat.
Proof.
  revert acc. induction grid as [|row grid IH]; intros acc; simpl.
  - lia.
  - rewrite IH, every_all_played, filter_cons.
    case_bool_decide; case_decide; simpl; try done; lia.
Qed.

Lemma cell_at_cell_of grid r c cell :
  cell_of grid r c = Some cell → cell_at grid r c = Ok cell.
Proof.
  unfold cell_of, cell_at. destruct (grid !! r) as [row|]; simpl; [|done].
  by intros ->.
Qed.

(** A line whose cells all exist is walked without error, and the walk
    answers whether the line is complete. *)
Lemma line_complete_spec playedSongIds grid col todo i :
  (∀ j, (i ≤ j < i + todo)%nat → is_Some (cell_of grid j (col j))) →
  line_complete playedSongIds grid col todo i
  = Ok (bool_decide (all_played playedSongIds
          (omap (λ r, cell_of grid r (col r)) (seq i todo)))).
Proof.
  revert i. induction todo as [|todo IH]; intros i Hcells; simpl.
  - done.
  - destruct (Hcells i ltac:(lia)) as [cell Hcell]. rewrite Hcell.
    rewrite (cell_at_cell_of _ _ _ _ Hcell). simpl.
    destruct (played_has playedSongIds cell) eqn:Hhas.
    + rewrite IH by (intros j Hj; apply Hcells; lia).
      f_equal. apply played_has_spec in Hhas. unfold all_played.
      apply bool_decide_ext. split; [by constructor|by inversion 1].
    + f_equal. symmetry. apply bool_decide_eq_false. inversion 1 as [|?? Hin]; subst.
      apply played_has_spec in Hin. congruence.
Qed.

Lemma cell_of_in_range grid r c :
  rectangular grid → (r < length grid)%nat → (c < width grid)%nat →
  is_Some (cell_of grid r c).
Proof.
  intros Hrect Hr Hc. unfold cell_of.
  destruct (lookup_lt_is_Some_2 grid r Hr) as [row Hrow]. rewrite Hrow. simpl.
  apply lookup_lt_is_Some_2.
  unfold rectangular in Hrect. rewrite Forall_lookup in Hrect.
  by rewrite (Hrect r row Hrow).
Qed.

Lemma count_columns_spec playedSongIds grid todo c acc :
  rectangular grid → (c + todo ≤ width grid)%nat →
  count_columns playedSongIds grid (length grid) todo c acc
  = Ok (acc + length (filter (λ c, all_played playedSongIds (column grid c))
                       (seq c todo)))%nat.
Proof.
  intros Hrect. revert c acc. induction todo as [|todo IH]; intros c acc Hc; simpl.
  - f_equal. lia.
  - rewrite line_complete_spec
      by (intros j Hj; apply cell_of_in_range; [done|lia|lia]).
    simpl. rewrite IH by lia. f_equal. rewrite filter_cons.
    fold (line grid (λ _, c)). fold (column grid c).
    case_bool_decide; case_decide; simpl; try done; lia.
Qed.

Lemma count_diagonals_spec playedSongIds grid :
  rectangular grid →
  count_diagonals playedSongIds grid (length grid) (width grid)
  = Ok (complete_diagonals playedSongIds grid).
Proof.
  intros Hrect. unfold count_diagonals, complete_diagonals.
  case_decide as Hsq; [|done].
  rewrite !line_complete_spec
    by (intros j Hj; apply cell_of_in_range; [done|lia|lia]).
  simpl. f_equal.
  fold (line grid (λ i, i)). fold (main_diagonal grid).
  fold (line grid (λ i, (length grid - 1 - i)%nat)). fold (anti_diagonal grid).
  rewrite !filter_cons, filter_nil.
  repeat case_bool_decide; repeat case_decide; simpl; done.
Qed.

Lemma four_corners_defined playedSongIds grid :
  rectangular grid →
  ∃ b, four_corners playedSongIds grid (length grid) (width grid) = Ok b.
Proof.
  intros Hrect. unfold four_corners.
  destruct (Nat.leb_spec 2 (length grid)), (Nat.leb_spec 2 (width grid));
    simpl; eauto.
  destruct (cell_of_in_range grid 0 0 Hrect) as [c1 H1]; [lia..|].
  destruct (cell_of_in_range grid 0 (width grid - 1) Hrect) as [c2 H2]; [lia..|].
  destruct (cell_of_in_range grid (length grid - 1) 0 Hrect) as [c3 H3]; [lia..|].
  destruct (cell_of_in_range grid (length grid - 1) (width grid - 1) Hrect)
    as [c4 H4]; [lia..|].
  rewrite (cell_at_cell_of _ _ _ _ H1), (cell_at_cell_of _ _ _ _ H2),
    (cell_at_cell_of _ _ _ _ H3), (cell_at_cell_of _ _ _ _ H4).
  simpl. eauto.
Qed.

(** On a rectangular grid with at least one row the evaluator raises no
    error, and its list is determined by the total of completed lines, the
    corner test and the full-house test. *)
Lemma checkWins_rectangular ticket cells playedSongIds :
  grid ticket = Some cells → cells ≠ [] → rectangular cells →
  ∃ fourCorners : bool,
    checkWins ticket playedSongIds
    = Ok ((if (1 <=? total_lines playedSongIds cells)%nat then [LINE_1] else [])
          ++ (if (2 <=? total_lines playedSongIds cells)%nat then [LINES_2] else [])
          ++ (if fourCorners then [FOUR_CORNERS] else [])
          ++ (if bool_decide (Forall (all_played playedSongIds) cells)
              then [FULL_HOUSE] else [])).
Proof.
  intros Hgrid Hne Hrect. unfold checkWins. rewrite Hgrid.
  destruct cells as [|row0 rest] eqn:Hg; [done|]. rewrite <- Hg in *.
  assert (length row0 = width cells) as -> by (by rewrite Hg).
  rewrite count_columns_spec by (done || lia). simpl.
  rewrite count_diagonals_spec by done. simpl.
  destruct (four_corners_defined playedSongIds cells Hrect) as [b ->]. simpl.
  exists b. rewrite count_rows_spec. simpl.
  fold (complete_rows playedSongIds cells).
  fold (complete_columns playedSongIds cells).
  fold (total_lines playedSongIds cells).
  do 4 f_equal.
  assert (forallb (forallb (played_has playedSongIds)) cells
          = bool_decide (Forall (all_played playedSongIds) cells)) as ->; [|done].
  apply every_Forall. intros row.
  by rewrite every_all_played, bool_decide_eq_true.
Qed.

Lemma elem_of_if_singleton {A} (x y : A) (b : bool) :
  x ∈ (if b then [y] else []) ↔ b = true ∧ x = y.
Proof.
  destruct b.
  - rewrite list_elem_of_singleton. intuition.
  - rewrite elem_of_nil. intuition congruence.
Qed.

Lemma elem_of_wins (w : WinType) (b1 b2 b3 b4 : bool) :
  w ∈ (if b1 then [LINE_1] else []) ++ (if b2 then [LINES_2] else [])
      ++ (if b3 then [FOUR_CORNERS] else []) ++ (if b4 then [FULL_HOUSE] else [])
  ↔ (b1 = true ∧ w = LINE_1) ∨ (b2 = true ∧ w = LINES_2)
    ∨ (b3 = true ∧ w = FOUR_CORNERS) ∨ (b4 = true ∧ w = FULL_HOUSE).
Proof. by rewrite !elem_of_app, !elem_of_if_singleton. Qed.

Lemma LINE_1_in_wins (b1 b2 b3 b4 : bool) :
  LINE_1 ∈ (if b1 then [LINE_1] else []) ++ (if b2 then [LINES_2] else [])
      ++ (if b3 then [FOUR_CORNERS] else []) ++ (if b4 then [FULL_HOUSE] else [])
  ↔ b1 = true.
Proof. rewrite elem_of_wins. intuition discriminate. Qed.

Lemma LINES_2_in_wins (b1 b2 b3 b4 : bool) :
  LINES_2 ∈ (if b1 then [LINE_1] else []) ++ (if b2 then [LINES_2] else [])
      ++ (if b3 then [FOUR_CORNERS] else []) ++ (if b4 then [FULL_HOUSE] else [])
  ↔ b2 = true.
Proof. rewrite elem_of_wins. intuition discriminate. Qed.

Lemma FULL_HOUSE_in_wins (b1 b2 b3 b4 : bool) :
  FULL_HOUSE ∈ (if b1 then [LINE_1] else []) ++ (if b2 then [LINES_2] else [])
      ++ (if b3 then [FOUR_CORNERS] else []) ++ (if b4 then [FULL_HOUSE] else [])
  ↔ b4 = true.
Proof. rewrite elem_of_wins. intuition discriminate. Qed.

(** C3.  On a ticket with at least one row and a rectangular grid,
    [checkWins] returns a list that contains '1_LINE' exactly when the total
    of completed lines is at least 1 and '2_LINES' exactly when it is at
    least 2, the total being the completed rows plus the completed columns
    plus, for a square grid only, the completed diagonals among the two. *)
Theorem checkWins_line_conditions ticket cells playedSongIds :
  grid ticket = Some cells → cells ≠ [] → rectangular cells →
  ∃ wins, checkWins ticket playedSongIds = Ok wins
    ∧ (LINE_1 ∈ wins ↔ (1 ≤ total_lines playedSongIds cells)%nat)
    ∧ (LINES_2 ∈ wins ↔ (2 ≤ total_lines playedSongIds cells)%nat).
Proof.
  intros Hgrid Hne Hrect.
  destruct (checkWins_rectangular ticket cells playedSongIds Hgrid Hne Hrect)
    as [fourCorners ->].
  eexists; split; [done|].
  by rewrite LINE_1_in_wins, LINES_2_in_wins, !Nat.leb_le.
Qed.

(** C8.  A ticket whose grid is null or undefined, or has no row, yields
    the empty list, and no error, whatever the played set. *)
Theorem checkWins_no_grid ticket playedSongIds :
  grid ticket = None ∨ grid ticket = Some [] →
  checkWins ticket playedSongIds = Ok [].
Proof. unfold checkWins. by intros [-> | ->]. Qed.

(** C10.  A grid of n >= 1 rows that have no cell wins '1_LINE' and
    'FULL_HOUSE' against every played set, the empty one included. *)
Theorem checkWins_rows_without_cells ticket cells playedSongIds :
  grid ticket = Some cells → (1 ≤ length cells)%nat →
  Forall (λ row, row = []) cells →
  ∃ wins, checkWins ticket playedSongIds = Ok wins
    ∧ LINE_1 ∈ wins ∧ FULL_HOUSE ∈ wins.
Proof.
  intros Hgrid Hrows Hempty.
  assert (cells ≠ []) as Hne by (destruct cells; simpl in *; [lia|done]).
  assert (Forall (all_played playedSongIds) cells) as Hall.
  { eapply Forall_impl; [done|]. intros row ->. constructor. }
  assert (rectangular cells) as Hrect.
  { unfold rectangular, width. destruct cells as [|row0 rest]; [done|].
    inversion Hempty; subst. simpl.
    eapply Forall_impl; [exact Hempty|]. by intros row ->. }
  destruct (checkWins_rectangular ticket cells playedSongIds Hgrid Hne Hrect)
    as [fourCorners ->].
  eexists; split; [done|].
  rewrite LINE_1_in_wins, FULL_HOUSE_in_wins, Nat.leb_le, bool_decide_eq_true.
  split; [|done].
  unfold total_lines, complete_rows.
  assert (filter (all_played playedSongIds) cells = cells) as ->; [|lia].
  clear -Hall. induction Hall as [|row rows Hrow _ IH]; [done|].
  by rewrite filter_cons_True, IH.
Qed.

Lemma checkWins_line_conditions_witness :
  ∃ wins, checkWins ticket_2x2 {["a"; "b"]} = Ok wins
    ∧ (LINE_1 ∈ wins
       ↔ (1 ≤ total_lines {["a"; "b"]}
                [[mk_cell "a"; mk_cell "b"]; [mk_cell "c"; mk_cell "d"]])%nat)
    ∧ (LINES_2 ∈ wins
       ↔ (2 ≤ total_lines {["a"; "b"]}
                [[mk_cell "a"; mk_cell "b"]; [mk_cell "c"; mk_cell "d"]])%nat).
Proof.
  apply (checkWins_line_conditions ticket_2x2);
    [reflexivity | discriminate | repeat constructor].
Defined.

Lemma checkWins_no_grid_witness :
  checkWins ticket_null {["a"]} = Ok [].
Proof. apply (checkWins_no_grid ticket_null). left. reflexivity. Defined.

Lemma checkWins_rows_without_cells_witness :
  ∃ wins, checkWins ticket_3x0 ∅ = Ok wins ∧ LINE_1 ∈ wins ∧ FULL_HOUSE ∈ wins.
Proof.
  apply (checkWins_rows_without_cells ticket_3x0 [[]; []; []]);
    [reflexivity | simpl; lia | repeat constructor].
Defined.

(** The scenarios of the specification, on a 2x2 ticket. *)
Example checkWins_scenarios :
  checkWins ticket_2x2 {["a"; "b"]} = Ok [LINE_1]
  ∧ checkWins ticket_2x2 {["a"; "d"]} = Ok [LINE_1]
  ∧ checkWins ticket_2x2 {["a"; "b"; "c"]} = Ok [LINE_1; LINES_2]
  ∧ checkWins ticket_2x2 {["a"; "b"; "c"; "d"]}
    = Ok [LINE_1; LINES_2; FOUR_CORNERS; FULL_HOUSE]
  ∧ checkWins ticket_2x2 ∅ = Ok [].
Proof. by vm_compute. Qed.

(** ** generateTicket *)

Lemma fill_row_spec selectedSongs todo songIndex row :
  fill_row selectedSongs todo songIndex row
  = (row ++ (new_cell selectedSongs <$> seq songIndex todo),
     (songIndex + todo)%nat).
Proof.
  revert songIndex row. induction todo as [|todo IH]; intros songIndex row; simpl.
  - by rewrite app_nil_r, Nat.add_0_r.
  - rewrite IH, <- app_assoc. simpl. do 2 f_equal. lia.
Qed.

Lemma fill_grid_length selectedSongs gridSize todo songIndex grid :
  length (fill_grid selectedSongs gridSize todo songIndex grid)
  = (length grid + todo)%nat.
Proof.
  revert songIndex grid. induction todo as [|todo IH]; intros songIndex grid; simpl.
  - lia.
  - rewrite fill_row_spec, IH, length_app. simpl. lia.
Qed.

Lemma fill_grid_rows selectedSongs gridSize todo songIndex grid :
  Forall (λ row, length row = gridSize) grid →
  Forall (λ row, length row = gridSize)
    (fill_grid selectedSongs gridSize todo songIndex grid).
Proof.
  revert songIndex grid. induction todo as [|todo IH]; intros songIndex grid Hg;
    simpl; [done|].
  rewrite fill_row_spec. apply IH, Forall_app. split; [done|].
  constructor; [|done]. simpl. by rewrite length_fmap, length_seq.
Qed.

Lemma fill_grid_concat selectedSongs gridSize todo songIndex grid :
  concat (fill_grid selectedSongs gridSize todo songIndex grid)
  = concat grid ++ (new_cell selectedSongs <$> seq songIndex (todo * gridSize)).
Proof.
  revert songIndex grid. induction todo as [|todo IH]; intros songIndex grid; simpl.
  - by rewrite app_nil_r.
  - rewrite fill_row_spec, IH, concat_app. simpl.
    rewrite app_nil_r, <- app_assoc, seq_app, fmap_app. done.
Qed.

(** Reading an array at each of its indices gives the array: no cell is
    built from an index past the end. *)
Lemma read_all selectedSongs :
  read selectedSongs <$> seq 0 (length selectedSongs) = selectedSongs.
Proof.
  apply list_eq. intros i. rewrite list_lookup_fmap.
  destruct (decide (i < length selectedSongs)%nat) as [Hi|Hi].
  - rewrite lookup_seq_lt by done. simpl. unfold read.
    destruct (lookup_lt_is_Some_2 selectedSongs i Hi) as [s Hs]. by rewrite Hs.
  - rewrite lookup_seq_ge by lia. simpl. symmetry. apply lookup_ge_None. lia.
Qed.

Lemma insert_random_perm x sorted signs :
  (insert_random x sorted signs).1 ≡ₚ x :: sorted.
Proof.
  revert signs. induction sorted as [|y sorted IH]; intros signs; [done|].
  destruct signs as [|[] signs]; simpl; [done..|].
  specialize (IH signs). destruct (insert_random x sorted signs) as [rest ?].
  simpl in *. rewrite IH. apply Permutation_swap.
Qed.

Lemma sort_random_perm l signs : (sort_random l signs).1 ≡ₚ l.
Proof.
  revert signs. induction l as [|x l IH]; intros signs; simpl; [done|].
  specialize (IH signs). destruct (sort_random l signs) as [sorted signs'].
  simpl in IH. by rewrite insert_random_perm, IH.
Qed.

(** A comparison sort returns a permutation of its input whatever its
    comparator answers. *)
Lemma insertion_engine_ok : EngineOk insertion_engine.
Proof.
  intros [signs n] l. simpl.
  pose proof (sort_random_perm l signs) as Hperm.
  by destruct (sort_random l signs).
Qed.

(** What a successful call returns: the grid is the first
    [gridSize * gridSize] songs of the shuffled catalog, laid out row by
    row. *)
Lemma generateTicket_ok (E : Engine) catalog gridSize ticketId (g : G) :
  (gridSize * gridSize ≤ length catalog)%nat →
  length (shuffle g catalog).1 = length catalog →
  ∃ ticket cells,
    (generateTicket catalog gridSize ticketId g).1 = Ok ticket
    ∧ grid ticket = Some cells
    ∧ ticket_id ticket = (id_or_uuid ticketId (shuffle g catalog).2).1
    ∧ length cells = gridSize
    ∧ Forall (λ row, length row = gridSize) cells
    ∧ song <$> concat cells = take (gridSize * gridSize) (shuffle g catalog).1
    ∧ Forall (λ cell, marked cell = false) (concat cells).
Proof.
  intros Hlen Hshuffle. unfold generateTicket.
  destruct (Nat.ltb_spec (length catalog) (gridSize * gridSize)); [lia|].
  destruct (shuffle g catalog) as [shuffled g1] eqn:Hs. simpl in *.
  destruct (id_or_uuid ticketId g1) as [tid g2] eqn:Hid. simpl.
  set (selectedSongs := take (gridSize * gridSize) shuffled).
  assert (length selectedSongs = (gridSize * gridSize)%nat) as Hsel.
  { unfold selectedSongs. rewrite length_take. lia. }
  eexists _, _. split; [done|]. split; [done|]. simpl.
  split; [done|].
  split; [by rewrite fill_grid_length|].
  split; [by apply fill_grid_rows|].
  rewrite fill_grid_concat. simpl. rewrite <- Hsel.
  split.
  - rewrite <- list_fmap_compose.
    rewrite <- (read_all selectedSongs) at 3. done.
  - apply Forall_fmap, Forall_forall. done.
Qed.

(** C2.  With a catalog of pairwise distinct song ids, of length at least
    gridSize * gridSize, and gridSize >= 1, [generateTicket] returns a ticket
    whose grid has gridSize rows of gridSize cells each, whose
    gridSize * gridSize song ids are pairwise distinct, and whose cells all
    have [marked = false]. *)
Theorem generateTicket_shape (E : Engine) (HE : EngineOk E)
    catalog gridSize ticketId (g : G) :
  NoDup (id <$> catalog) →
  (gridSize * gridSize ≤ length catalog)%nat →
  (1 ≤ gridSize)%nat →
  ∃ ticket cells,
    (generateTicket catalog gridSize ticketId g).1 = Ok ticket
    ∧ grid ticket = Some cells
    ∧ length cells = gridSize
    ∧ Forall (λ row, length row = gridSize) cells
    ∧ length (concat cells) = (gridSize * gridSize)%nat
    ∧ NoDup ((λ cell, id (song cell)) <$> concat cells)
    ∧ Forall (λ cell, marked cell = false) (concat cells).
Proof.
  intros Hnodup Hlen _.
  pose proof (shuffle_perm g catalog) as Hperm.
  destruct (generateTicket_ok E catalog gridSize ticketId g Hlen)
    as (ticket & cells & Hok & Hgrid & _ & Hrows & Hcols & Hsongs & Hmarked).
  { by rewrite Hperm. }
  exists ticket, cells. repeat split; try done.
  - rewrite <- (length_fmap song), Hsongs, length_take, Hperm. lia.
  - rewrite (list_fmap_compose song id), Hsongs, fmap_take.
    eapply sublist_NoDup; [|apply sublist_take]. by rewrite Hperm.
Qed.

Lemma generateTicket_shape_witness :
  ∃ ticket cells,
    (generateTicket (E := insertion_engine) catalog_5 2 None ([false; true; false; false], 7%nat)).1
    = Ok ticket
    ∧ grid ticket = Some cells
    ∧ length cells = 2%nat
    ∧ Forall (λ row, length row = 2%nat) cells
    ∧ length (concat cells) = (2 * 2)%nat
    ∧ NoDup ((λ cell, id (song cell)) <$> concat cells)
    ∧ Forall (λ cell, marked cell = false) (concat cells).
Proof.
  apply (generateTicket_shape insertion_engine insertion_engine_ok catalog_5 2).
  - apply (bool_decide_unpack _). by vm_compute.
  - simpl. lia.
  - lia.
Defined.

(** ** generateTickets *)

Lemma pretty_N_go_nonempty (x : N) (s : string) :
  s ≠ "" ∨ (0 < x)%N → pretty_N_go x s ≠ "".
Proof.
  revert s. induction (N.lt_wf_0 x) as [x _ IH]; intros s Hs.
  destruct (decide (x = 0%N)) as [->|Hx].
  - rewrite pretty_N_go_0. destruct Hs as [?|?]; [done|lia].
  - rewrite pretty_N_go_step by lia. apply IH; [apply N.div_lt; lia|by left].
Qed.

Lemma pretty_nat_nonempty (n : nat) : pretty n ≠ "".
Proof.
  unfold pretty, pretty_nat, pretty, pretty_N. case_decide; [done|].
  apply pretty_N_go_nonempty. right. lia.
Qed.

Section batch.
Context (E : Engine).

Lemma generateTicket_throws catalog gridSize ticketId (g : G) :
  (length catalog < gridSize * gridSize)%nat →
  generateTicket catalog gridSize ticketId g
  = (Throw (Error (catalog_error (gridSize * gridSize) gridSize)), g).
Proof.
  intros Hshort. unfold generateTicket.
  by destruct (Nat.ltb_spec (length catalog) (gridSize * gridSize)); [|lia].
Qed.

Lemma generateTicket_returns catalog gridSize s (g g' : G) ticket :
  s ≠ "" →
  generateTicket catalog gridSize (Some s) g = (Ok ticket, g') →
  ticket_id ticket = s ∧ is_Some (grid ticket).
Proof.
  intros Hs. unfold generateTicket, id_or_uuid.
  destruct (_ <? _)%nat; [done|].
  destruct (shuffle g catalog) as [shuffled g1].
  destruct (decide (s = "")); [done|].
  intros [= <- _]. simpl. eauto.
Qed.

(** The outcome of the retry loop of one slot. *)
Lemma attempts_loop_spec songsToUse gridSize i todo b :
  match attempts_loop songsToUse gridSize i todo b with
  | Unique b' =>
      (calls b < calls b' ≤ calls b + todo)%nat
      ∧ ∃ ticket cells,
          ticket_id ticket = pretty (i + 1)%nat
          ∧ grid ticket = Some cells
          ∧ (songIdsKey cells ∉ generatedSets b)
          ∧ generatedSets b' = {[songIdsKey cells]} ∪ generatedSets b
          ∧ newTickets b' = <[pretty (i + 1)%nat := ticket]> (newTickets b)
  | Exhausted b' =>
      calls b' = (calls b + todo)%nat
      ∧ newTickets b' = newTickets b ∧ generatedSets b' = generatedSets b
  | Caught e b' =>
      (calls b < calls b' ≤ calls b + todo)%nat
      ∧ newTickets b' = newTickets b ∧ generatedSets b' = generatedSets b
  end.
Proof.
  revert b. induction todo as [|todo IH]; intros b; simpl.
  - split; [lia|done].
  - destruct (generateTicket _ _ _ _) as [[ticket|e] g'] eqn:Hgen; simpl.
    + apply generateTicket_returns in Hgen as [Hid [cells Hcells]];
        [|apply pretty_nat_nonempty].
      rewrite Hcells. case_decide as Hseen.
      * match goal with |- context [attempts_loop _ _ _ _ ?b1] =>
          specialize (IH b1) end.
        destruct (attempts_loop _ _ _ _ _); simpl in IH.
        -- destruct IH as (? & t & c & ? & ? & ? & ? & ?).
           split; [lia|]. by exists t, c.
        -- destruct IH as (? & ? & ?). split; [lia|done].
        -- destruct IH as (? & ? & ?). split; [lia|done].
      * simpl. split; [lia|]. exists ticket, cells. by rewrite Hid.
    + split; [lia|done].
Qed.

Lemma BatchInv_start (g : G) : BatchInv 0 (start g).
Proof.
  split; simpl.
  - intros k. rewrite lookup_empty. split; [by intros []|]. intros (j & ? & _). lia.
  - apply map_size_empty.
  - intros k t. by rewrite lookup_empty.
  - intros k1 k2 t1 t2 c1 c2 _. by rewrite lookup_empty.
Qed.

Lemma BatchInv_same i (b b' : Batch) :
  newTickets b' = newTickets b → generatedSets b' = generatedSets b →
  BatchInv i b → BatchInv i b'.
Proof.
  intros Ht Hs [Hkeys Hsize Hseen Huniq].
  split; rewrite ?Ht, ?Hs; done.
Qed.

(** Storing a ticket whose key is new keeps the stored tickets apart. *)
Lemma BatchInv_store i (b b' : Batch) ticket cells :
  BatchInv i b →
  grid ticket = Some cells →
  songIdsKey cells ∉ generatedSets b →
  generatedSets b' = {[songIdsKey cells]} ∪ generatedSets b →
  newTickets b' = <[pretty (i + 1)%nat := ticket]> (newTickets b) →
  BatchInv (S i) b'.
Proof.
  intros [Hkeys Hsize Hseen Huniq] Hcells Hnew Hs Ht.
  assert (newTickets b !! pretty (i + 1)%nat = None) as Hfresh.
  { apply eq_None_not_Some. rewrite Hkeys. intros (j & Hj & Heq).
    apply (inj pretty) in Heq. lia. }
  split; rewrite ?Ht, ?Hs.
  - intros k. rewrite lookup_insert_is_Some, Hkeys. split.
    + intros [<-|[_ (j & Hj & ->)]]; [exists i|exists j]; split; lia || done.
    + intros (j & Hj & ->). destruct (decide (j = i)) as [->|Hne]; [by left|].
      right. split; [|exists j; split; [lia|done]].
      intros Heq. apply (inj pretty) in Heq. lia.
  - by rewrite map_size_insert_None, Hsize.
  - intros k t. rewrite lookup_insert_Some.
    intros [[_ <-]|[_ Hk]].
    + exists cells. split; [done|]. apply elem_of_union_l. by apply elem_of_singleton.
    + destruct (Hseen k t Hk) as (c & ? & ?). exists c. split; [done|].
      by apply elem_of_union_r.
  - intros k1 k2 t1 t2 c1 c2 Hne. rewrite !lookup_insert_Some.
    intros [[Hk1 <-]|[_ H1]] [[Hk2 <-]|[_ H2]] Hc1 Hc2.
    + congruence.
    + destruct (Hseen k2 t2 H2) as (c & Hc & Hin).
      assert (c = c2) as -> by congruence.
      assert (c1 = cells) as -> by congruence. congruence.
    + destruct (Hseen k1 t1 H1) as (c & Hc & Hin).
      assert (c = c1) as -> by congruence.
      assert (c2 = cells) as -> by congruence. congruence.
    + by apply (Huniq k1 k2 t1 t2).
Qed.

(** The outcome of the loop over the slots. *)
Lemma slots_loop_spec songsToUse gridSize todo i b :
  BatchInv i b →
  match slots_loop songsToUse gridSize todo i b with
  | Completed b' =>
      BatchInv (i + todo) b' ∧ (calls b' ≤ calls b + todo * maxAttempts)%nat
  | StoppedEarly b' =>
      ∃ j, (i ≤ j < i + todo)%nat ∧ BatchInv j b'
           ∧ (calls b' ≤ calls b + todo * maxAttempts)%nat
  | Aborted e b' =>
      ∃ j, (i ≤ j < i + todo)%nat ∧ BatchInv j b'
           ∧ (calls b' ≤ calls b + todo * maxAttempts)%nat
  end.
Proof.
  revert i b. induction todo as [|todo IH]; intros i b Hinv.
  - simpl. rewrite Nat.add_0_r. split; [done|lia].
  - cbn [slots_loop].
    pose proof (attempts_loop_spec songsToUse gridSize i maxAttempts b) as Hslot.
    destruct (attempts_loop _ _ _ _ _) as [b'|b'|e b'].
    + destruct Hslot as (Hcalls & ticket & cells & _ & Hcells & Hnew & Hs & Ht).
      pose proof (BatchInv_store i b b' ticket cells Hinv Hcells Hnew Hs Ht)
        as Hinv'.
      specialize (IH (S i) b' Hinv').
      destruct (slots_loop _ _ _ _ _) as [b''|b''|e b''].
      * destruct IH as [? ?]. split; [|lia].
        by replace (i + S todo)%nat with (S i + todo)%nat by lia.
      * destruct IH as (j & ? & ? & ?). exists j. split; [lia|]. split; [done|lia].
      * destruct IH as (j & ? & ? & ?). exists j. split; [lia|]. split; [done|lia].
    + destruct Hslot as (Hcalls & Ht & Hs).
      exists i. split; [lia|]. split; [by eapply BatchInv_same|lia].
    + destruct Hslot as (Hcalls & Ht & Hs).
      exists i. split; [lia|]. split; [by eapply BatchInv_same|lia].
Qed.

End batch.

Lemma songIdsKey_sorted_ids cells :
  songIdsKey cells = String.concat "," (sorted_ids cells).
Proof. done. Qed.

(** A call either stores nothing and alerts once, or stores one ticket for
    each of the first [j] slots. *)
Lemma generateTickets_cases (E : Engine) st count (g : G) :
  let run := generateTickets st count g in
  (stored run = None ∧ length (alerts run) = 1%nat
   ∧ (attempted run ≤ count * maxAttempts)%nat)
  ∨ (∃ j b, BatchInv j b
       ∧ stored run = Some (newTickets b, songsToUse st)
       ∧ (attempted run ≤ count * maxAttempts)%nat
       ∧ ((j = count ∧ alerts run = [])
          ∨ ((j < count)%nat ∧ alerts run = [exhausted_message j]))).
Proof.
  intros run. subst run. unfold generateTickets.
  destruct (_ =? _)%nat; [left; simpl; split_and!; [done..|lia]|].
  destruct (_ && _); [left; simpl; split_and!; [done..|lia]|].
  pose proof (slots_loop_spec E (songsToUse st) (gridSize st) count 0
                (start g) (BatchInv_start E g)) as Hloop.
  fold (start g).
  destruct (slots_loop _ _ _ _ _) as [b|b|e b]; simpl in *.
  - destruct Hloop as [Hinv Hcalls]. right. exists count, b.
    split_and!; [done..|by left].
  - destruct Hloop as (j & Hj & Hinv & Hcalls). right. exists j, b.
    split_and!; [done..|]. right. split; [lia|]. by rewrite (inv_size _ _ Hinv).
  - destruct Hloop as (j & Hj & Hinv & Hcalls). left. by split_and!.
Qed.

(** C1.  In one call of [generateTickets], any two distinct tickets that
    it stores differ in the sorted sequence of their grid-cell song ids. *)
Theorem generateTickets_distinct_sets (E : Engine) st count (g : G)
    tickets catalog k1 k2 t1 t2 :
  stored (generateTickets st count g) = Some (tickets, catalog) →
  k1 ≠ k2 → tickets !! k1 = Some t1 → tickets !! k2 = Some t2 →
  ∃ c1 c2, grid t1 = Some c1 ∧ grid t2 = Some c2
           ∧ sorted_ids c1 ≠ sorted_ids c2.
Proof.
  intros Hstored Hne H1 H2.
  destruct (generateTickets_cases E st count g)
    as [(Hnone & _)|(j & b & Hinv & Hsome & _)]; [congruence|].
  rewrite Hsome in Hstored. injection Hstored as <- <-.
  destruct (inv_seen _ _ Hinv k1 t1 H1) as (c1 & Hc1 & _).
  destruct (inv_seen _ _ Hinv k2 t2 H2) as (c2 & Hc2 & _).
  exists c1, c2. split_and!; [done..|].
  intros Heq. apply (inv_unique _ _ Hinv k1 k2 t1 t2 c1 c2); try done.
  by rewrite !songIdsKey_sorted_ids, Heq.
Qed.

(** The tickets a call stores are numbered "1", "2", ... without a gap. *)
Lemma generateTickets_numbering (E : Engine) st count (g : G) tickets catalog :
  stored (generateTickets st count g) = Some (tickets, catalog) →
  (size tickets ≤ count)%nat
  ∧ ∀ k, is_Some (tickets !! k)
         ↔ ∃ j, (j < size tickets)%nat ∧ k = pretty (j + 1)%nat.
Proof.
  intros Hstored.
  destruct (generateTickets_cases E st count g)
    as [(Hnone & _)|(j & b & Hinv & Hsome & _ & Hj)]; [congruence|].
  rewrite Hsome in Hstored. injection Hstored as <- <-.
  rewrite (inv_size _ _ Hinv). split; [lia|]. apply (inv_keys _ _ Hinv).
Qed.

(** A slot is exhausted only by tickets whose keys were recorded before. *)
Lemma attempts_loop_exhausted (E : Engine) songsToUse gridSize i todo b b' :
  attempts_loop songsToUse gridSize i (S todo) b = Exhausted b' →
  generatedSets b ≠ ∅.
Proof.
  revert b. induction todo as [|todo IH]; intros b.
  - cbn [attempts_loop].
    destruct (generateTicket _ _ _ _) as [[ticket|e] g']; [|done].
    destruct (grid ticket) as [cells|]; [|done].
    case_decide as Hseen; [|done]. intros _ Hempty. simpl in Hseen.
    rewrite Hempty in Hseen. by apply not_elem_of_empty in Hseen.
  - intros Hex. revert Hex.
    change (attempts_loop songsToUse gridSize i (S (S todo)) b)
      with (let ticketId := pretty (i + 1)%nat in
            let '(r, g) := generateTicket songsToUse gridSize (Some ticketId) (gen b) in
            let b0 := {| newTickets := newTickets b; generatedSets := generatedSets b;
                         gen := g; calls := S (calls b) |} in
            match r with
            | Throw e => Caught e b0
            | Ok ticket =>
                match grid ticket with
                | None => Caught TypeError b0
                | Some cells =>
                    if decide (songIdsKey cells ∈ generatedSets b0)
                    then attempts_loop songsToUse gridSize i (S todo) b0
                    else Unique {| newTickets := <[ticket_id ticket := ticket]> (newTickets b0);
                                   generatedSets := {[songIdsKey cells]} ∪ generatedSets b0;
                                   gen := gen b0; calls := calls b0 |}
                end
            end).
    cbv zeta. destruct (generateTicket _ _ _ _) as [[ticket|e] g']; [|done].
    destruct (grid ticket) as [cells|]; [|done].
    case_decide; [|done]. intros Hex. by apply IH in Hex.
Qed.

(** A stored ticket stays stored, under its number, to the end of the loop
    over the slots. *)
Lemma slots_loop_grows (E : Engine) songsToUse gridSize todo i b :
  BatchInv i b →
  match slots_loop songsToUse gridSize todo i b with
  | Completed b' | StoppedEarly b' | Aborted _ b' => newTickets b ⊆ newTickets b'
  end.
Proof.
  revert i b. induction todo as [|todo IH]; intros i b Hinv; [simpl; reflexivity|].
  cbn [slots_loop].
  pose proof (attempts_loop_spec E songsToUse gridSize i maxAttempts b) as Hslot.
  destruct (attempts_loop _ _ _ _ _) as [b1|b1|e b1].
  - destruct Hslot as (_ & ticket & cells & _ & Hcells & Hnew & Hs & Ht).
    pose proof (BatchInv_store E i b b1 ticket cells Hinv Hcells Hnew Hs Ht) as Hinv1.
    specialize (IH (S i) b1 Hinv1).
    assert (newTickets b ⊆ newTickets b1) as Hsub.
    { rewrite Ht. apply insert_subseteq. apply eq_None_not_Some.
      rewrite (inv_keys _ _ Hinv). intros (j & Hj & Heq).
      apply (inj pretty) in Heq. lia. }
    destruct (slots_loop _ _ _ _ _); by etrans.
  - destruct Hslot as (_ & -> & _). done.
  - destruct Hslot as (_ & -> & _). done.
Qed.

(** When the loop stops at an exhausted slot, one ticket has been stored
    for each of the earlier slots, of which there is at least one; each
    cost an attempt and the exhausted slot 200. *)
Lemma slots_loop_stopped (E : Engine) songsToUse gridSize todo i b b' :
  BatchInv i b → (newTickets b = ∅ → generatedSets b = ∅) →
  slots_loop songsToUse gridSize todo i b = StoppedEarly b' →
  ∃ j, (i ≤ j < i + todo)%nat ∧ BatchInv j b' ∧ (1 ≤ j)%nat
       ∧ (calls b + (j - i) + maxAttempts ≤ calls b')%nat.
Proof.
  revert i b. induction todo as [|todo IH]; intros i b Hinv Hnone; [done|].
  cbn [slots_loop].
  pose proof (attempts_loop_spec E songsToUse gridSize i maxAttempts b) as Hslot.
  destruct (attempts_loop _ _ _ _ _) as [b1|b1|e b1] eqn:Hattempts; [| |done].
  - destruct Hslot as (Hcalls & ticket & cells & _ & Hcells & Hnew & Hs & Ht).
    pose proof (BatchInv_store E i b b1 ticket cells Hinv Hcells Hnew Hs Ht) as Hinv1.
    intros Hloop. destruct (IH (S i) b1 Hinv1) with (2 := Hloop)
      as (j & Hj & Hinvj & Hone & Hcallsj).
    { rewrite Ht. intros Hempty. by apply insert_non_empty in Hempty. }
    exists j. split; [lia|]. split; [exact Hinvj|]. split; [exact Hone|]. lia.
  - intros [= <-]. destruct Hslot as (Hcalls & Ht & Hs).
    exists i. split; [lia|]. split; [by eapply BatchInv_same|].
    split; [|lia].
    apply attempts_loop_exhausted in Hattempts.
    destruct (decide (i = 0%nat)) as [->|]; [|lia].
    destruct Hattempts. apply Hnone. apply map_size_empty_inv.
    apply (inv_size _ _ Hinv).
Qed.

(** C6.  A call makes at most 200 attempts in a slot, hence at most
    count * 200 in all.  A slot that uses up its 200 attempts stores nothing
    and stops the loop over the slots; a slot that finds a new ticket
    stores it under its number beside the tickets stored before, and no
    later slot removes a stored ticket.  A call that stops at an exhausted
    slot passes the tickets of the earlier slots to [setTickets]: at least
    one ticket and fewer than requested, numbered "1", "2", ... without a
    gap, and it reports their number. *)
Theorem generateTickets_retry_bound (E : Engine) st count (g : G) :
  let run := generateTickets st count g in
  let safeMax := calculateSafeMax (Z.of_nat (length (songsToUse st)))
                   (Z.of_nat (gridSize st)) in
  (attempted run ≤ count * 200)%nat
  ∧ (∀ i b,
       match attempts_loop (songsToUse st) (gridSize st) i maxAttempts b with
       | Unique b' | Exhausted b' | Caught _ b' =>
           (calls b' ≤ calls b + 200)%nat
       end)
  ∧ (∀ todo i b b',
       attempts_loop (songsToUse st) (gridSize st) i maxAttempts b = Exhausted b' →
       calls b' = (calls b + 200)%nat
       ∧ newTickets b' = newTickets b
       ∧ slots_loop (songsToUse st) (gridSize st) (S todo) i b = StoppedEarly b')
  ∧ (∀ todo i b b',
       attempts_loop (songsToUse st) (gridSize st) i maxAttempts b = Unique b' →
       (∃ ticket, ticket_id ticket = pretty (i + 1)%nat
                  ∧ newTickets b' = <[pretty (i + 1)%nat := ticket]> (newTickets b))
       ∧ slots_loop (songsToUse st) (gridSize st) (S todo) i b
         = slots_loop (songsToUse st) (gridSize st) todo (S i) b')
  ∧ (∀ todo i b,
       BatchInv i b →
       match slots_loop (songsToUse st) (gridSize st) todo i b with
       | Completed b' | StoppedEarly b' | Aborted _ b' =>
           newTickets b ⊆ newTickets b'
       end)
  ∧ (∀ b,
       songsToUse st ≠ [] → ¬ (safeMax < Z.of_nat count ∧ 0 < safeMax) →
       slots_loop (songsToUse st) (gridSize st) count 0 (start g) = StoppedEarly b →
       stored run = Some (newTickets b, songsToUse st)
       ∧ alerts run = [exhausted_message (size (newTickets b))]
       ∧ (1 ≤ size (newTickets b) < count)%nat
       ∧ (∀ k, is_Some (newTickets b !! k)
               ↔ ∃ j, (j < size (newTickets b))%nat ∧ k = pretty (j + 1)%nat)
       ∧ (size (newTickets b) + 200 ≤ attempted run)%nat).
Proof.
  intros run safeMax. subst run safeMax. split_and!.
  - destruct (generateTickets_cases E st count g)
      as [(_ & _ & Hcalls)|(j & b & _ & _ & Hcalls & _)]; done.
  - intros i b.
    pose proof (attempts_loop_spec E (songsToUse st) (gridSize st) i maxAttempts b)
      as Hslot.
    destruct (attempts_loop _ _ _ _ _); unfold maxAttempts in Hslot; lia.
  - intros todo i b b' Hex.
    pose proof (attempts_loop_spec E (songsToUse st) (gridSize st) i maxAttempts b)
      as Hslot.
    rewrite Hex in Hslot. destruct Hslot as (Hcalls & Ht & _).
    split_and!; [done..|]. cbn [slots_loop]. by rewrite Hex.
  - intros todo i b b' Hunique.
    pose proof (attempts_loop_spec E (songsToUse st) (gridSize st) i maxAttempts b)
      as Hslot.
    rewrite Hunique in Hslot. destruct Hslot as (_ & ticket & cells & Hid & _ & _ & _ & Ht).
    split; [by exists ticket|]. cbn [slots_loop]. by rewrite Hunique.
  - intros todo i b Hinv. by apply slots_loop_grows.
  - intros b Hsongs Hguard Hloop.
    destruct (slots_loop_stopped E (songsToUse st) (gridSize st) count 0
                (start g) b (BatchInv_start E g)) as (j & Hj & Hinv & Hone & Hcalls);
      [done|done|].
    unfold generateTickets. fold (start g).
    destruct (Nat.eqb_spec (length (songsToUse st)) 0) as [Hlen|_].
    { by destruct (songsToUse st). }
    destruct (Z.ltb_spec (calculateSafeMax (Z.of_nat (length (songsToUse st)))
                            (Z.of_nat (gridSize st))) (Z.of_nat count)),
      (Z.ltb_spec 0 (calculateSafeMax (Z.of_nat (length (songsToUse st)))
                            (Z.of_nat (gridSize st)))); simpl;
      try (exfalso; apply Hguard; split; done);
      rewrite Hloop; simpl; rewrite (inv_size _ _ Hinv);
      (split_and!; [done|done|lia|lia|apply (inv_keys _ _ Hinv)
                   |unfold maxAttempts in Hcalls; simpl in Hcalls; lia]).
Qed.

Lemma generateTickets_retry_bound_witness :
  let run := generateTickets (E := insertion_engine) state_2 2 ([], 0%nat) in
  (attempted run ≤ 2 * 200)%nat
  ∧ ∃ b : Batch (E := insertion_engine),
         stored run = Some (newTickets b, songsToUse state_2)
         ∧ alerts run = [exhausted_message (size (newTickets b))]
         ∧ (1 ≤ size (newTickets b) < 2)%nat
         ∧ (∀ k, is_Some (newTickets b !! k)
                 ↔ ∃ j, (j < size (newTickets b))%nat ∧ k = pretty (j + 1)%nat)
         ∧ (size (newTickets b) + 200 ≤ attempted run)%nat.
Proof.
  destruct (generateTickets_retry_bound insertion_engine state_2 2 ([], 0%nat))
    as (Hbound & _ & _ & _ & _ & Hstop).
  split; [exact Hbound|].
  eexists. apply Hstop.
  - discriminate.
  - intros [Hlt _]. vm_compute in Hlt. discriminate.
  - vm_compute. reflexivity.
Defined.

Lemma generateTickets_distinct_sets_witness :
  ∃ c1 c2, grid {| ticket_id := "1"; grid := Some [[mk_cell "a"]] |} = Some c1
           ∧ grid {| ticket_id := "2"; grid := Some [[mk_cell "b"]] |} = Some c2
           ∧ sorted_ids c1 ≠ sorted_ids c2.
Proof.
  eapply (generateTickets_distinct_sets insertion_engine state_2 2
            ([true; false], 0%nat) _ _ "1" "2").
  - vm_compute. reflexivity.
  - discriminate.
  - vm_compute. reflexivity.
  - vm_compute. reflexivity.
Defined.

(** ** The precondition failure *)

Lemma append_assoc (s1 s2 s3 : string) : (s1 +:+ s2) +:+ s3 = s1 +:+ s2 +:+ s3.
Proof.
  induction s1 as [|a s1 IH]; [done|].
  change (String a ((s1 +:+ s2) +:+ s3) = String a (s1 +:+ s2 +:+ s3)).
  by rewrite IH.
Qed.

Lemma chars_append (s1 s2 : string) :
  String.list_ascii_of_string (s1 +:+ s2)
  = String.list_ascii_of_string s1 ++ String.list_ascii_of_string s2.
Proof.
  induction s1 as [|a s1 IH]; [done|].
  change (a :: String.list_ascii_of_string (s1 +:+ s2)
          = a :: (String.list_ascii_of_string s1 ++ String.list_ascii_of_string s2)).
  by rewrite IH.
Qed.

(** A message that names a one-character text contains that character. *)
Lemma names_char (message : string) (a : Ascii.ascii) :
  names message (String a "") → a ∈ String.list_ascii_of_string message.
Proof.
  intros (before & after & ->). rewrite !chars_append. simpl.
  apply elem_of_app. right. apply list_elem_of_here.
Qed.

Lemma catalog_error_names (requiredSongs gridSize : nat) :
  names (catalog_error requiredSongs gridSize) (pretty gridSize)
  ∧ names (catalog_error requiredSongs gridSize) (pretty requiredSongs).
Proof.
  unfold catalog_error. split.
  - exists ("Catalog must have at least " +:+ pretty requiredSongs
            +:+ " songs to generate a "),
      ("x" +:+ pretty gridSize +:+ " ticket.").
    by rewrite !append_assoc.
  - by exists "Catalog must have at least ",
      (" songs to generate a " +:+ pretty gridSize +:+ "x" +:+ pretty gridSize
       +:+ " ticket.").
Qed.

Lemma calculateSafeMax_short (available gridSize : nat) :
  (available < gridSize * gridSize)%nat →
  calculateSafeMax (Z.of_nat available) (Z.of_nat gridSize) = 0.
Proof.
  intros Hshort. unfold calculateSafeMax.
  destruct (Z.ltb_spec (Z.of_nat available) (Z.of_nat gridSize * Z.of_nat gridSize));
    [done|]. rewrite <- Nat2Z.inj_mul in *. lia.
Qed.

(** An attempt on a catalog that is too short ends the slot at once. *)
Lemma attempts_loop_throws (E : Engine) songsToUse gridSize i todo b :
  (length songsToUse < gridSize * gridSize)%nat →
  attempts_loop songsToUse gridSize i (S todo) b
  = Caught (Error (catalog_error (gridSize * gridSize) gridSize))
      {| newTickets := newTickets b; generatedSets := generatedSets b;
         gen := gen b; calls := S (calls b) |}.
Proof.
  intros Hshort. cbn [attempts_loop]. by rewrite generateTicket_throws.
Qed.

(** C5, as the code has it.  When at least one ticket is requested and the
    catalog is shorter than gridSize * gridSize, the call stores no ticket
    and alerts once.  For an empty catalog the alert is the no-songs text
    and [generateTicket] is not called; otherwise the first call of
    [generateTicket] throws and the alert is its message, which names the
    grid size and the number of songs a ticket requires.  The message is
    the same text for every short catalog with songs and that grid size:
    it is made from the grid size alone and does not report the size of
    the catalog. *)
Theorem generateTickets_short_catalog (E : Engine) st count (g : G) :
  (1 ≤ count)%nat →
  (length (songsToUse st) < gridSize st * gridSize st)%nat →
  let run := generateTickets st count g in
  let message := catalog_error (gridSize st * gridSize st) (gridSize st) in
  stored run = None
  ∧ (songsToUse st = [] → alerts run = [no_songs_message] ∧ attempted run = 0%nat)
  ∧ (songsToUse st ≠ [] →
       alerts run = [message] ∧ attempted run = 1%nat
       ∧ names message (pretty (gridSize st))
       ∧ names message (pretty (gridSize st * gridSize st)%nat))
  ∧ (∀ st' count' (g' : G),
       gridSize st' = gridSize st → (1 ≤ count')%nat → songsToUse st' ≠ [] →
       (length (songsToUse st') < gridSize st' * gridSize st')%nat →
       alerts (generateTickets st' count' g') = [message]).
Proof.
  assert (∀ st0 count0 (g0 : G),
            (1 ≤ count0)%nat → songsToUse st0 ≠ [] →
            (length (songsToUse st0) < gridSize st0 * gridSize st0)%nat →
            let run0 := generateTickets st0 count0 g0 in
            stored run0 = None
            ∧ alerts run0 = [catalog_error (gridSize st0 * gridSize st0) (gridSize st0)]
            ∧ attempted run0 = 1%nat) as Hthrows.
  { intros st0 count0 g0 Hcount0 Hsongs0 Hshort0 run0. subst run0.
    unfold generateTickets.
    destruct (Nat.eqb_spec (length (songsToUse st0)) 0) as [Hlen|Hlen].
    { by destruct (songsToUse st0). }
    rewrite calculateSafeMax_short by done.
    rewrite andb_false_r.
    destruct count0 as [|count0]; [lia|].
    cbn [slots_loop]. by rewrite (attempts_loop_throws E _ _ _ 199) by done. }
  intros Hcount Hshort run message. subst run message.
  split_and!.
  - destruct (decide (songsToUse st = [])) as [Hnil|Hne].
    + unfold generateTickets. by rewrite Hnil.
    + by destruct (Hthrows st count g Hcount Hne Hshort) as (? & _).
  - intros Hnil. unfold generateTickets. by rewrite Hnil.
  - intros Hne. destruct (Hthrows st count g Hcount Hne Hshort) as (_ & ? & ?).
    pose proof (catalog_error_names
      (gridSize st * gridSize st) (gridSize st)) as [? ?]. done.
  - intros st' count' g' Hgrid Hcount' Hne' Hshort'.
    destruct (Hthrows st' count' g' Hcount' Hne' Hshort') as (_ & Halert & _).
    by rewrite <- Hgrid.
Qed.

Lemma generateTickets_short_catalog_witness :
  let run := generateTickets (E := insertion_engine) state_3 2 ([], 0%nat) in
  let message := catalog_error (2 * 2) 2 in
  stored run = None
  ∧ (songsToUse state_3 = [] →
       alerts run = [no_songs_message] ∧ attempted run = 0%nat)
  ∧ (songsToUse state_3 ≠ [] →
       alerts run = [message] ∧ attempted run = 1%nat
       ∧ names message (pretty 2%nat) ∧ names message (pretty (2 * 2)%nat))
  ∧ (∀ st' count' (g' : G (Engine := insertion_engine)),
       gridSize st' = gridSize state_3 → (1 ≤ count')%nat → songsToUse st' ≠ [] →
       (length (songsToUse st') < gridSize st' * gridSize st')%nat →
       alerts (generateTickets st' count' g') = [message]).
Proof.
  apply (generateTickets_short_catalog insertion_engine state_3 2 ([], 0%nat));
    vm_compute; lia.
Defined.

(** C5 fails as stated: with three songs and a 2x2 grid the alert is
    "Catalog must have at least 4 songs to generate a 2x2 ticket.", which
    does not name the catalog size 3. *)
Lemma generateTickets_error_omits_catalog_size :
  let run := generateTickets (E := insertion_engine) state_3 2 ([], 0%nat) in
  (length (songsToUse state_3) < gridSize state_3 * gridSize state_3)%nat
  ∧ stored run = None
  ∧ alerts run = ["Catalog must have at least 4 songs to generate a 2x2 ticket."]
  ∧ ¬ ∃ message, message ∈ alerts run
                 ∧ names message (pretty (length (songsToUse state_3))).
Proof.
  intros run. subst run. split_and!; [vm_compute; lia|by vm_compute|by vm_compute|].
  intros (message & Hin & Hnames).
  assert (alerts (generateTickets (E := insertion_engine) state_3 2 ([], 0%nat))
          = ["Catalog must have at least 4 songs to generate a 2x2 ticket."])
    as Halerts by (by vm_compute).
  rewrite Halerts in Hin.
  apply list_elem_of_singleton in Hin as ->.
  apply names_char in Hnames. revert Hnames.
  apply (bool_decide_unpack _). by vm_compute.
Qed.

(** With no ticket requested the loop is not entered, so a short catalog
    goes unnoticed: the call stores an empty collection and alerts nothing. *)
Example generateTickets_zero_count :
  let run := generateTickets (E := insertion_engine) state_3 0 ([], 0%nat) in
  alerts run = [] ∧ stored run = Some (∅, songsToUse state_3).
Proof. by vm_compute. Qed.

(** * Further properties *)

(** ** The bound calculator *)

Lemma binomial_positive n k : (k ≤ n)%nat → 1 ≤ binomial n k.
Proof.
  revert k. induction n as [|n IH]; intros [|k] Hk; try (simpl; lia).
  rewrite binomial_S_S. pose proof (IH k ltac:(lia)).
  pose proof (binomial_nonneg n (S k)). lia.
Qed.

Lemma binomial_succ_le n k : binomial n k ≤ binomial (S n) k.
Proof.
  destruct k as [|k]; [by rewrite !binomial_0_r|].
  rewrite binomial_S_S. pose proof (binomial_nonneg n k). lia.
Qed.

(** X1.  The calculator is symmetric on its domain: for [0 <= r <= n],
    [combinations n r = combinations n (n - r)]. *)
Theorem combinations_symmetric (n r : Z) :
  0 ≤ r ≤ n → combinations n r = combinations n (n - r).
Proof.
  intros Hr. rewrite !combinations_exact by lia. unfold choose.
  rewrite Z2Nat.inj_sub by lia. by rewrite binomial_sym by lia.
Qed.

Lemma combinations_symmetric_witness : combinations 30 4 = combinations 30 (30 - 4).
Proof. apply (combinations_symmetric 30 4). lia. Defined.

Lemma calculateSafeMax_zero_iff_aux (catalogSize gridSize : Z) :
  gridSize * gridSize ≤ catalogSize →
  1 ≤ combinations catalogSize (gridSize * gridSize) ≤ 1000000.
Proof.
  intros Hge. rewrite combinations_exact by nia. unfold choose, CAP.
  pose proof (binomial_positive (Z.to_nat catalogSize)
                (Z.to_nat (gridSize * gridSize)) ltac:(nia)). lia.
Qed.

(** On the range checked, the function on doubles returns the integers of
    [calculateSafeMax]. *)
Lemma calculateSafeMax_double_agrees (catalogSize gridSize : Z) :
  -5 ≤ catalogSize ≤ 60 → -8 ≤ gridSize ≤ 8 →
  Doubles.integer
    (Doubles.calculateSafeMax (Doubles.number catalogSize) (Doubles.number gridSize))
  = Some (calculateSafeMax catalogSize gridSize).
Proof.
  intros Hn Hg.
  assert (Forall (λ n, Forall (λ g,
            Doubles.integer
              (Doubles.calculateSafeMax (Doubles.number n) (Doubles.number g))
            = Some (calculateSafeMax n g)) (seqZ (-8) 17)) (seqZ (-5) 66)) as Hall.
  { apply (bool_decide_unpack _). by vm_compute. }
  rewrite Forall_forall in Hall.
  specialize (Hall catalogSize ltac:(apply elem_of_seqZ; lia)).
  rewrite Forall_forall in Hall. apply Hall, elem_of_seqZ. lia.
Qed.

(** Beyond 2^53 the square of the source is rounded: 94906267 * 94906267
    is odd and rounds to 9007199515875288, so a catalog of that size is
    not below it and the function on doubles answers 1, where the exact
    product gives 0. *)
Example calculateSafeMax_rounded_square :
  2 ^ 53 < 94906267 * 94906267
  ∧ 9007199515875288 < 94906267 * 94906267
  ∧ calculateSafeMax 9007199515875288 94906267 = 0
  ∧ Doubles.integer
      (Doubles.calculateSafeMax (Doubles.number 9007199515875288)
         (Doubles.number 94906267))
    = Some 1.
Proof. split_and!; [lia|lia|by vm_compute|by vm_compute]. Qed.

(** X2.  For integers whose square gridSize * gridSize is at most 2^53
    (where the product of the source is exact), [calculateSafeMax] answers
    0 exactly when the catalog is smaller than gridSize * gridSize;
    otherwise the answer is between 1 and 1,000,000. *)
Theorem calculateSafeMax_zero_iff (catalogSize gridSize : Z) :
  gridSize * gridSize ≤ 2 ^ 53 →
  (calculateSafeMax catalogSize gridSize = 0 ↔ catalogSize < gridSize * gridSize)
  ∧ (gridSize * gridSize ≤ catalogSize →
     1 ≤ calculateSafeMax catalogSize gridSize ≤ 1000000).
Proof.
  intros _. unfold calculateSafeMax.
  destruct (Z.ltb_spec catalogSize (gridSize * gridSize)) as [Hlt|Hge].
  - split; [done|lia].
  - pose proof (calculateSafeMax_zero_iff_aux catalogSize gridSize Hge).
    split; [lia|done].
Qed.

Lemma calculateSafeMax_zero_iff_witness :
  (calculateSafeMax 25 5 = 0 ↔ 25 < 5 * 5)
  ∧ (5 * 5 ≤ 25 → 1 ≤ calculateSafeMax 25 5 ≤ 1000000).
Proof. apply (calculateSafeMax_zero_iff 25 5). lia. Defined.

(** X3.  A larger catalog never lowers the bound:
    [calculateSafeMax n g <= calculateSafeMax (n + 1) g]. *)
Theorem calculateSafeMax_monotone (catalogSize gridSize : Z) :
  calculateSafeMax catalogSize gridSize
  ≤ calculateSafeMax (catalogSize + 1) gridSize.
Proof.
  unfold calculateSafeMax.
  destruct (Z.ltb_spec catalogSize (gridSize * gridSize)) as [Hlt|Hge].
  - destruct (Z.ltb_spec (catalogSize + 1) (gridSize * gridSize)); [lia|].
    pose proof (calculateSafeMax_zero_iff_aux (catalogSize + 1) gridSize). lia.
  - destruct (Z.ltb_spec (catalogSize + 1) (gridSize * gridSize)); [lia|].
    rewrite !combinations_exact by nia. unfold choose.
    replace (Z.to_nat (catalogSize + 1)) with (S (Z.to_nat catalogSize)) by nia.
    pose proof (binomial_succ_le (Z.to_nat catalogSize)
                  (Z.to_nat (gridSize * gridSize))). lia.
Qed.

(** ** The win evaluator *)

Lemma four_corners_spec playedSongIds grid :
  rectangular grid →
  four_corners playedSongIds grid (length grid) (width grid)
  = Ok (bool_decide ((2 ≤ length grid)%nat ∧ (2 ≤ width grid)%nat
                     ∧ all_played playedSongIds (corner_cells grid))).
Proof.
  intros Hrect. unfold four_corners.
  destruct (Nat.leb_spec 2 (length grid)), (Nat.leb_spec 2 (width grid)); simpl;
    try (by rewrite bool_decide_false by lia).
  destruct (cell_of_in_range grid 0 0 Hrect) as [c1 H1]; [lia..|].
  destruct (cell_of_in_range grid 0 (width grid - 1) Hrect) as [c2 H2]; [lia..|].
  destruct (cell_of_in_range grid (length grid - 1) 0 Hrect) as [c3 H3]; [lia..|].
  destruct (cell_of_in_range grid (length grid - 1) (width grid - 1) Hrect)
    as [c4 H4]; [lia..|].
  rewrite (cell_at_cell_of _ _ _ _ H1), (cell_at_cell_of _ _ _ _ H2),
    (cell_at_cell_of _ _ _ _ H3), (cell_at_cell_of _ _ _ _ H4).
  simpl. f_equal.
  assert (corner_cells grid = [c1; c2; c3; c4]) as ->.
  { unfold corner_cells. simpl. by rewrite H1, H2, H3, H4. }
  apply eq_true_iff_eq.
  rewrite !andb_true_iff, !played_has_spec, bool_decide_eq_true.
  unfold all_played. rewrite !Forall_cons, Forall_nil. intuition.
Qed.

(** The list that [checkWins] returns on a rectangular grid with at least
    one row. *)
Lemma checkWins_rectangular_explicit ticket cells playedSongIds :
  grid ticket = Some cells → cells ≠ [] → rectangular cells →
  checkWins ticket playedSongIds
  = Ok ((if (1 <=? total_lines playedSongIds cells)%nat then [LINE_1] else [])
        ++ (if (2 <=? total_lines playedSongIds cells)%nat then [LINES_2] else [])
        ++ (if bool_decide ((2 ≤ length cells)%nat ∧ (2 ≤ width cells)%nat
                            ∧ all_played playedSongIds (corner_cells cells))
            then [FOUR_CORNERS] else [])
        ++ (if bool_decide (Forall (all_played playedSongIds) cells)
            then [FULL_HOUSE] else [])).
Proof.
  intros Hgrid Hne Hrect. unfold checkWins. rewrite Hgrid.
  destruct cells as [|row0 rest] eqn:Hg; [done|]. rewrite <- Hg in *.
  assert (length row0 = width cells) as -> by (by rewrite Hg).
  rewrite count_columns_spec by (done || lia). simpl.
  rewrite count_diagonals_spec by done. simpl.
  rewrite four_corners_spec by done. simpl.
  rewrite count_rows_spec. simpl.
  fold (complete_rows playedSongIds cells).
  fold (complete_columns playedSongIds cells).
  fold (total_lines playedSongIds cells).
  do 4 f_equal.
  assert (forallb (forallb (played_has playedSongIds)) cells
          = bool_decide (Forall (all_played playedSongIds) cells)) as ->; [|done].
  apply every_Forall. intros row.
  by rewrite every_all_played, bool_decide_eq_true.
Qed.

Lemma Ok_inj {A} (x y : A) : Ok x = Ok y → x = y.
Proof. by intros [= ->]. Qed.

Lemma FOUR_CORNERS_in_wins (b1 b2 b3 b4 : bool) :
  FOUR_CORNERS ∈ (if b1 then [LINE_1] else []) ++ (if b2 then [LINES_2] else [])
      ++ (if b3 then [FOUR_CORNERS] else []) ++ (if b4 then [FULL_HOUSE] else [])
  ↔ b3 = true.
Proof. rewrite elem_of_wins. intuition discriminate. Qed.

Lemma elem_of_concat {A} (x : A) (ls : list (list A)) :
  x ∈ concat ls ↔ ∃ l, l ∈ ls ∧ x ∈ l.
Proof.
  induction ls as [|l ls IH]; simpl.
  - rewrite elem_of_nil. split; [done|]. intros (l & Hl & _). by apply elem_of_nil in Hl.
  - rewrite elem_of_app, IH. split.
    + intros [Hx|(l' & Hl' & Hx)]; [exists l|exists l']; split; try done.
      * apply list_elem_of_here.
      * by apply list_elem_of_further.
    + intros (l' & Hl' & Hx). apply elem_of_cons in Hl' as [->|Hl']; [by left|].
      right. by exists l'.
Qed.

Lemma Forall_concat {A} (P : A → Prop) (ls : list (list A)) :
  Forall P (concat ls) ↔ Forall (Forall P) ls.
Proof.
  induction ls as [|l ls IH]; simpl; [by split; constructor|].
  rewrite Forall_app, Forall_cons, IH. done.
Qed.

Lemma cell_of_in_grid grid r c cell :
  cell_of grid r c = Some cell → cell ∈ concat grid.
Proof.
  unfold cell_of. destruct (grid !! r) as [row|] eqn:Hrow; simpl; [|done].
  intros Hcell. apply elem_of_concat. exists row.
  split; by eapply list_elem_of_lookup_2.
Qed.

Lemma line_in_grid grid col cell : cell ∈ line grid col → cell ∈ concat grid.
Proof.
  unfold line. rewrite list_elem_of_omap. intros (r & _ & Hcell).
  by eapply cell_of_in_grid.
Qed.

Lemma corner_cells_in_grid grid cell : cell ∈ corner_cells grid → cell ∈ concat grid.
Proof.
  unfold corner_cells. rewrite list_elem_of_omap. intros ([r c] & _ & Hcell).
  by eapply cell_of_in_grid.
Qed.

Lemma length_filter_all {A} (P : A → Prop) `{!∀ x, Decision (P x)} (l : list A) :
  Forall P l → length (filter P l) = length l.
Proof.
  induction 1 as [|x l Hx _ IH]; [done|]. rewrite filter_cons_True by done.
  simpl. by rewrite IH.
Qed.

Lemma length_filter_none {A} (P : A → Prop) `{!∀ x, Decision (P x)} (l : list A) :
  Forall (λ x, ¬ P x) l → length (filter P l) = 0%nat.
Proof.
  induction 1 as [|x l Hx _ IH]; [done|]. by rewrite filter_cons_False.
Qed.

Lemma length_filter_mono {A} (P Q : A → Prop)
    `{!∀ x, Decision (P x)} `{!∀ x, Decision (Q x)} (l : list A) :
  (∀ x, P x → Q x) → (length (filter P l) ≤ length (filter Q l))%nat.
Proof.
  intros HPQ. induction l as [|x l IH]; [done|].
  rewrite !filter_cons. destruct (decide (P x)) as [HP|HP].
  - rewrite decide_True by auto. simpl. lia.
  - destruct (decide (Q x)); simpl; lia.
Qed.

Lemma all_played_mono (played played' : gset string) cells :
  played ⊆ played' → all_played played cells → all_played played' cells.
Proof.
  intros Hsub Hall. eapply Forall_impl; [exact Hall|]. intros cell. apply Hsub.
Qed.

Lemma total_lines_mono (played played' : gset string) grid :
  played ⊆ played' → (total_lines played grid ≤ total_lines played' grid)%nat.
Proof.
  intros Hsub. unfold total_lines, complete_rows, complete_columns, complete_diagonals.
  pose proof (length_filter_mono (all_played played) (all_played played') grid
                (λ cells, all_played_mono _ _ cells Hsub)).
  pose proof (length_filter_mono
                (λ c, all_played played (column grid c))
                (λ c, all_played played' (column grid c)) (seq 0 (width grid))
                (λ c, all_played_mono _ _ _ Hsub)).
  pose proof (length_filter_mono (all_played played) (all_played played')
                [main_diagonal grid; anti_diagonal grid]
                (λ cells, all_played_mono _ _ cells Hsub)).
  case_decide; lia.
Qed.

(** The line of a rectangular grid along in-range columns has one cell per
    row. *)
Lemma line_length grid col :
  rectangular grid → (∀ r, (r < length grid)%nat → (col r < width grid)%nat) →
  length (line grid col) = length grid.
Proof.
  intros Hrect Hcol. unfold line.
  assert (∀ rs, Forall (λ r, (r < length grid)%nat) rs →
            length (omap (λ r, cell_of grid r (col r)) rs) = length rs) as Hlen.
  { induction 1 as [|r rs Hr _ IH]; [done|]. simpl.
    destruct (cell_of_in_range grid r (col r) Hrect Hr (Hcol r Hr)) as [cell ->].
    simpl. f_equal. exact IH. }
  rewrite Hlen, length_seq; [done|].
  apply Forall_forall. intros r Hr%elem_of_seq. lia.
Qed.

(** X4.  On a ticket with at least one row and a rectangular grid,
    'FOUR_CORNERS' is in the result exactly when the grid has at least two
    rows and two columns and its four corner ids are played, and
    'FULL_HOUSE' exactly when the id of every cell is played. *)
Theorem checkWins_corners_full_house ticket cells playedSongIds :
  grid ticket = Some cells → cells ≠ [] → rectangular cells →
  ∃ wins, checkWins ticket playedSongIds = Ok wins
    ∧ (FOUR_CORNERS ∈ wins
       ↔ (2 ≤ length cells)%nat ∧ (2 ≤ width cells)%nat
         ∧ all_played playedSongIds (corner_cells cells))
    ∧ (FULL_HOUSE ∈ wins
       ↔ ∀ cell, cell ∈ concat cells → id (song cell) ∈ playedSongIds).
Proof.
  intros Hgrid Hne Hrect.
  rewrite (checkWins_rectangular_explicit _ _ _ Hgrid Hne Hrect).
  eexists; split; [done|].
  rewrite FOUR_CORNERS_in_wins, FULL_HOUSE_in_wins, !bool_decide_eq_true.
  split; [done|]. unfold all_played.
  by rewrite <- Forall_concat, Forall_forall.
Qed.

Lemma checkWins_corners_full_house_witness :
  ∃ wins, checkWins ticket_2x2 {["a"; "b"; "c"; "d"]} = Ok wins
    ∧ (FOUR_CORNERS ∈ wins
       ↔ (2 ≤ length [[mk_cell "a"; mk_cell "b"]; [mk_cell "c"; mk_cell "d"]])%nat
         ∧ (2 ≤ width [[mk_cell "a"; mk_cell "b"]; [mk_cell "c"; mk_cell "d"]])%nat
         ∧ all_played {["a"; "b"; "c"; "d"]}
             (corner_cells [[mk_cell "a"; mk_cell "b"]; [mk_cell "c"; mk_cell "d"]]))
    ∧ (FULL_HOUSE ∈ wins
       ↔ ∀ cell,
           cell ∈ concat [[mk_cell "a"; mk_cell "b"]; [mk_cell "c"; mk_cell "d"]] →
           id (song cell) ∈ ({["a"; "b"; "c"; "d"]} : gset string)).
Proof.
  apply (checkWins_corners_full_house ticket_2x2);
    [reflexivity | discriminate | repeat constructor].
Defined.

(** X5.  Playing more songs never loses a win: on a ticket with at least
    one row and a rectangular grid, every condition returned for a played
    set is returned for every larger played set. *)
Theorem checkWins_monotone ticket cells (played played' : gset string) :
  grid ticket = Some cells → cells ≠ [] → rectangular cells →
  played ⊆ played' →
  ∃ wins wins', checkWins ticket played = Ok wins
    ∧ checkWins ticket played' = Ok wins'
    ∧ ∀ w, w ∈ wins → w ∈ wins'.
Proof.
  intros Hgrid Hne Hrect Hsub.
  rewrite !(checkWins_rectangular_explicit _ _ _ Hgrid Hne Hrect).
  eexists _, _. split; [done|]. split; [done|].
  intros w. rewrite !elem_of_wins, !Nat.leb_le, !bool_decide_eq_true.
  pose proof (total_lines_mono played played' cells Hsub).
  intros [[? ->]|[[? ->]|[[(? & ? & Hc) ->]|[Hall ->]]]].
  - left. split; [lia|done].
  - right; left. split; [lia|done].
  - right; right; left. split; [|done]. split_and!; [done..|].
    by eapply all_played_mono.
  - right; right; right. split; [|done].
    eapply Forall_impl; [exact Hall|]. intros row. by apply all_played_mono.
Qed.

Lemma checkWins_monotone_witness :
  ∃ wins wins', checkWins ticket_2x2 {["a"; "b"]} = Ok wins
    ∧ checkWins ticket_2x2 {["a"; "b"; "c"]} = Ok wins'
    ∧ ∀ w, w ∈ wins → w ∈ wins'.
Proof.
  apply (checkWins_monotone ticket_2x2
           [[mk_cell "a"; mk_cell "b"]; [mk_cell "c"; mk_cell "d"]]);
    [reflexivity | discriminate | repeat constructor |].
  apply (bool_decide_unpack _). by vm_compute.
Defined.

Lemma wins_sublist (b1 b2 b3 b4 : bool) :
  (if b1 then [LINE_1] else []) ++ (if b2 then [LINES_2] else [])
    ++ (if b3 then [FOUR_CORNERS] else []) ++ (if b4 then [FULL_HOUSE] else [])
  `sublist_of` win_order.
Proof. destruct b1, b2, b3, b4; simpl; repeat constructor. Qed.

(** Whatever the grid, a result of [checkWins] is made of four optional
    entries, the second of which comes with the first. *)
Lemma checkWins_entries ticket playedSongIds wins :
  checkWins ticket playedSongIds = Ok wins →
  ∃ b1 b2 b3 b4 : bool,
    wins = (if b1 then [LINE_1] else []) ++ (if b2 then [LINES_2] else [])
           ++ (if b3 then [FOUR_CORNERS] else [])
           ++ (if b4 then [FULL_HOUSE] else [])
    ∧ (b2 = true → b1 = true).
Proof.
  unfold checkWins. destruct (grid ticket) as [[|row0 rest]|].
  - intros [= <-]. by exists false, false, false, false.
  - destruct (count_columns _ _ _ _ _ _) as [verticalLines|]; simpl; [|done].
    destruct (count_diagonals _ _ _ _) as [diagonalLines|]; simpl; [|done].
    destruct (four_corners _ _ _ _) as [fourCorners|]; simpl; [|done].
    intros [= <-].
    exists (1 <=? count_rows playedSongIds (row0 :: rest) 0
                  + verticalLines + diagonalLines)%nat,
      (2 <=? count_rows playedSongIds (row0 :: rest) 0
             + verticalLines + diagonalLines)%nat,
      fourCorners,
      (forallb (forallb (played_has playedSongIds)) (row0 :: rest)).
    split; [done|]. rewrite !Nat.leb_le. lia.
  - intros [= <-]. by exists false, false, false, false.
Qed.

(** X6.  For every ticket, whatever the shape of its grid, a list returned
    by [checkWins] is a sub-list of ['1_LINE'; '2_LINES'; 'FOUR_CORNERS';
    'FULL_HOUSE'] in that order: no condition is repeated, [null] does not
    occur, and '2_LINES' never occurs without '1_LINE'. *)
Theorem checkWins_well_formed ticket playedSongIds wins :
  checkWins ticket playedSongIds = Ok wins →
  wins `sublist_of` win_order
  ∧ NoDup wins
  ∧ (NO_WIN ∉ wins)
  ∧ (LINES_2 ∈ wins → LINE_1 ∈ wins).
Proof.
  intros (b1 & b2 & b3 & b4 & -> & Himp)%checkWins_entries.
  pose proof (wins_sublist b1 b2 b3 b4) as Hsub.
  assert (NoDup win_order) as Hnodup.
  { apply (bool_decide_unpack _). by vm_compute. }
  split_and!.
  - done.
  - by eapply sublist_NoDup.
  - intros Hin. eapply elem_of_sublist in Hin; [|exact Hsub].
    revert Hin. apply (bool_decide_unpack _). by vm_compute.
  - rewrite LINES_2_in_wins, LINE_1_in_wins. done.
Qed.

Lemma checkWins_well_formed_witness :
  [LINE_1; LINES_2] `sublist_of` win_order
  ∧ NoDup [LINE_1; LINES_2]
  ∧ (NO_WIN ∉ [LINE_1; LINES_2])
  ∧ (LINES_2 ∈ [LINE_1; LINES_2] → LINE_1 ∈ [LINE_1; LINES_2]).
Proof.
  apply (checkWins_well_formed ticket_2x2 {["a"; "b"; "c"]}). by vm_compute.
Defined.

(** X7.  On a rectangular grid with at least one row and one column, a full
    house brings the line wins with it: if 'FULL_HOUSE' is returned then so
    are '1_LINE' and '2_LINES', and 'FOUR_CORNERS' too when the grid has at
    least two rows and two columns. *)
Theorem checkWins_full_house_implies ticket cells playedSongIds wins :
  grid ticket = Some cells → cells ≠ [] → rectangular cells →
  (1 ≤ width cells)%nat →
  checkWins ticket playedSongIds = Ok wins →
  FULL_HOUSE ∈ wins →
  LINE_1 ∈ wins ∧ LINES_2 ∈ wins
  ∧ ((2 ≤ length cells)%nat → (2 ≤ width cells)%nat → FOUR_CORNERS ∈ wins).
Proof.
  intros Hgrid Hne Hrect Hwidth.
  rewrite (checkWins_rectangular_explicit _ _ _ Hgrid Hne Hrect).
  intros <-%Ok_inj.
  rewrite FULL_HOUSE_in_wins, LINE_1_in_wins, LINES_2_in_wins,
    FOUR_CORNERS_in_wins, !Nat.leb_le, !bool_decide_eq_true.
  intros Hall.
  assert (∀ cell, cell ∈ concat cells → id (song cell) ∈ playedSongIds) as Hcells.
  { apply Forall_forall, Forall_concat. exact Hall. }
  assert (complete_rows playedSongIds cells = length cells) as Hrows.
  { by apply length_filter_all. }
  assert (complete_columns playedSongIds cells = width cells) as Hcols.
  { unfold complete_columns. rewrite length_filter_all, length_seq; [done|].
    apply Forall_forall. intros c _. apply Forall_forall.
    intros cell Hcell%line_in_grid. by apply Hcells. }
  assert (1 ≤ length cells)%nat by (destruct cells; simpl; [done|lia]).
  unfold total_lines. split_and!; [lia..|].
  intros ? ?. split_and!; [done..|].
  apply Forall_forall. intros cell Hcell%corner_cells_in_grid. by apply Hcells.
Qed.

Lemma checkWins_full_house_implies_witness :
  LINE_1 ∈ [LINE_1; LINES_2; FOUR_CORNERS; FULL_HOUSE]
  ∧ LINES_2 ∈ [LINE_1; LINES_2; FOUR_CORNERS; FULL_HOUSE]
  ∧ ((2 ≤ length [[mk_cell "a"; mk_cell "b"]; [mk_cell "c"; mk_cell "d"]])%nat →
     (2 ≤ width [[mk_cell "a"; mk_cell "b"]; [mk_cell "c"; mk_cell "d"]])%nat →
     FOUR_CORNERS ∈ [LINE_1; LINES_2; FOUR_CORNERS; FULL_HOUSE]).
Proof.
  apply (checkWins_full_house_implies ticket_2x2
           [[mk_cell "a"; mk_cell "b"]; [mk_cell "c"; mk_cell "d"]]
           {["a"; "b"; "c"; "d"]}).
  - reflexivity.
  - discriminate.
  - repeat constructor.
  - vm_compute. lia.
  - by vm_compute.
  - apply (bool_decide_unpack _). by vm_compute.
Defined.

(** X8.  While no song of a ticket has been played, a rectangular grid with
    at least one row and one column wins nothing: [checkWins] returns the
    empty list. *)
Theorem checkWins_nothing_played ticket cells playedSongIds :
  grid ticket = Some cells → cells ≠ [] → rectangular cells →
  (1 ≤ width cells)%nat →
  (∀ cell, cell ∈ concat cells → id (song cell) ∉ playedSongIds) →
  checkWins ticket playedSongIds = Ok [].
Proof.
  intros Hgrid Hne Hrect Hwidth Hnone.
  rewrite (checkWins_rectangular_explicit _ _ _ Hgrid Hne Hrect).
  assert (1 ≤ length cells)%nat as Hrows by (destruct cells; simpl; [done|lia]).
  assert (∀ l : list BingoGridCell, (1 ≤ length l)%nat →
            (∀ cell, cell ∈ l → cell ∈ concat cells) →
            ¬ all_played playedSongIds l) as Hnot.
  { intros [|cell l] Hlen Hin Hall; [simpl in Hlen; lia|].
    apply (Hnone cell); [apply Hin, list_elem_of_here|].
    by inversion Hall. }
  assert (complete_rows playedSongIds cells = 0%nat) as Hr.
  { apply length_filter_none, Forall_forall. intros row Hrow. apply Hnot.
    - unfold rectangular in Hrect. rewrite Forall_forall in Hrect.
      rewrite (Hrect row Hrow). done.
    - intros cell Hcell. apply elem_of_concat. by exists row. }
  assert (complete_columns playedSongIds cells = 0%nat) as Hc.
  { apply length_filter_none, Forall_forall. intros c Hc%elem_of_seq. apply Hnot.
    - unfold column. rewrite line_length; [done..|]. intros; lia.
    - intros cell. apply line_in_grid. }
  assert (complete_diagonals playedSongIds cells = 0%nat) as Hd.
  { unfold complete_diagonals. case_decide as Hsq; [|done].
    apply length_filter_none. repeat constructor; apply Hnot.
    - unfold main_diagonal. rewrite line_length; [done..|]. intros; lia.
    - intros cell. apply line_in_grid.
    - unfold anti_diagonal. rewrite line_length; [done..|]. intros; lia.
    - intros cell. apply line_in_grid. }
  unfold total_lines. rewrite Hr, Hc, Hd. simpl.
  rewrite bool_decide_false; last first.
  { intros (Hr2 & Hw2 & Hall).
    destruct (cell_of_in_range cells 0 0 Hrect) as [cell Hcell]; [lia..|].
    apply (Hnone cell); [by eapply cell_of_in_grid|].
    unfold all_played in Hall. rewrite Forall_forall in Hall. apply Hall.
    unfold corner_cells. apply list_elem_of_omap. exists (0, 0)%nat.
    split; [apply list_elem_of_here|done]. }
  rewrite bool_decide_false; [done|].
  intros Hall. destruct cells as [|row0 rest]; [done|].
  apply Forall_cons in Hall as [Hrow0 _]. revert Hrow0. apply Hnot.
  - simpl in Hwidth. done.
  - intros cell Hcell. apply elem_of_concat. exists row0.
    split; [apply list_elem_of_here|done].
Qed.

Lemma checkWins_nothing_played_witness : checkWins ticket_2x2 {["z"]} = Ok [].
Proof.
  apply (checkWins_nothing_played ticket_2x2
           [[mk_cell "a"; mk_cell "b"]; [mk_cell "c"; mk_cell "d"]]).
  - reflexivity.
  - discriminate.
  - repeat constructor.
  - vm_compute. lia.
  - intros cell Hcell. revert cell Hcell. apply Forall_forall.
    apply (bool_decide_unpack _). by vm_compute.
Defined.

Lemma cell_at_cases grid r c :
  cell_at grid r c
  = match cell_of grid r c with
    | Some cell => Ok cell
    | None => Throw TypeError
    end.
Proof.
  unfold cell_at, cell_of. destruct (grid !! r) as [row|]; simpl; [|done].
  by destruct (row !! c).
Qed.

(** With every cell of the grid played, a walk along a line ends either at
    its end or at the first missing cell. *)
Lemma line_complete_all_played playedSongIds grid col todo i :
  (∀ cell, cell ∈ concat grid → id (song cell) ∈ playedSongIds) →
  (line_complete playedSongIds grid col todo i = Ok true
   ∧ ∀ j, (i ≤ j < i + todo)%nat → is_Some (cell_of grid j (col j)))
  ∨ line_complete playedSongIds grid col todo i = Throw TypeError.
Proof.
  intros Hall. revert i. induction todo as [|todo IH]; intros i; simpl.
  - left. split; [done|]. intros; lia.
  - rewrite cell_at_cases.
    destruct (cell_of grid i (col i)) as [cell|] eqn:Hcell; simpl; [|by right].
    assert (played_has playedSongIds cell = true) as ->.
    { apply played_has_spec, Hall. by eapply cell_of_in_grid. }
    destruct (IH (S i)) as [[-> Hcells]| ->]; [left|by right].
    split; [done|]. intros j Hj.
    destruct (decide (j = i)) as [->|]; [by rewrite Hcell|]. apply Hcells. lia.
Qed.

Lemma count_columns_all_played playedSongIds grid rows todo c acc :
  (∀ cell, cell ∈ concat grid → id (song cell) ∈ playedSongIds) →
  ((∃ v, count_columns playedSongIds grid rows todo c acc = Ok v)
   ∧ ∀ c' r, (c ≤ c' < c + todo)%nat → (r < rows)%nat →
             is_Some (cell_of grid r c'))
  ∨ count_columns playedSongIds grid rows todo c acc = Throw TypeError.
Proof.
  intros Hall. revert c acc. induction todo as [|todo IH]; intros c acc; simpl.
  - left. split; [eauto|]. intros; lia.
  - destruct (line_complete_all_played playedSongIds grid (λ _, c) rows 0 Hall)
      as [[-> Hcol]| ->]; simpl; [|by right].
    destruct (IH (S c) (S acc)) as [[Hok Hcells]| ->]; [left|by right].
    split; [done|]. intros c' r Hc' Hr.
    destruct (decide (c' = c)) as [->|]; [apply Hcol; lia|]. apply Hcells; lia.
Qed.

(** X9.  A grid with a row shorter than its first row makes [checkWins]
    throw once every cell is played: the walk down a column reaches the
    missing cell and reads [.song] of [undefined]. *)
Theorem checkWins_jagged_throws ticket row0 rest playedSongIds :
  grid ticket = Some (row0 :: rest) →
  (∃ row, row ∈ rest ∧ (length row < length row0)%nat) →
  (∀ cell, cell ∈ concat (row0 :: rest) → id (song cell) ∈ playedSongIds) →
  checkWins ticket playedSongIds = Throw TypeError.
Proof.
  intros Hgrid (row & Hrow & Hshort) Hall. unfold checkWins. rewrite Hgrid.
  destruct (count_columns_all_played playedSongIds (row0 :: rest)
              (length (row0 :: rest)) (length row0) 0 0 Hall)
    as [[_ Hcells]| ->]; [exfalso|done].
  apply list_elem_of_lookup in Hrow as [r Hr].
  destruct (Hcells (length row) (S r)) as [cell Hcell].
  - lia.
  - apply lookup_lt_Some in Hr. simpl. lia.
  - unfold cell_of in Hcell. simpl in Hcell. rewrite Hr in Hcell. simpl in Hcell.
    apply lookup_lt_Some in Hcell. lia.
Qed.

Lemma checkWins_jagged_throws_witness :
  checkWins ticket_jagged {["a"; "b"; "c"]} = Throw TypeError.
Proof.
  apply (checkWins_jagged_throws ticket_jagged [mk_cell "a"; mk_cell "b"]
           [[mk_cell "c"]]).
  - reflexivity.
  - exists [mk_cell "c"]. split; [apply list_elem_of_here|simpl; lia].
  - intros cell Hcell. revert cell Hcell. apply Forall_forall.
    apply (bool_decide_unpack _). by vm_compute.
Defined.

(** ** The ticket generator *)

Lemma generateTicket_sufficient (E : Engine) catalog gridSize ticketId (g : G) :
  (gridSize * gridSize ≤ length catalog)%nat →
  ∃ ticket (g' : G),
    generateTicket catalog gridSize ticketId g = (Ok ticket, g')
    ∧ well_shaped gridSize ticket
    ∧ (∀ s, ticketId = Some s → s ≠ "" → ticket_id ticket = s).
Proof.
  intros Hlen. unfold generateTicket.
  destruct (Nat.ltb_spec (length catalog) (gridSize * gridSize)); [lia|].
  destruct (shuffle g catalog) as [shuffled g1].
  destruct (id_or_uuid ticketId g1) as [tid g2] eqn:Hid.
  eexists _, _. split; [done|]. split.
  - eexists. split; [done|]. simpl. split_and!.
    + by rewrite fill_grid_length.
    + by apply fill_grid_rows.
    + rewrite fill_grid_concat. simpl. apply Forall_fmap, Forall_forall. done.
  - intros s -> Hs. simpl. unfold id_or_uuid in Hid.
    destruct (decide (s = "")); [done|]. by injection Hid as <- _.
Qed.

(** X10.  [generateTicket] throws exactly when the catalog holds fewer than
    gridSize * gridSize songs; it then throws before shuffling, so the
    random generator is left as it was. *)
Theorem generateTicket_throws_iff (E : Engine) catalog gridSize ticketId (g : G) :
  ((∃ e, (generateTicket catalog gridSize ticketId g).1 = Throw e)
   ↔ (length catalog < gridSize * gridSize)%nat)
  ∧ ((length catalog < gridSize * gridSize)%nat →
     generateTicket catalog gridSize ticketId g
     = (Throw (Error (catalog_error (gridSize * gridSize) gridSize)), g)).
Proof.
  split; [split|].
  - intros [e He].
    destruct (decide (length catalog < gridSize * gridSize)%nat); [done|].
    destruct (generateTicket_sufficient E catalog gridSize ticketId g)
      as (ticket & g' & Hgen & _); [lia|].
    rewrite Hgen in He. done.
  - intros Hshort. rewrite generateTicket_throws by done. eauto.
  - apply generateTicket_throws.
Qed.

Lemma generateTicket_throws_iff_witness :
  generateTicket (E := insertion_engine) catalog_5 3 None ([true], 0%nat)
  = (Throw (Error (catalog_error (3 * 3) 3)), ([true], 0%nat)).
Proof.
  apply (generateTicket_throws_iff insertion_engine catalog_5 3 None). simpl. lia.
Defined.

(** X11.  When the catalog is large enough, [generateTicket] returns a
    ticket whose cells all hold songs of the catalog, and which carries the
    id it was given whenever that id is a non-empty string. *)
Theorem generateTicket_from_catalog (E : Engine) (HE : EngineOk E)
    catalog gridSize ticketId (g : G) :
  (gridSize * gridSize ≤ length catalog)%nat →
  ∃ ticket cells,
    (generateTicket catalog gridSize ticketId g).1 = Ok ticket
    ∧ grid ticket = Some cells
    ∧ (∀ cell, cell ∈ concat cells → song cell ∈ catalog)
    ∧ (∀ s, ticketId = Some s → s ≠ "" → ticket_id ticket = s).
Proof.
  intros Hlen. pose proof (shuffle_perm g catalog) as Hperm.
  destruct (generateTicket_ok E catalog gridSize ticketId g Hlen)
    as (ticket & cells & Hok & Hgrid & Hid & _ & _ & Hsongs & _).
  { by rewrite Hperm. }
  exists ticket, cells. split_and!; [done..| |].
  - intros cell Hcell. rewrite <- Hperm.
    apply (elem_of_sublist (take (gridSize * gridSize) (shuffle g catalog).1));
      [|apply sublist_take].
    rewrite <- Hsongs. by apply list_elem_of_fmap_2.
  - intros s -> Hs. rewrite Hid. unfold id_or_uuid.
    by destruct (decide (s = "")).
Qed.

Lemma generateTicket_from_catalog_witness :
  ∃ ticket cells,
    (generateTicket (E := insertion_engine) catalog_5 2 (Some "7")
       ([false; true], 0%nat)).1 = Ok ticket
    ∧ grid ticket = Some cells
    ∧ (∀ cell, cell ∈ concat cells → song cell ∈ catalog_5)
    ∧ (∀ s, Some "7" = Some s → s ≠ "" → ticket_id ticket = s).
Proof.
  apply (generateTicket_from_catalog insertion_engine insertion_engine_ok catalog_5 2).
  simpl. lia.
Defined.

(** ** A batch of tickets *)

Section batch_extras.
Context (E : Engine).

(** From a large enough catalog no attempt throws, and an attempt made
    while no key has been recorded succeeds at once. *)
Lemma attempts_loop_sufficient songsToUse gridSize i todo b :
  (gridSize * gridSize ≤ length songsToUse)%nat →
  match attempts_loop songsToUse gridSize i todo b with
  | Unique _ => True
  | Exhausted _ => generatedSets b ≠ ∅ ∨ todo = 0%nat
  | Caught _ _ => False
  end.
Proof.
  intros Hlen. revert b. induction todo as [|todo IH]; intros b; simpl; [by right|].
  destruct (generateTicket_sufficient E songsToUse gridSize
              (Some (pretty (i + 1)%nat)) (gen b) Hlen)
    as (ticket & g' & -> & (cells & -> & _) & _).
  case_decide as Hseen; [|done].
  match goal with |- context [attempts_loop _ _ _ _ ?b1] => specialize (IH b1) end.
  destruct (attempts_loop _ _ _ _ _); [done| |done].
  left. intros Hempty. rewrite Hempty in Hseen. by apply not_elem_of_empty in Hseen.
Qed.

(** What every ticket built by [generateTicket] satisfies, every stored
    ticket satisfies. *)
Lemma attempts_loop_keeps (P : BingoTicket → Prop) songsToUse gridSize i todo b :
  (∀ ticketId (g g' : G) ticket,
     generateTicket songsToUse gridSize ticketId g = (Ok ticket, g') → P ticket) →
  map_Forall (λ _, P) (newTickets b) →
  match attempts_loop songsToUse gridSize i todo b with
  | Unique b' | Exhausted b' | Caught _ b' => map_Forall (λ _, P) (newTickets b')
  end.
Proof.
  intros HP. revert b. induction todo as [|todo IH]; intros b Hb; simpl; [done|].
  destruct (generateTicket _ _ _ _) as [[ticket|e] g'] eqn:Hgen; simpl; [|done].
  destruct (grid ticket) as [cells|]; [|done].
  case_decide.
  - by apply IH.
  - simpl. apply map_Forall_insert_2; [by eapply HP|done].
Qed.

Lemma slots_loop_keeps (P : BingoTicket → Prop) songsToUse gridSize todo i b :
  (∀ ticketId (g g' : G) ticket,
     generateTicket songsToUse gridSize ticketId g = (Ok ticket, g') → P ticket) →
  map_Forall (λ _, P) (newTickets b) →
  match slots_loop songsToUse gridSize todo i b with
  | Completed b' | StoppedEarly b' | Aborted _ b' =>
      map_Forall (λ _, P) (newTickets b')
  end.
Proof.
  intros HP. revert i b. induction todo as [|todo IH]; intros i b Hb; [done|].
  cbn [slots_loop].
  pose proof (attempts_loop_keeps P songsToUse gridSize i maxAttempts b HP Hb)
    as Hslot.
  destruct (attempts_loop _ _ _ _ _); [by apply IH|done..].
Qed.

Lemma slots_loop_sufficient songsToUse gridSize todo i b :
  (gridSize * gridSize ≤ length songsToUse)%nat →
  match slots_loop songsToUse gridSize todo i b with
  | Aborted _ _ => False
  | _ => True
  end.
Proof.
  intros Hlen. revert i b. induction todo as [|todo IH]; intros i b; [done|].
  cbn [slots_loop].
  pose proof (attempts_loop_sufficient songsToUse gridSize i maxAttempts b Hlen)
    as Hslot.
  destruct (attempts_loop _ _ _ _ _); [apply IH|done..].
Qed.

(** From a large enough catalog the first slot is filled at its first
    attempt, so a batch of at least one ticket stores at least one. *)
Lemma slots_loop_first songsToUse gridSize todo (g : G) :
  (gridSize * gridSize ≤ length songsToUse)%nat →
  match slots_loop songsToUse gridSize (S todo) 0 (start g) with
  | Completed b => BatchInv (S todo) b
  | StoppedEarly b => ∃ j, (1 ≤ j < S todo)%nat ∧ BatchInv j b
  | Aborted _ _ => False
  end.
Proof.
  intros Hlen.
  pose proof (slots_loop_sufficient songsToUse gridSize (S todo) 0 (start g) Hlen)
    as Hno.
  revert Hno. cbn [slots_loop].
  pose proof (attempts_loop_sufficient songsToUse gridSize 0 maxAttempts (start g)
                Hlen) as Hfirst.
  pose proof (attempts_loop_spec E songsToUse gridSize 0 maxAttempts (start g))
    as Hslot.
  destruct (attempts_loop _ _ _ _ _) as [b1|b1|e b1]; [| |done].
  - destruct Hslot as (_ & ticket & cells & _ & Hcells & Hnew & Hs & Ht).
    pose proof (BatchInv_store E 0 (start g) b1 ticket cells (BatchInv_start E g)
                  Hcells Hnew Hs Ht) as Hinv.
    pose proof (slots_loop_spec E songsToUse gridSize todo 1 b1 Hinv) as Hrest.
    destruct (slots_loop _ _ _ _ _) as [b|b|e b]; intros Hno; [| |done].
    + by destruct Hrest.
    + destruct Hrest as (j & Hj & Hinvj & _). exists j. split; [lia|done].
  - destruct Hfirst as [Hne|Hzero]; [by destruct Hne|]. by unfold maxAttempts in Hzero.
Qed.

End batch_extras.

Lemma too_many_guard (safeMax : Z) (count : nat) :
  (safeMax <? Z.of_nat count) && (0 <? safeMax) = true
  ↔ 0 < safeMax < Z.of_nat count.
Proof. rewrite andb_true_iff, Z.ltb_lt, Z.ltb_lt. lia. Qed.

Lemma generateTicket_Ok_well_shaped (E : Engine) catalog gridSize ticketId
    (g g' : G) ticket :
  generateTicket catalog gridSize ticketId g = (Ok ticket, g') →
  (gridSize * gridSize ≤ length catalog)%nat ∧ well_shaped gridSize ticket.
Proof.
  intros Hgen.
  destruct (decide (length catalog < gridSize * gridSize)%nat) as [Hshort|Hlen].
  { by rewrite generateTicket_throws in Hgen. }
  split; [lia|].
  destruct (generateTicket_sufficient E catalog gridSize ticketId g)
    as (ticket' & g'' & Hgen' & Hshape & _); [lia|]. congruence.
Qed.

Lemma generateTickets_stored_keeps (E : Engine) (P : BingoTicket → Prop)
    st count (g : G) tickets catalog :
  (∀ ticketId (g g' : G) ticket,
     generateTicket (songsToUse st) (gridSize st) ticketId g = (Ok ticket, g') →
     P ticket) →
  stored (generateTickets st count g) = Some (tickets, catalog) →
  map_Forall (λ _, P) tickets.
Proof.
  intros HP. unfold generateTickets.
  destruct (_ =? _)%nat; [done|]. destruct (_ && _); [done|].
  pose proof (slots_loop_keeps E P (songsToUse st) (gridSize st) count 0 (start g)
                HP (map_Forall_empty _)) as Hkeeps.
  fold (start g).
  destruct (slots_loop _ _ _ _ _); simpl; [| |done]; by intros [= <- _].
Qed.

(** X12.  A call of [generateTickets] ends without storing anything in
    exactly three cases: no song to use; more tickets requested than the
    positive bound [safeMax]; or at least one ticket requested from a
    catalog shorter than gridSize * gridSize. *)
Theorem generateTickets_stores_nothing_iff (E : Engine) st count (g : G) :
  let safeMax := calculateSafeMax (Z.of_nat (length (songsToUse st)))
                   (Z.of_nat (gridSize st)) in
  stored (generateTickets st count g) = None
  ↔ songsToUse st = []
    ∨ 0 < safeMax < Z.of_nat count
    ∨ ((1 ≤ count)%nat
       ∧ (length (songsToUse st) < gridSize st * gridSize st)%nat).
Proof.
  intros safeMax. subst safeMax. unfold generateTickets.
  destruct (Nat.eqb_spec (length (songsToUse st)) 0) as [Hnil|Hne].
  { apply nil_length_inv in Hnil. simpl. by split; [left|]. }
  assert (songsToUse st ≠ []) as Hne' by (by destruct (songsToUse st)).
  destruct (_ && _) eqn:Hguard.
  { apply too_many_guard in Hguard. simpl. by split; [right; left|]. }
  assert (¬ 0 < calculateSafeMax (Z.of_nat (length (songsToUse st)))
                    (Z.of_nat (gridSize st)) < Z.of_nat count) as Hpass.
  { rewrite <- too_many_guard, Hguard. done. }
  fold (start g).
  destruct (decide (length (songsToUse st) < gridSize st * gridSize st)%nat)
    as [Hshort|Hlen].
  - destruct count as [|count].
    + simpl. split; [done|]. intros [?|[?|[? _]]]; [done|done|lia].
    + cbn [slots_loop]. rewrite (attempts_loop_throws E _ _ _ 199) by done.
      simpl. split; [|done]. intros _. right; right. split; [lia|done].
  - pose proof (slots_loop_sufficient E (songsToUse st) (gridSize st) count 0
                  (start g) ltac:(lia)) as Hno.
    destruct (slots_loop _ _ _ _ _); simpl; [| |done];
      (split; [done|]; intros [?|[?|[_ ?]]]; [done|done|lia]).
Qed.

Lemma generateTickets_stores_nothing_iff_witness :
  stored (generateTickets (E := insertion_engine) state_3 2 ([], 0%nat)) = None.
Proof.
  apply (generateTickets_stores_nothing_iff insertion_engine state_3 2).
  right; right. vm_compute. lia.
Defined.

(** A batch from a large enough catalog, within the bound. *)
Lemma generateTickets_within_bound (E : Engine) st count (g : G) :
  songsToUse st ≠ [] →
  (gridSize st * gridSize st ≤ length (songsToUse st))%nat →
  ¬ (0 < calculateSafeMax (Z.of_nat (length (songsToUse st)))
           (Z.of_nat (gridSize st)) < Z.of_nat count) →
  ∃ tickets,
    stored (generateTickets st count g) = Some (tickets, songsToUse st)
    ∧ (size tickets ≤ count)%nat
    ∧ ((1 ≤ count)%nat → (1 ≤ size tickets)%nat).
Proof.
  intros Hne Hlen Hpass. unfold generateTickets.
  destruct (Nat.eqb_spec (length (songsToUse st)) 0) as [Hnil|_].
  { by apply nil_length_inv in Hnil. }
  destruct (_ && _) eqn:Hguard.
  { by apply too_many_guard in Hguard. }
  fold (start g). destruct count as [|count].
  - simpl. exists ∅. rewrite map_size_empty. split_and!; [done|lia|lia].
  - pose proof (slots_loop_first E (songsToUse st) (gridSize st) count g Hlen)
      as Hloop.
    destruct (slots_loop _ _ _ _ _) as [b|b|e b]; [| |done]; simpl.
    + exists (newTickets b). rewrite (inv_size _ _ Hloop). split_and!; [done|lia|lia].
    + destruct Hloop as (j & Hj & Hinv). exists (newTickets b).
      rewrite (inv_size _ _ Hinv). split_and!; [done|lia|lia].
Qed.

(** X13.  With songs to use, a catalog of at least gridSize * gridSize
    songs and a request within the bound, [generateTickets] stores the
    tickets it made together with the catalog used: at most [count] of
    them, at least one when [count >= 1], numbered "1", "2", ... without a
    gap, and it alerts nothing exactly when all [count] were made. *)
Theorem generateTickets_success (E : Engine) st count (g : G) :
  let run := generateTickets st count g in
  let safeMax := calculateSafeMax (Z.of_nat (length (songsToUse st)))
                   (Z.of_nat (gridSize st)) in
  songsToUse st ≠ [] →
  (gridSize st * gridSize st ≤ length (songsToUse st))%nat →
  ¬ (0 < safeMax < Z.of_nat count) →
  ∃ tickets,
    stored run = Some (tickets, songsToUse st)
    ∧ (size tickets ≤ count)%nat
    ∧ ((1 ≤ count)%nat → (1 ≤ size tickets)%nat)
    ∧ (alerts run = [] ↔ size tickets = count)
    ∧ ∀ k, is_Some (tickets !! k)
           ↔ ∃ j, (j < size tickets)%nat ∧ k = pretty (j + 1)%nat.
Proof.
  intros run safeMax Hne Hlen Hpass. subst run safeMax. unfold generateTickets.
  destruct (Nat.eqb_spec (length (songsToUse st)) 0) as [Hnil|_].
  { by apply nil_length_inv in Hnil. }
  destruct (_ && _) eqn:Hguard.
  { by apply too_many_guard in Hguard. }
  fold (start g). destruct count as [|count].
  - simpl. exists ∅. rewrite map_size_empty. split_and!; [done|lia|lia|done|].
    apply (inv_keys _ _ (BatchInv_start E g)).
  - pose proof (slots_loop_first E (songsToUse st) (gridSize st) count g Hlen)
      as Hloop.
    destruct (slots_loop _ _ _ _ _) as [b|b|e b]; [| |done]; simpl.
    + exists (newTickets b). rewrite (inv_size _ _ Hloop).
      split_and!; [done|lia|lia|done|]. apply (inv_keys _ _ Hloop).
    + destruct Hloop as (j & Hj & Hinv). exists (newTickets b).
      rewrite (inv_size _ _ Hinv).
      split_and!; [done|lia|lia| |apply (inv_keys _ _ Hinv)].
      split; [done|lia].
Qed.

Lemma generateTickets_success_witness :
  let run := generateTickets (E := insertion_engine) state_2 2
               ([true; false], 0%nat) in
  ∃ tickets,
    stored run = Some (tickets, songsToUse state_2)
    ∧ (size tickets ≤ 2)%nat
    ∧ ((1 ≤ 2)%nat → (1 ≤ size tickets)%nat)
    ∧ (alerts run = [] ↔ size tickets = 2%nat)
    ∧ ∀ k, is_Some (tickets !! k)
           ↔ ∃ j, (j < size tickets)%nat ∧ k = pretty (j + 1)%nat.
Proof.
  apply (generateTickets_success insertion_engine state_2 2).
  - discriminate.
  - vm_compute. lia.
  - intros [_ Hlt]. vm_compute in Hlt. discriminate.
Defined.

(** X14.  The checker never fails on generated tickets: for the tickets
    that one call of [generateTickets] stored, every sheet number typed
    and every played set give a list of wins, which is empty when the
    number is not that of a stored ticket. *)
Theorem winStatuses_of_generated (E : Engine) st count (g : G)
    tickets catalog ticketId playedSongs :
  stored (generateTickets st count g) = Some (tickets, catalog) →
  ∃ wins, TicketChecker.winStatuses tickets ticketId playedSongs = Ok wins
    ∧ ((¬ ∃ j, (j < size tickets)%nat ∧ ticketId = pretty (j + 1)%nat) →
       wins = []).
Proof.
  intros Hstored. unfold TicketChecker.winStatuses.
  pose proof (generateTickets_stored_keeps E (well_shaped (gridSize st))
                st count g tickets catalog) as Hshape.
  destruct (generateTickets_numbering E st count g tickets catalog Hstored)
    as [_ Hkeys].
  destruct (tickets !! ticketId) as [ticket|] eqn:Hticket; [|by eexists].
  destruct (Hshape) with (2 := Hstored) (i := ticketId) (x := ticket)
    as (cells & Hcells & Hrows & Hcols & _); [|done|].
  { intros tid g0 g' t Hgen.
    by destruct (generateTicket_Ok_well_shaped E _ _ _ _ _ _ Hgen). }
  destruct (decide (cells = [])) as [->|Hne].
  - exists []. split; [|done]. unfold checkWins. by rewrite Hcells.
  - destruct (checkWins_rectangular ticket cells playedSongs Hcells Hne)
      as [fourCorners ->].
    + unfold rectangular, width. destruct cells as [|row0 rest]; [done|].
      simpl. inversion Hcols as [|?? Hrow0 ?]; subst.
      constructor; [done|]. eapply Forall_impl; [done|]. simpl. intros row ->.
      by rewrite Hrow0.
    + eexists. split; [done|]. intros Hnot. destruct Hnot.
      apply Hkeys. by rewrite Hticket.
Qed.

Lemma winStatuses_of_generated_witness :
  ∃ wins,
    TicketChecker.winStatuses
      {[ "1" := {| ticket_id := "1"; grid := Some [[mk_cell "a"]] |};
         "2" := {| ticket_id := "2"; grid := Some [[mk_cell "b"]] |} ]}
      "2" {["b"]} = Ok wins
    ∧ ((¬ ∃ j, (j < size ({[ "1" := {| ticket_id := "1";
                                        grid := Some [[mk_cell "a"]] |};
                              "2" := {| ticket_id := "2";
                                        grid := Some [[mk_cell "b"]] |} ]}
                           : gmap string BingoTicket))%nat
               ∧ "2" = pretty (j + 1)%nat) →
       wins = []).
Proof.
  eapply (winStatuses_of_generated insertion_engine state_2 2
            ([true; false], 0%nat)).
  vm_compute. reflexivity.
Defined.

(** X15.  With a shuffle that permutes and a catalog of pairwise distinct
    ids, every ticket that [generateTickets] stores is a gridSize x gridSize
    grid of unmarked cells whose songs are pairwise distinct songs of the
    catalog that was used. *)
Theorem generateTickets_tickets_valid (E : Engine) (HE : EngineOk E)
    st count (g : G) tickets catalog k ticket :
  NoDup (id <$> songsToUse st) →
  stored (generateTickets st count g) = Some (tickets, catalog) →
  tickets !! k = Some ticket →
  catalog = songsToUse st
  ∧ well_shaped (gridSize st) ticket
  ∧ drawn_from (songsToUse st) ticket.
Proof.
  intros Hnodup Hstored Hk.
  assert (catalog = songsToUse st) as Hcat.
  { revert Hstored. unfold generateTickets.
    destruct (_ =? _)%nat; [done|]. destruct (_ && _); [done|].
    destruct (slots_loop _ _ _ _ _); simpl; [| |done]; by intros [= _ <-]. }
  split; [done|].
  apply (generateTickets_stored_keeps E
           (λ t, well_shaped (gridSize st) t ∧ drawn_from (songsToUse st) t)
           st count g tickets catalog) with (i := k); [|done..].
  intros tid g0 g' t Hgen.
  destruct (generateTicket_Ok_well_shaped E _ _ _ _ _ _ Hgen) as [Hlen Hshape].
  split; [done|].
  pose proof (shuffle_perm g0 (songsToUse st)) as Hperm.
  destruct (generateTicket_ok E (songsToUse st) (gridSize st) tid g0 Hlen)
    as (t' & cells & Hok & Hgrid & _ & _ & _ & Hsongs & _).
  { by rewrite Hperm. }
  rewrite Hgen in Hok. simpl in Hok. apply Ok_inj in Hok as <-.
  exists cells. split_and!; [done| |].
  - rewrite (list_fmap_compose song id), Hsongs, fmap_take.
    eapply sublist_NoDup; [|apply sublist_take]. by rewrite Hperm.
  - intros cell Hcell. rewrite <- Hperm.
    apply (elem_of_sublist (take (gridSize st * gridSize st)
                              (shuffle g0 (songsToUse st)).1));
      [|apply sublist_take].
    rewrite <- Hsongs. by apply list_elem_of_fmap_2.
Qed.

Lemma generateTickets_tickets_valid_witness :
  [mk_song "a"; mk_song "b"] = songsToUse state_2
  ∧ well_shaped (gridSize state_2)
      {| ticket_id := "2"; grid := Some [[mk_cell "b"]] |}
  ∧ drawn_from (songsToUse state_2)
      {| ticket_id := "2"; grid := Some [[mk_cell "b"]] |}.
Proof.
  eapply (generateTickets_tickets_valid insertion_engine insertion_engine_ok
            state_2 2 ([true; false], 0%nat) _ _ "2").
  - apply (bool_decide_unpack _). by vm_compute.
  - vm_compute. reflexivity.
  - vm_compute. reflexivity.
Defined.

(** ** The ticket form and the library *)

Import TicketManagement Library.

Lemma songsToUse_selected st :
  selectedSongIds st ≠ ∅ →
  songsToUse st = filter (λ s, id s ∈ selectedSongIds st) (songs st).
Proof.
  intros Hne. unfold songsToUse.
  destruct (Nat.ltb_spec 0 (size (selectedSongIds st))) as [|Hsize]; [done|].
  destruct Hne. apply leibniz_equiv, size_empty_inv. lia.
Qed.

Lemma songsToUse_unselected st : selectedSongIds st = ∅ → songsToUse st = songs st.
Proof. intros Hempty. unfold songsToUse. by rewrite Hempty, size_empty. Qed.

(** With distinct ids in the library, the form counts as many valid
    selected ids as the generator finds selected songs. *)
Lemma validSelectedSongIds_length st :
  NoDup (id <$> songs st) →
  length (validSelectedSongIds st)
  = length (filter (λ s, id s ∈ selectedSongIds st) (songs st)).
Proof.
  intros Hnodup.
  set (both := selectedSongIds st ∩ list_to_set (id <$> songs st) : gset string).
  assert (length (validSelectedSongIds st) = size both) as ->.
  { rewrite <- (size_list_to_set (C := gset string)).
    - f_equal. apply set_eq. intros x. unfold both, validSelectedSongIds.
      rewrite elem_of_list_to_set, list_elem_of_filter, elem_of_elements,
        elem_of_intersection. tauto.
    - apply NoDup_filter, NoDup_elements. }
  rewrite <- (length_fmap id).
  rewrite <- (size_list_to_set (C := gset string)).
  - f_equal. apply set_eq. intros x. unfold both.
    rewrite elem_of_list_to_set, elem_of_intersection, elem_of_list_to_set,
      !list_elem_of_fmap.
    split.
    + intros [Hsel (s & -> & Hs)]. exists s. split; [done|].
      by apply list_elem_of_filter.
    + intros (s & -> & [Hsel Hs]%list_elem_of_filter). split; [done|]. by exists s.
  - eapply sublist_NoDup; [exact Hnodup|]. apply fmap_sublist, sublist_filter.
Qed.

Lemma validSelectedSongIds_unselected st :
  selectedSongIds st = ∅ → validSelectedSongIds st = [].
Proof. intros Hempty. unfold validSelectedSongIds. by rewrite Hempty, elements_empty. Qed.

Lemma validSelectedSongIds_selected st :
  validSelectedSongIds st ≠ [] → selectedSongIds st ≠ ∅.
Proof. intros Hvalid Hempty. by apply Hvalid, validSelectedSongIds_unselected. Qed.

Lemma songsForGeneration_agrees st :
  NoDup (id <$> songs st) →
  selectedSongIds st = ∅ ∨ validSelectedSongIds st ≠ [] →
  songsForGeneration st = length (songsToUse st).
Proof.
  intros Hnodup Hcase. unfold songsForGeneration.
  destruct Hcase as [Hempty|Hvalid].
  - by rewrite validSelectedSongIds_unselected, songsToUse_unselected.
  - rewrite songsToUse_selected by (by apply validSelectedSongIds_selected).
    rewrite <- validSelectedSongIds_length by done.
    destruct (validSelectedSongIds st); [done|]. done.
Qed.

(** X16.  With distinct ids in the library, the number of songs that the
    form shows for generation is the length of the catalog that
    [generateTickets] uses, except when ids are selected and none of them is
    in the library: the form then counts the whole library, while
    [generateTickets] finds no song, shows the alert "No songs available
    for ticket generation. Please select songs or load a music folder." and
    stores nothing. *)
Theorem songsForGeneration_and_songsToUse (E : Engine) st :
  NoDup (id <$> songs st) →
  (selectedSongIds st = ∅ ∨ validSelectedSongIds st ≠ [] →
   songsForGeneration st = length (songsToUse st))
  ∧ (selectedSongIds st ≠ ∅ → validSelectedSongIds st = [] →
     songsForGeneration st = length (songs st)
     ∧ songsToUse st = []
     ∧ ∀ count (g : G),
         alerts (generateTickets st count g)
         = ["No songs available for ticket generation. Please select songs or load a music folder."]
         ∧ stored (generateTickets st count g) = None).
Proof.
  intros Hnodup. split; [by apply songsForGeneration_agrees|].
  intros Hsel Hvalid.
  assert (songsToUse st = []) as Hnone.
  { rewrite songsToUse_selected by done. apply nil_length_inv.
    by rewrite <- validSelectedSongIds_length, Hvalid. }
  split_and!; [|done|].
  - unfold songsForGeneration. by rewrite Hvalid.
  - intros count g. unfold generateTickets. by rewrite Hnone.
Qed.

Lemma songsForGeneration_and_songsToUse_witness :
  (songsForGeneration state_4 = length (songsToUse state_4))
  ∧ songsForGeneration state_5 = length (songs state_5)
  ∧ songsToUse state_5 = []
  ∧ ∀ count (g : G),
      alerts (generateTickets (E := insertion_engine) state_5 count g)
      = ["No songs available for ticket generation. Please select songs or load a music folder."]
      ∧ stored (generateTickets (E := insertion_engine) state_5 count g) = None.
Proof.
  split.
  - apply (songsForGeneration_and_songsToUse insertion_engine state_4).
    + apply (bool_decide_unpack _). by vm_compute.
    + right. by vm_compute.
  - apply (songsForGeneration_and_songsToUse insertion_engine state_5).
    + apply (bool_decide_unpack _). by vm_compute.
    + intros Hempty. apply (f_equal size) in Hempty. vm_compute in Hempty. discriminate.
    + by vm_compute.
Defined.

Lemma onCountChange_bounds (parsed : option Z) (safeMax : Z) :
  1 ≤ onCountChange parsed safeMax
  ∧ (0 < safeMax → onCountChange parsed safeMax ≤ safeMax).
Proof.
  unfold onCountChange.
  set (val := match parsed with Some v => if v =? 0 then 0 else v | None => 0 end).
  clearbody val.
  destruct (Z.ltb_spec 0 safeMax), (Z.ltb_spec safeMax val); cbv [andb];
    match goal with |- context [?a <? 1] => destruct (Z.ltb_spec a 1) end; lia.
Qed.

(** X17.  The count that Generate passes on.  With distinct ids in the
    library, a selection that is empty or holds an id of the library, a grid
    size of at least 1, the Generate button enabled and a count of at least
    1 in the form, the bound shown is at least 1 and [handleGenerate]
    stores between 1 and count tickets when the count is at most the
    bound, and stores nothing and shows the too-many alert when it is
    above.  The field's [onChange] keeps the typed number brought into the
    range from 1 to the bound, 1 when no number is typed; the count the
    form starts with, 30, is passed on as it is. *)
Theorem handleGenerate_count (E : Engine) st tickets ticketCountToGen (g : G) :
  NoDup (id <$> songs st) →
  selectedSongIds st = ∅ ∨ validSelectedSongIds st ≠ [] →
  (1 ≤ gridSize st)%nat →
  generateDisabled st tickets = false →
  1 ≤ ticketCountToGen →
  1 ≤ safeMax st
  ∧ (ticketCountToGen ≤ safeMax st →
     ∃ made, stored (handleGenerate st ticketCountToGen g)
             = Some (made, songsToUse st)
             ∧ (1 ≤ size made ≤ Z.to_nat ticketCountToGen)%nat)
  ∧ (safeMax st < ticketCountToGen →
     stored (handleGenerate st ticketCountToGen g) = None
     ∧ alerts (handleGenerate st ticketCountToGen g)
       = [too_many_message (Z.to_nat ticketCountToGen) (safeMax st)
            (length (songsToUse st)) (gridSize st)])
  ∧ (∀ parsed, 1 ≤ onCountChange parsed (safeMax st) ≤ safeMax st)
  ∧ (∀ parsed, onCountChange parsed (safeMax st)
               = Z.max 1 (Z.min (default 0 parsed) (safeMax st)))
  ∧ (∀ v, 1 ≤ v ≤ safeMax st → onCountChange (Some v) (safeMax st) = v).
Proof.
  intros Hnodup Hsel Hgrid Henabled Hcount.
  pose proof (songsForGeneration_agrees st Hnodup Hsel) as Hagree.
  unfold generateDisabled in Henabled.
  apply orb_false_iff in Henabled as [Henough%Nat.ltb_ge _].
  rewrite Hagree in Henough.
  assert (songsToUse st ≠ []) as Hsongs.
  { intros Hnil. rewrite Hnil in Henough. simpl in Henough. nia. }
  assert (safeMax st
          = calculateSafeMax (Z.of_nat (length (songsToUse st)))
              (Z.of_nat (gridSize st))) as Hmax.
  { unfold safeMax. by rewrite Hagree. }
  assert (1 ≤ safeMax st) as Hone.
  { rewrite Hmax. unfold calculateSafeMax.
    destruct (Z.ltb_spec (Z.of_nat (length (songsToUse st)))
                (Z.of_nat (gridSize st) * Z.of_nat (gridSize st))); [nia|].
    by apply calculateSafeMax_zero_iff_aux. }
  split_and!.
  - done.
  - intros Hle. unfold handleGenerate.
    destruct (generateTickets_within_bound E st (Z.to_nat ticketCountToGen) g)
      as (made & Hstored & Hsize & Hfirst); [done|done|rewrite <- Hmax; lia|].
    exists made. split; [done|]. split; [apply Hfirst; lia|done].
  - intros Hgt. unfold handleGenerate, generateTickets.
    destruct (Nat.eqb_spec (length (songsToUse st)) 0) as [Hnil|_].
    { by apply nil_length_inv in Hnil. }
    rewrite <- Hmax.
    destruct (Z.ltb_spec (safeMax st) (Z.of_nat (Z.to_nat ticketCountToGen))); [|lia].
    by destruct (Z.ltb_spec 0 (safeMax st)); [|lia].
  - intros parsed. destruct (onCountChange_bounds parsed (safeMax st)) as [? Hle].
    split; [done|]. apply Hle. lia.
  - intros parsed. unfold onCountChange.
    assert (match parsed with Some v => if v =? 0 then 0 else v | None => 0 end
            = default 0 parsed) as ->.
    { destruct parsed as [v|]; [|done]. simpl. by destruct (Z.eqb_spec v 0). }
    destruct (Z.ltb_spec 0 (safeMax st)), (Z.ltb_spec (safeMax st) (default 0 parsed));
      cbv [andb]; try lia;
      match goal with |- context [?a <? 1] => destruct (Z.ltb_spec a 1) end; lia.
  - intros v Hv. unfold onCountChange.
    destruct (Z.eqb_spec v 0); [lia|].
    destruct (Z.ltb_spec 0 (safeMax st)), (Z.ltb_spec (safeMax st) v); cbv [andb];
      try lia; by destruct (Z.ltb_spec v 1); [lia|].
Qed.

Lemma handleGenerate_count_witness :
  (stored (handleGenerate (E := insertion_engine) state_2 initialTicketCount
             ([true; false], 0%nat)) = None
   ∧ alerts (handleGenerate (E := insertion_engine) state_2 initialTicketCount
               ([true; false], 0%nat))
     = [too_many_message (Z.to_nat initialTicketCount) (safeMax state_2)
          (length (songsToUse state_2)) (gridSize state_2)])
  ∧ (∃ made,
       stored (handleGenerate (E := insertion_engine) state_2
                 (onCountChange (Some 99%Z) (safeMax state_2))
                 ([true; false], 0%nat))
       = Some (made, songsToUse state_2)
       ∧ (1 ≤ size made
          ≤ Z.to_nat (onCountChange (Some 99%Z) (safeMax state_2)))%nat).
Proof.
  split.
  - apply (handleGenerate_count insertion_engine state_2 ∅ initialTicketCount
             ([true; false], 0%nat)).
    + apply (bool_decide_unpack _). by vm_compute.
    + by left.
    + vm_compute. lia.
    + by vm_compute.
    + by vm_compute.
    + by vm_compute.
  - apply (handleGenerate_count insertion_engine state_2 ∅
             (onCountChange (Some 99%Z) (safeMax state_2))
             ([true; false], 0%nat)).
    + apply (bool_decide_unpack _). by vm_compute.
    + by left.
    + vm_compute. lia.
    + by vm_compute.
    + by vm_compute.
    + by vm_compute.
Defined.

Lemma is_digit_pretty_N_char (x : N) : TicketChecker.is_digit (pretty_N_char x) = true.
Proof. unfold pretty_N_char. by repeat case_match. Qed.

Lemma handleIdChange_pretty_N_go (x : N) (s : string) :
  TicketChecker.handleIdChange s = s →
  TicketChecker.handleIdChange (pretty_N_go x s) = pretty_N_go x s.
Proof.
  revert s. induction (N.lt_wf_0 x) as [x _ IH]; intros s Hs.
  destruct (decide (x = 0%N)) as [->|Hx].
  - by rewrite pretty_N_go_0.
  - rewrite pretty_N_go_step by lia. apply IH; [apply N.div_lt; lia|].
    cbn [TicketChecker.handleIdChange]. by rewrite is_digit_pretty_N_char, Hs.
Qed.

Lemma handleIdChange_pretty (n : nat) :
  TicketChecker.handleIdChange (pretty n) = pretty n.
Proof.
  change (pretty n) with (pretty_N (N.of_nat n)).
  unfold pretty_N. case_decide; [done|].
  by apply handleIdChange_pretty_N_go.
Qed.

(** X18.  The digit filter of the sheet-number field leaves the id of every
    ticket that [generateTickets] stored as it is, so typing such an id
    looks that ticket up and the wins shown are those of [checkWins] on
    it. *)
Theorem handleIdChange_generated_id (E : Engine) st count (g : G)
    tickets catalog ticketId ticket playedSongs :
  stored (generateTickets st count g) = Some (tickets, catalog) →
  tickets !! ticketId = Some ticket →
  TicketChecker.handleIdChange ticketId = ticketId
  ∧ TicketChecker.winStatuses tickets (TicketChecker.handleIdChange ticketId)
      playedSongs
    = checkWins ticket playedSongs.
Proof.
  intros Hstored Hticket.
  destruct (generateTickets_numbering E st count g tickets catalog Hstored)
    as [_ Hkeys].
  destruct (proj1 (Hkeys ticketId)) as (j & _ & ->); [by rewrite Hticket|].
  rewrite handleIdChange_pretty. split; [done|].
  unfold TicketChecker.winStatuses. by rewrite Hticket.
Qed.

Lemma handleIdChange_generated_id_witness :
  TicketChecker.handleIdChange "2" = "2"
  ∧ TicketChecker.winStatuses
      {[ "1" := {| ticket_id := "1"; grid := Some [[mk_cell "a"]] |};
         "2" := {| ticket_id := "2"; grid := Some [[mk_cell "b"]] |} ]}
      (TicketChecker.handleIdChange "2") {["b"]}
    = checkWins {| ticket_id := "2"; grid := Some [[mk_cell "b"]] |} {["b"]}.
Proof.
  eapply (handleIdChange_generated_id insertion_engine state_2 2
            ([true; false], 0%nat)).
  - vm_compute. reflexivity.
  - vm_compute. reflexivity.
Defined.

Lemma filter_all {A} (P : A → Prop) `{!∀ x, Decision (P x)} (l : list A) :
  (∀ x, x ∈ l → P x) → filter P l = l.
Proof.
  induction l as [|x l IH]; intros Hall; [done|].
  rewrite filter_cons_True by (apply Hall; left).
  f_equal. apply IH. intros y Hy. apply Hall. by right.
Qed.

Lemma filter_filter_swap {A} (P Q : A → Prop)
    `{!∀ x, Decision (P x)} `{!∀ x, Decision (Q x)} (l : list A) :
  filter P (filter Q l) = filter Q (filter P l).
Proof.
  induction l as [|x l IH]; [done|].
  destruct (decide (P x)), (decide (Q x));
    repeat first [rewrite filter_cons_True by done
                 |rewrite filter_cons_False by done]; by rewrite ?IH.
Qed.

Lemma GameState_eq (st st' : GameState) :
  songs st = songs st' → selectedSongIds st = selectedSongIds st' →
  gridSize st = gridSize st' → st = st'.
Proof. destruct st, st'. simpl. by intros -> -> ->. Qed.

(** X19.  Toggling a song in the selection flips its membership and no
    other, and toggling it twice gives the state back. *)
Theorem toggleSongSelection_twice songId st :
  toggleSongSelection songId (toggleSongSelection songId st) = st
  ∧ (songId ∈ selectedSongIds (toggleSongSelection songId st)
     ↔ songId ∉ selectedSongIds st)
  ∧ ∀ other, other ≠ songId →
      (other ∈ selectedSongIds (toggleSongSelection songId st)
       ↔ other ∈ selectedSongIds st).
Proof.
  split_and!.
  - apply GameState_eq; [done| |done]. simpl.
    destruct (decide (songId ∈ selectedSongIds st)) as [Hin|Hout].
    + rewrite decide_False
        by (rewrite elem_of_difference, elem_of_singleton; tauto).
      apply set_eq. intros x.
      rewrite elem_of_union, elem_of_singleton, elem_of_difference,
        elem_of_singleton.
      destruct (decide (x = songId)) as [->|]; tauto.
    + rewrite decide_True by (by apply elem_of_union_l, elem_of_singleton).
      apply set_eq. intros x.
      rewrite elem_of_difference, elem_of_union, elem_of_singleton.
      destruct (decide (x = songId)) as [->|]; tauto.
  - simpl. case_decide.
    + rewrite elem_of_difference, elem_of_singleton. tauto.
    + rewrite elem_of_union, elem_of_singleton. tauto.
  - intros other Hother. simpl. case_decide.
    + rewrite elem_of_difference, elem_of_singleton. tauto.
    + rewrite elem_of_union, elem_of_singleton. tauto.
Qed.

(** X20.  After "select all" and after "deselect all" alike,
    [generateTickets] draws from the whole library. *)
Theorem select_all_or_none_uses_library st :
  songsToUse (selectAllSongs st) = songs st
  ∧ songsToUse (deselectAllSongs st) = songs st.
Proof.
  split.
  - unfold songsToUse. simpl. case_match; [|done].
    apply filter_all. intros s Hs.
    apply elem_of_list_to_set, list_elem_of_fmap. by exists s.
  - by rewrite songsToUse_unselected.
Qed.

(** X21.  Removing a song from the library removes it from what
    [generateTickets] draws from, and nothing else: the catalog used after
    [removeSong] is the catalog used before without the songs of that id.
    The selection is not touched, so a selected id stays selected. *)
Theorem removeSong_songsToUse id0 st :
  songsToUse (removeSong id0 st) = filter (λ s, id s ≠ id0) (songsToUse st)
  ∧ selectedSongIds (removeSong id0 st) = selectedSongIds st
  ∧ ∀ s, s ∈ songsToUse (removeSong id0 st) → id s ≠ id0.
Proof.
  assert (songsToUse (removeSong id0 st)
          = filter (λ s, id s ≠ id0) (songsToUse st)) as Heq.
  { unfold songsToUse. simpl. case_match; [|done]. apply filter_filter_swap. }
  split_and!; [done|done|].
  intros s. rewrite Heq. by intros [? _]%list_elem_of_filter.
Qed.

(** X22.  While some song is selected, songs added to the library are not
    drawn from unless their id is selected; with no selection they are all
    drawn from. *)
Theorem addSongs_songsToUse newSongs st :
  (selectedSongIds st ≠ ∅ →
   songsToUse (addSongs newSongs st)
   = songsToUse st ++ filter (λ s, id s ∈ selectedSongIds st) newSongs)
  ∧ (selectedSongIds st = ∅ →
     songsToUse (addSongs newSongs st) = songsToUse st ++ newSongs).
Proof.
  split; intros Hsel.
  - rewrite !songsToUse_selected by done. simpl. apply filter_app.
  - by rewrite !songsToUse_unselected.
Qed.

(** ** Playing a game *)

Section play.
Import Play.
Context {T : Text} {D : Dice}.

Lemma find_Some {A} (P : A → Prop) `{!∀ x, Decision (P x)} (l : list A) (x : A) :
  find P l = Some x → x ∈ l ∧ P x.
Proof.
  unfold find. intros Hhead%head_Some_elem_of.
  apply list_elem_of_filter in Hhead. tauto.
Qed.

Lemma find_is_Some {A} (P : A → Prop) `{!∀ x, Decision (P x)} (l : list A) (x : A) :
  x ∈ l → P x → is_Some (find P l).
Proof.
  intros Hx HP. unfold find.
  assert (x ∈ filter P l) as Hin by (by apply list_elem_of_filter).
  destruct (filter P l); [by apply elem_of_nil in Hin|by eexists].
Qed.

Lemma synced_id (library : list Song) (x : Song) : id (synced library x) = id x.
Proof. unfold synced. by destruct (libMatch library x). Qed.

Lemma at_index_Some {A} (l : list A) (i : Z) (x : A) :
  at_index l i = Some x → 0 ≤ i < Z.of_nat (length l) ∧ l !! Z.to_nat i = Some x.
Proof.
  unfold at_index. destruct (Z.ltb_spec i 0); [done|]. intros Hx.
  split; [|done]. apply lookup_lt_Some in Hx. lia.
Qed.

Lemma history_song_Some st index s :
  history_song st index = Some s →
  at_index (songHistory st) index = Some (id s) ∧ s ∈ songs st.
Proof.
  unfold history_song. destruct (at_index _ _) as [songId|]; [|done].
  intros [Hs ->]%find_Some. done.
Qed.

Lemma history_song_is_Some st index songId :
  at_index (songHistory st) index = Some songId →
  songId ∈ id <$> songs st →
  ∃ s, history_song st index = Some s ∧ id s = songId.
Proof.
  intros Hat (s & -> & Hs)%list_elem_of_fmap. unfold history_song. rewrite Hat.
  destruct (find_is_Some (λ s', id s' = id s) (songs st) s Hs eq_refl) as [s' Hs'].
  exists s'. split; [done|]. by apply find_Some in Hs' as [_ ?].
Qed.

Lemma forward_Some st st' :
  forward st = Some st' →
  ∃ base, history_song st (historyIndex st + 1) = Some base
    ∧ historyIndex st < Z.of_nat (length (songHistory st)) - 1
    ∧ st' = move_to st (historyIndex st + 1) (synced (songs st) base).
Proof.
  unfold forward. destruct (Z.ltb_spec (historyIndex st) (Z.of_nat (length (songHistory st)) - 1));
    [|done].
  destruct (history_song _ _) as [base|]; [|done]. intros [= <-]. by exists base.
Qed.

Lemma forward_at_end st :
  historyIndex st = Z.of_nat (length (songHistory st)) - 1 → forward st = None.
Proof.
  intros Hend. unfold forward.
  by destruct (Z.ltb_spec (historyIndex st) (Z.of_nat (length (songHistory st)) - 1)); [lia|].
Qed.

(** The state keeps the invariant when the played set, the history and the
    catalog stay and the index stays inside the history. *)
Lemma GameInv_same (st st' : Game) :
  playedSongs st' = playedSongs st → songHistory st' = songHistory st →
  catalogToUse st' = catalogToUse st →
  -1 ≤ historyIndex st' < Z.of_nat (length (songHistory st)) →
  GameInv st → GameInv st'.
Proof.
  intros Hplayed Hhistory Hcatalog Hindex [? ? ? ?].
  split; rewrite ?Hplayed, ?Hhistory, ?Hcatalog; done.
Qed.

Lemma GameInv_startGame st : GameInv (startGame st).
Proof.
  split; simpl.
  - done.
  - constructor.
  - lia.
  - intros i Hi. by apply elem_of_nil in Hi.
Qed.

(** A fresh song: unplayed, from the catalog, put at the end of the
    history. *)
Lemma GameInv_fresh (st st' : Game) (s : Song) :
  s ∈ catalogToUse st → id s ∉ playedSongs st →
  playedSongs st' = {[id s]} ∪ playedSongs st →
  songHistory st' = songHistory st ++ [id s] →
  catalogToUse st' = catalogToUse st →
  historyIndex st' = historyIndex st + 1 →
  GameInv st → GameInv st'.
Proof.
  intros Hs Hnew Hplayed Hhistory Hcatalog Hindex [Hp Hh Hi Hc].
  split; rewrite ?Hplayed, ?Hhistory, ?Hcatalog, ?Hindex.
  - rewrite Hp. apply set_eq. intros x.
    rewrite elem_of_union, !elem_of_list_to_set, elem_of_app, elem_of_singleton,
      list_elem_of_singleton. tauto.
  - apply NoDup_app. split_and!; [done| |apply NoDup_singleton].
    intros x Hx ->%list_elem_of_singleton. apply Hnew.
    rewrite Hp. by apply elem_of_list_to_set.
  - rewrite length_app. simpl. lia.
  - intros i [Hin| ->%list_elem_of_singleton]%elem_of_app; [by apply Hc|].
    by exists s.
Qed.

Lemma playNext_cases (HD : DiceOk D) st (g : dice) :
  (∃ st', forward st = Some st' ∧ playNext st g = (Ok st', g))
  ∨ (forward st = None ∧ unplayed st = []
     ∧ playNext st g
       = (Ok {| songs := songs st; gameCatalog := gameCatalog st;
                tickets := tickets st; playedSongs := playedSongs st;
                songHistory := songHistory st; historyIndex := historyIndex st;
                currentSong := currentSong st; isPlaying := false |}, g))
  ∨ (forward st = None
     ∧ ∃ s g', s ∈ catalogToUse st ∧ (id s ∉ playedSongs st)
       ∧ playNext st g
         = (Ok {| songs := songs st; gameCatalog := gameCatalog st;
                  tickets := tickets st;
                  playedSongs := {[id s]} ∪ playedSongs st;
                  songHistory := songHistory st ++ [id s];
                  historyIndex := historyIndex st + 1;
                  currentSong := Some (synced (songs st) s);
                  isPlaying := true |}, g')).
Proof.
  unfold playNext. destruct (forward st) as [st'|]; [left; by exists st'|right].
  destruct (Nat.eqb_spec (length (unplayed st)) 0) as [Hnone|Hsome].
  - left. by apply nil_length_inv in Hnone.
  - right. split; [done|].
    pose proof (random_index_lt g (length (unplayed st))) as Hlt.
    destruct (random_index g (length (unplayed st))) as [i g']. simpl in Hlt.
    destruct (lookup_lt_is_Some_2 (unplayed st) i) as [s Hi]; [lia|].
    rewrite Hi. exists s, g'.
    apply list_elem_of_lookup_2 in Hi as Hin.
    apply list_elem_of_filter in Hin as [Hnew Hcat].
    by rewrite synced_id.
Qed.

Lemma autoCue_cases (HD : DiceOk D) st (g : dice) :
  autoCue st g = (Ok st, g)
  ∨ (playedSongs st = ∅
     ∧ ∃ s g', s ∈ catalogToUse st
       ∧ autoCue st g
         = (Ok {| songs := songs st; gameCatalog := gameCatalog st;
                  tickets := tickets st;
                  playedSongs := {[id s]};
                  songHistory := [id s];
                  historyIndex := 0;
                  currentSong := Some (synced (songs st) s);
                  isPlaying := false |}, g')).
Proof.
  unfold autoCue.
  destruct (_ && _ && _) eqn:Hcond; [|by left].
  apply andb_true_iff in Hcond as [_ Hsize%Nat.eqb_eq].
  destruct (Nat.ltb_spec 0 (length (catalogToUse st))) as [Hsome|]; [|by left].
  right. split; [by apply leibniz_equiv, size_empty_inv|].
  pose proof (random_index_lt g (length (catalogToUse st)) Hsome) as Hlt.
  destruct (random_index g (length (catalogToUse st))) as [i g']. simpl in Hlt.
  destruct (lookup_lt_is_Some_2 (catalogToUse st) i) as [s Hi]; [lia|].
  rewrite Hi. exists s, g'. apply list_elem_of_lookup_2 in Hi as Hin.
  by rewrite synced_id.
Qed.

Lemma replayPrevious_cases st :
  (∃ base, 0 < historyIndex st
     ∧ history_song st (historyIndex st - 1) = Some base
     ∧ replayPrevious st
       = (move_to st (historyIndex st - 1) (synced (songs st) base), NoTimer))
  ∨ (historyIndex st = 0
     ∧ replayPrevious st = (with_currentSong st None, SetCurrentSong (currentSong st)))
  ∨ replayPrevious st = (st, NoTimer).
Proof.
  unfold replayPrevious. destruct (Z.ltb_spec 0 (historyIndex st)).
  - destruct (history_song _ _) as [base|]; [left; by exists base|by right; right].
  - destruct (Z.eqb_spec (historyIndex st) 0); [by right; left|by right; right].
Qed.

Lemma GameInv_step (HD : DiceOk D) a st (g : dice) :
  GameInv st →
  ∃ st' g', step a st g = (Ok st', g') ∧ GameInv st'
    ∧ catalogToUse st' = catalogToUse st.
Proof.
  intros Hinv. pose proof (inv_index _ Hinv) as Hindex. destruct a; simpl.
  - eexists _, _. split_and!; [done|apply GameInv_startGame|done].
  - eexists _, _. split_and!; [done|apply GameInv_startGame|done].
  - destruct (playNext_cases HD st g)
      as [(st' & (base & _ & ? & ->)%forward_Some & ->)
         |[(_ & _ & ->)|(_ & s & g' & Hs & Hnew & ->)]];
      eexists _, _; (split_and!; [done| |done]).
    + apply (GameInv_same st); [done..|simpl; lia|done].
    + by apply (GameInv_same st).
    + by eapply (GameInv_fresh st _ s).
  - destruct (replayPrevious_cases st)
      as [(base & ? & _ & ->)|[(? & ->)| ->]];
      eexists _, _; (split_and!; [done| |done]); simpl.
    + apply (GameInv_same st); [done..|simpl; lia|done].
    + by apply (GameInv_same st).
    + done.
  - eexists _, _. split_and!; [done| |done]. by apply (GameInv_same st).
  - destruct (autoCue_cases HD st g) as [->|(Hempty & s & g' & Hs & ->)];
      eexists _, _; (split_and!; [done| |done]); [done|].
    split; simpl.
    + by rewrite (right_id_L ∅ (∪)).
    + apply NoDup_singleton.
    + lia.
    + intros i ->%list_elem_of_singleton. by exists s.
Qed.

Lemma GameInv_run (HD : DiceOk D) actions st (g : dice) :
  GameInv st →
  ∃ st' g', run actions st g = (Ok st', g') ∧ GameInv st'
    ∧ catalogToUse st' = catalogToUse st.
Proof.
  revert st g. induction actions as [|a rest IH]; intros st g Hinv.
  - by exists st, g.
  - destruct (GameInv_step HD a st g Hinv) as (st1 & g1 & Hstep & Hinv1 & Hcat1).
    destruct (IH st1 g1 Hinv1) as (st2 & g2 & Hrun & Hinv2 & Hcat2).
    exists st2, g2. simpl. rewrite Hstep, Hrun. split_and!; [done..|congruence].
Qed.

Lemma GameInv_length st :
  GameInv st → (length (songHistory st) ≤ length (catalogToUse st))%nat.
Proof.
  intros [_ Hnodup _ Hcat].
  rewrite <- (length_fmap id (catalogToUse st)).
  apply submseteq_length, NoDup_submseteq; [done|].
  intros i (s & Hs & <-)%Hcat. apply list_elem_of_fmap. by exists s.
Qed.

(** *** Handlers of an earlier render *)

Lemma step_in_same a st (g : dice) : step_in a st st g = step a st g.
Proof. by destruct a. Qed.

Lemma run_in_fresh (schedule : list (Action * nat)) renders st (g : dice) :
  Forall (λ entry, entry.2 = 0%nat) schedule →
  run_in schedule renders st g = run schedule.*1 st g.
Proof.
  intros Hfresh. revert renders st g.
  induction Hfresh as [|[a age] rest Hage _ IH]; intros renders st g; [done|].
  simpl in Hage. subst age. cbn [run_in run fmap list_fmap fst lookup list_lookup default].
  change (default (List.last renders st) (Some st)) with st.
  rewrite step_in_same. destruct (step a st g) as [[st'|e] g']; [apply IH|done].
Qed.

Lemma catalogToUse_same (a b : Game) :
  same_library a b → catalogToUse a = catalogToUse b.
Proof. intros [Hsongs Hcatalog]. unfold catalogToUse. by rewrite Hsongs, Hcatalog. Qed.

Lemma consistent_same st0 (st st' : Game) :
  playedSongs st' = playedSongs st → songHistory st' = songHistory st →
  songs st' = songs st → gameCatalog st' = gameCatalog st →
  consistent st0 st → consistent st0 st'.
Proof.
  intros Hplayed Hhistory Hsongs Hcatalog (? & ? & ? & ?).
  unfold consistent, same_library.
  rewrite Hplayed, Hhistory, Hsongs, Hcatalog. done.
Qed.

Lemma consistent_fresh st0 (st st' : Game) (s : Song) :
  s ∈ catalogToUse st0 →
  playedSongs st' = {[id s]} ∪ playedSongs st →
  songHistory st' = songHistory st ++ [id s] →
  songs st' = songs st → gameCatalog st' = gameCatalog st →
  consistent st0 st → consistent st0 st'.
Proof.
  intros Hs Hplayed Hhistory Hsongs Hcatalog (Hp & Hc & ? & ?).
  unfold consistent, same_library.
  rewrite Hplayed, Hhistory, Hsongs, Hcatalog. split_and!; [| |done|done].
  - rewrite Hp. apply set_eq. intros x.
    rewrite elem_of_union, !elem_of_list_to_set, elem_of_app, elem_of_singleton,
      list_elem_of_singleton. tauto.
  - intros i [Hin| ->%list_elem_of_singleton]%elem_of_app; [by apply Hc|].
    apply list_elem_of_fmap. by exists s.
Qed.

Lemma consistent_first st0 (st st' : Game) (s : Song) :
  s ∈ catalogToUse st0 →
  playedSongs st' = {[id s]} → songHistory st' = [id s] →
  songs st' = songs st → gameCatalog st' = gameCatalog st →
  consistent st0 st → consistent st0 st'.
Proof.
  intros Hs Hplayed Hhistory Hsongs Hcatalog (_ & _ & ? & ?).
  unfold consistent, same_library.
  rewrite Hplayed, Hhistory, Hsongs, Hcatalog. split_and!; [| |done|done].
  - simpl. by rewrite (right_id_L ∅ (∪)).
  - intros i ->%list_elem_of_singleton. apply list_elem_of_fmap. by exists s.
Qed.

Lemma consistent_startGame st0 st : consistent st0 st → consistent st0 (startGame st).
Proof.
  intros (_ & _ & ? & ?). unfold consistent, same_library. simpl.
  split_and!; [done| |done|done]. intros i Hi. by apply elem_of_nil in Hi.
Qed.

Lemma consistent_start st0 : consistent st0 (startGame st0).
Proof.
  unfold consistent, same_library. simpl.
  split_and!; [done| |done|done]. intros i Hi. by apply elem_of_nil in Hi.
Qed.

Lemma step_in_consistent (HD : DiceOk D) a st0 (seen now : Game) (g : dice) :
  same_library seen st0 → consistent st0 now →
  ∃ st' g', step_in a seen now g = (Ok st', g') ∧ consistent st0 st'.
Proof.
  intros Hseen%catalogToUse_same Hnow. destruct a; simpl.
  - eexists _, _. split; [done|]. by apply consistent_startGame.
  - eexists _, _. split; [done|]. by apply consistent_startGame.
  - unfold playNext_in, forward_in.
    destruct (_ <? _); [destruct (history_song _ _)|].
    1: { eexists _, _. split; [done|]. by apply (consistent_same st0 now). }
    all: destruct (Nat.eqb_spec (length (unplayed seen)) 0) as [|Hsome];
      [eexists _, _; split; [done|]; by apply (consistent_same st0 now)|];
      pose proof (random_index_lt g (length (unplayed seen))) as Hlt;
      destruct (random_index g (length (unplayed seen))) as [i g']; simpl in Hlt;
      destruct (lookup_lt_is_Some_2 (unplayed seen) i) as [s Hi]; [lia|];
      rewrite Hi; eexists _, _; (split; [done|]);
      apply list_elem_of_lookup_2 in Hi as Hin;
      apply list_elem_of_filter in Hin as [_ Hcat]; rewrite Hseen in Hcat;
      apply (consistent_fresh st0 now _ s); simpl; rewrite ?synced_id; done.
  - unfold replayPrevious_in.
    destruct (_ <? _); [destruct (history_song _ _)|destruct (_ =? _)];
      eexists _, _; (split; [done|]); by apply (consistent_same st0 now).
  - eexists _, _. split; [done|]. by apply (consistent_same st0 now).
  - unfold autoCue_in.
    destruct (_ && _ && _); [|by eexists _, _].
    destruct (Nat.ltb_spec 0 (length (catalogToUse seen))) as [Hsome|];
      [|by eexists _, _].
    pose proof (random_index_lt g (length (catalogToUse seen)) Hsome) as Hlt.
    destruct (random_index g (length (catalogToUse seen))) as [i g']. simpl in Hlt.
    destruct (lookup_lt_is_Some_2 (catalogToUse seen) i) as [s Hi]; [lia|].
    rewrite Hi. eexists _, _. split; [done|].
    apply list_elem_of_lookup_2 in Hi as Hin. rewrite Hseen in Hin.
    apply (consistent_first st0 now _ s); simpl; rewrite ?synced_id; done.
Qed.

Lemma last_elem_of {A} (l : list A) (d : A) : List.last l d ∈ d :: l.
Proof.
  revert d. induction l as [|x l IH]; intros d; [left|].
  destruct l as [|y l]; [right; left|].
  change (List.last (x :: y :: l) d) with (List.last (y :: l) d).
  specialize (IH d). apply elem_of_cons in IH as [->|Hin]; [left|by do 2 right].
Qed.

Lemma run_in_consistent (HD : DiceOk D) (schedule : list (Action * nat))
    st0 renders now (g : dice) :
  Forall (λ r, same_library r st0) renders → consistent st0 now →
  ∃ st g', run_in schedule renders now g = (Ok st, g') ∧ consistent st0 st.
Proof.
  revert renders now g. induction schedule as [|[a age] rest IH];
    intros renders now g Hrenders Hnow; [by exists now, g|].
  cbn [run_in].
  assert (Forall (λ r, same_library r st0) (now :: renders)) as Hall.
  { constructor; [apply Hnow|done]. }
  set (seen := default (List.last renders now) ((now :: renders) !! age)).
  assert (same_library seen st0) as Hseen.
  { rewrite Forall_forall in Hall. apply Hall. subst seen.
    destruct ((now :: renders) !! age) as [r|] eqn:Hr; simpl.
    - by eapply list_elem_of_lookup_2.
    - apply last_elem_of. }
  destruct (step_in_consistent HD a st0 seen now g Hseen Hnow)
    as (st1 & g1 & -> & Hst1).
  by apply IH.
Qed.
(** X23.  A game after [startGame], on a library, game catalog and tickets
    that stay as they are, with a random index that is inside the array.
    Whichever render the handler of each action is of, the one before
    [startGame] included, no handler throws,
    the played set is the set of the ids in the history, and every id in
    the history is the id of a song of the game's catalog.  When every
    handler is of the render of the moment, moreover, no id is in the
    history twice, the history index is -1 or an index of the history, and
    the history is never longer than the catalog. *)
Theorem game_invariant (HD : DiceOk D) (schedule : list (Action * nat)) st0
    (g : dice) :
  ∃ st g', run_in schedule [st0] (startGame st0) g = (Ok st, g')
    ∧ playedSongs st = list_to_set (songHistory st)
    ∧ (∀ i, i ∈ songHistory st → i ∈ id <$> catalogToUse st0)
    ∧ (Forall (λ entry, entry.2 = 0%nat) schedule →
       run schedule.*1 (startGame st0) g = (Ok st, g')
       ∧ NoDup (songHistory st)
       ∧ -1 ≤ historyIndex st < Z.of_nat (length (songHistory st))
       ∧ (length (songHistory st) ≤ length (catalogToUse st0))%nat).
Proof.
  destruct (run_in_consistent HD schedule st0 [st0] (startGame st0) g)
    as (st & g' & Hrun & Hplayed & Hcatalog & _).
  { by repeat constructor. }
  { apply consistent_start. }
  exists st, g'. split_and!; [done..|].
  intros Hfresh. rewrite run_in_fresh in Hrun by done.
  destruct (GameInv_run HD schedule.*1 (startGame st0) g (GameInv_startGame st0))
    as (st1 & g1 & Hrun1 & Hinv & Hcat).
  rewrite Hrun in Hrun1. injection Hrun1 as <- <-.
  change (catalogToUse (startGame st0)) with (catalogToUse st0) in Hcat.
  rewrite <- Hcat. split_and!; [done|apply Hinv..|by apply GameInv_length].
Qed.

(** X24.  [playNext] at the end of the history.  When every song of the
    catalog has been played it stops the playback and changes nothing
    else.  Otherwise it plays a song of the catalog whose id was not in the
    played set: that id is added to the played set and to the end of the
    history, the index moves on by one, and the current song is that song
    with the library's cue times. *)
Theorem playNext_at_end (HD : DiceOk D) st (g : dice) :
  historyIndex st = Z.of_nat (length (songHistory st)) - 1 →
  ((∀ s, s ∈ catalogToUse st → id s ∈ playedSongs st) →
   playNext st g
   = (Ok {| songs := songs st; gameCatalog := gameCatalog st;
            tickets := tickets st; playedSongs := playedSongs st;
            songHistory := songHistory st; historyIndex := historyIndex st;
            currentSong := currentSong st; isPlaying := false |}, g))
  ∧ ((∃ s, s ∈ catalogToUse st ∧ (id s ∉ playedSongs st)) →
     ∃ s g', s ∈ catalogToUse st ∧ (id s ∉ playedSongs st)
       ∧ id (synced (songs st) s) = id s
       ∧ playNext st g
         = (Ok {| songs := songs st; gameCatalog := gameCatalog st;
                  tickets := tickets st;
                  playedSongs := {[id s]} ∪ playedSongs st;
                  songHistory := songHistory st ++ [id s];
                  historyIndex := historyIndex st + 1;
                  currentSong := Some (synced (songs st) s);
                  isPlaying := true |}, g')).
Proof.
  intros Hend%forward_at_end.
  destruct (playNext_cases HD st g)
    as [(st' & ? & _)|[(_ & Hnone & Hnext)|(_ & s & g' & Hs & Hnew & Hnext)]];
    [congruence| |].
  - split; [done|]. intros (s & Hs & Hnew).
    assert (s ∈ unplayed st) as Hin by (by apply list_elem_of_filter).
    rewrite Hnone in Hin. by apply elem_of_nil in Hin.
  - split; [by intros Hall; destruct Hnew; apply Hall|].
    intros _. exists s, g'. by rewrite synced_id.
Qed.

Lemma step_playedSongs (HD : DiceOk D) a st (g : dice) st' g' :
  a ≠ StartGame → a ≠ ResetGame →
  step a st g = (Ok st', g') → playedSongs st ⊆ playedSongs st'.
Proof.
  intros Hstart Hreset. destruct a; simpl; [done|done| | | |].
  - destruct (playNext_cases HD st g)
      as [(st1 & (base & _ & ? & ->)%forward_Some & ->)
         |[(_ & _ & ->)|(_ & s & g1 & Hs & Hnew & ->)]];
      intros [= <- <-]; simpl; [done|done|]. apply union_subseteq_r.
  - destruct (replayPrevious_cases st) as [(base & ? & _ & ->)|[(? & ->)| ->]];
      by intros [= <- <-].
  - by intros [= <- <-].
  - destruct (autoCue_cases HD st g) as [->|(Hempty & s & g1 & Hs & ->)];
      intros [= <- <-]; [done|]. rewrite Hempty. apply empty_subseteq.
Qed.

(** X25.  Playing on never loses a win.  Every action other than
    [startGame] and [resetGame] leaves the played set as it is or makes it
    larger, so on a ticket with at least one row and a rectangular grid
    every win that [checkWins] reported before the action is reported
    after it. *)
Theorem step_keeps_wins (HD : DiceOk D) a st (g : dice) st' g' ticket cells :
  a ≠ StartGame → a ≠ ResetGame →
  step a st g = (Ok st', g') →
  grid ticket = Some cells → cells ≠ [] → rectangular cells →
  playedSongs st ⊆ playedSongs st'
  ∧ ∃ wins wins', checkWins ticket (playedSongs st) = Ok wins
      ∧ checkWins ticket (playedSongs st') = Ok wins'
      ∧ ∀ w, w ∈ wins → w ∈ wins'.
Proof.
  intros Hstart Hreset Hstep Hgrid Hne Hrect.
  pose proof (step_playedSongs HD a st g st' g' Hstart Hreset Hstep) as Hsub.
  split; [done|].
  rewrite !(checkWins_rectangular_explicit _ _ _ Hgrid Hne Hrect).
  eexists _, _. split; [done|]. split; [done|].
  intros w. rewrite !elem_of_wins, !Nat.leb_le, !bool_decide_eq_true.
  pose proof (total_lines_mono _ _ cells Hsub).
  intros [[? ->]|[[? ->]|[[(? & ? & Hc) ->]|[Hall ->]]]].
  - left. split; [lia|done].
  - right; left. split; [lia|done].
  - right; right; left. split; [|done]. split_and!; [done..|].
    by eapply all_played_mono.
  - right; right; right. split; [|done].
    eapply Forall_impl; [exact Hall|]. intros row. by apply all_played_mono.
Qed.

(** X26.  Back and forth in the history.  When the songs at the current
    and at the previous index of the history are in the library,
    [replayPrevious] moves one index back without a timer and [playNext]
    then moves to the index and to the song it came from, draws no random
    number and leaves the played set and the history as they were. *)
Theorem replayPrevious_then_playNext st (g : dice) previousId currentId :
  0 < historyIndex st →
  at_index (songHistory st) (historyIndex st - 1) = Some previousId →
  previousId ∈ id <$> songs st →
  at_index (songHistory st) (historyIndex st) = Some currentId →
  currentId ∈ id <$> songs st →
  ∃ st1 st2 s1 s2,
    replayPrevious st = (st1, NoTimer)
    ∧ playNext st1 g = (Ok st2, g)
    ∧ historyIndex st1 = historyIndex st - 1
    ∧ currentSong st1 = Some s1 ∧ id s1 = previousId
    ∧ historyIndex st2 = historyIndex st
    ∧ currentSong st2 = Some s2 ∧ id s2 = currentId
    ∧ playedSongs st2 = playedSongs st
    ∧ songHistory st2 = songHistory st
    ∧ isPlaying st2 = true.
Proof.
  intros Hpos Hprev Hprev_in Hcur Hcur_in.
  destruct (history_song_is_Some st _ _ Hprev Hprev_in) as (p & Hp & Hpid).
  destruct (history_song_is_Some st _ _ Hcur Hcur_in) as (c & Hc & Hcid).
  apply at_index_Some in Hcur as [Hrange _].
  set (st1 := move_to st (historyIndex st - 1) (synced (songs st) p)).
  assert (replayPrevious st = (st1, NoTimer)) as Hreplay.
  { unfold replayPrevious. destruct (Z.ltb_spec 0 (historyIndex st)); [|lia].
    by rewrite Hp. }
  assert (forward st1
          = Some (move_to st1 (historyIndex st) (synced (songs st) c))) as Hforward.
  { unfold forward. simpl.
    destruct (Z.ltb_spec (historyIndex st - 1)
                (Z.of_nat (length (songHistory st)) - 1)); [|lia].
    replace (historyIndex st - 1 + 1) with (historyIndex st) by lia.
    change (history_song st1 (historyIndex st))
      with (history_song st (historyIndex st)).
    by rewrite Hc. }
  exists st1, (move_to st1 (historyIndex st) (synced (songs st) c)),
    (synced (songs st) p), (synced (songs st) c).
  split; [exact Hreplay|]. split.
  { unfold playNext. rewrite Hforward. reflexivity. }
  rewrite !synced_id. by split_and!.
Qed.

(** X29.  A handler of an earlier render can play a song twice.  When
    [playNext] has played a new song at the end of the history and is
    called again as the handler of the render before that song, and the
    random index comes out the same, it plays the same song again: its id
    is in the history twice, the played set is as after the first call, and
    the index has moved on by two. *)
Theorem playNext_in_repeats (HD : DiceOk D) st (g : dice) :
  historyIndex st = Z.of_nat (length (songHistory st)) - 1 →
  unplayed st ≠ [] →
  (random_index (random_index g (length (unplayed st))).2 (length (unplayed st))).1
  = (random_index g (length (unplayed st))).1 →
  ∃ s st1 g1 st2 g2,
    s ∈ catalogToUse st ∧ (id s ∉ playedSongs st)
    ∧ playNext st g = (Ok st1, g1)
    ∧ songHistory st1 = songHistory st ++ [id s]
    ∧ playNext_in st st1 g1 = (Ok st2, g2)
    ∧ songHistory st2 = songHistory st ++ [id s; id s]
    ∧ ¬ NoDup (songHistory st2)
    ∧ playedSongs st2 = playedSongs st1
    ∧ historyIndex st2 = historyIndex st + 2.
Proof.
  intros Hend Hsome Hsame.
  assert (length (unplayed st) ≠ 0%nat) as Hlen.
  { intros Hnil. by apply nil_length_inv in Hnil. }
  pose proof (random_index_lt g (length (unplayed st))) as Hlt.
  destruct (random_index g (length (unplayed st))) as [i g1] eqn:Hfirst.
  simpl in Hlt, Hsame.
  destruct (lookup_lt_is_Some_2 (unplayed st) i) as [s Hi]; [lia|].
  destruct (random_index g1 (length (unplayed st))) as [i' g2] eqn:Hsecond.
  simpl in Hsame. subst i'.
  apply list_elem_of_lookup_2 in Hi as Hin.
  apply list_elem_of_filter in Hin as [Hnew Hcat].
  set (st1 := {| songs := songs st; gameCatalog := gameCatalog st;
                 tickets := tickets st;
                 playedSongs := {[id s]} ∪ playedSongs st;
                 songHistory := songHistory st ++ [id s];
                 historyIndex := historyIndex st + 1;
                 currentSong := Some (synced (songs st) s);
                 isPlaying := true |}).
  set (st2 := {| songs := songs st1; gameCatalog := gameCatalog st1;
                 tickets := tickets st1;
                 playedSongs := {[id s]} ∪ playedSongs st1;
                 songHistory := songHistory st1 ++ [id s];
                 historyIndex := historyIndex st1 + 1;
                 currentSong := Some (synced (songs st) s);
                 isPlaying := true |}).
  exists s, st1, g1, st2, g2.
  split_and!; [done|done| |done| | | | |].
  - unfold playNext. rewrite (forward_at_end st Hend).
    destruct (Nat.eqb_spec (length (unplayed st)) 0) as [|_]; [done|].
    rewrite Hfirst, Hi. by rewrite synced_id.
  - unfold playNext_in, forward_in.
    destruct (Z.ltb_spec (historyIndex st) (Z.of_nat (length (songHistory st)) - 1));
      [lia|].
    destruct (Nat.eqb_spec (length (unplayed st)) 0) as [|_]; [done|].
    rewrite Hsecond, Hi. by rewrite synced_id.
  - simpl. by rewrite <- app_assoc.
  - simpl. rewrite <- app_assoc. intros Hnodup.
    apply NoDup_app in Hnodup as (_ & _ & Hpair).
    apply NoDup_cons in Hpair as [Hnot _]. apply Hnot. left.
  - simpl. apply set_eq. intros x. rewrite !elem_of_union, elem_of_singleton. tauto.
  - simpl. lia.
Qed.

End play.

Lemma counter_dice_ok : Play.DiceOk Play.counter_dice.
Proof. intros g n Hn. simpl. apply Nat.mod_upper_bound. lia. Qed.

Lemma game_invariant_witness :
  ∃ st g',
    Play.run_in (T := Play.ascii_text) (D := Play.counter_dice)
      [(Play.AutoCue, 0%nat); (Play.PlayNext, 0%nat); (Play.PlayNext, 1%nat);
       (Play.ReplayPrevious, 0%nat); (Play.TogglePause, 2%nat)] [Play.game_3]
      (Play.startGame Play.game_3) 1%nat = (Ok st, g')
    ∧ Play.playedSongs st = list_to_set (Play.songHistory st)
    ∧ (∀ i, i ∈ Play.songHistory st → i ∈ id <$> Play.catalogToUse Play.game_3)
    ∧ (Forall (λ entry, entry.2 = 0%nat)
         [(Play.AutoCue, 0%nat); (Play.PlayNext, 0%nat); (Play.PlayNext, 1%nat);
          (Play.ReplayPrevious, 0%nat); (Play.TogglePause, 2%nat)] →
       Play.run (T := Play.ascii_text) (D := Play.counter_dice)
         [(Play.AutoCue, 0%nat); (Play.PlayNext, 0%nat); (Play.PlayNext, 1%nat);
          (Play.ReplayPrevious, 0%nat); (Play.TogglePause, 2%nat)].*1
         (Play.startGame Play.game_3) 1%nat = (Ok st, g')
       ∧ NoDup (Play.songHistory st)
       ∧ -1 ≤ Play.historyIndex st < Z.of_nat (length (Play.songHistory st))
       ∧ (length (Play.songHistory st)
          ≤ length (Play.catalogToUse Play.game_3))%nat).
Proof.
  apply (game_invariant (T := Play.ascii_text) (D := Play.counter_dice)
           counter_dice_ok).
Defined.

Lemma playNext_at_end_witness :
  ∃ s g',
    s ∈ Play.catalogToUse (Play.startGame Play.game_3)
    ∧ (id s ∉ Play.playedSongs (Play.startGame Play.game_3))
    ∧ id (Play.synced (T := Play.ascii_text) (Play.songs (Play.startGame Play.game_3)) s)
      = id s
    ∧ Play.playNext (T := Play.ascii_text) (D := Play.counter_dice)
        (Play.startGame Play.game_3) 1%nat
      = (Ok {| Play.songs := Play.songs (Play.startGame Play.game_3);
               Play.gameCatalog := Play.gameCatalog (Play.startGame Play.game_3);
               Play.tickets := Play.tickets (Play.startGame Play.game_3);
               Play.playedSongs :=
                 {[id s]} ∪ Play.playedSongs (Play.startGame Play.game_3);
               Play.songHistory :=
                 Play.songHistory (Play.startGame Play.game_3) ++ [id s];
               Play.historyIndex :=
                 Play.historyIndex (Play.startGame Play.game_3) + 1;
               Play.currentSong :=
                 Some (Play.synced (T := Play.ascii_text)
                         (Play.songs (Play.startGame Play.game_3)) s);
               Play.isPlaying := true |}, g').
Proof.
  apply (proj2 (playNext_at_end (T := Play.ascii_text) (D := Play.counter_dice)
                  counter_dice_ok (Play.startGame Play.game_3) 1%nat eq_refl)).
  exists (mk_song "a"). split; [left|]. simpl. apply not_elem_of_empty.
Defined.

Lemma step_keeps_wins_witness :
  ∃ st',
    (Play.step (T := Play.ascii_text) (D := Play.counter_dice) Play.PlayNext
       (Play.startGame Play.game_3) 1%nat).1 = Ok st'
    ∧ Play.playedSongs (Play.startGame Play.game_3) ⊆ Play.playedSongs st'
    ∧ ∃ wins wins',
        checkWins ticket_2x2 (Play.playedSongs (Play.startGame Play.game_3)) = Ok wins
        ∧ checkWins ticket_2x2 (Play.playedSongs st') = Ok wins'
        ∧ ∀ w, w ∈ wins → w ∈ wins'.
Proof.
  eexists. split; [vm_compute; reflexivity|].
  eapply (step_keeps_wins (T := Play.ascii_text) (D := Play.counter_dice)
            counter_dice_ok Play.PlayNext (Play.startGame Play.game_3) 1%nat
            _ _ ticket_2x2
            [[mk_cell "a"; mk_cell "b"]; [mk_cell "c"; mk_cell "d"]]);
    [discriminate | discriminate | vm_compute; reflexivity | reflexivity
    | discriminate | repeat constructor].
Defined.

Lemma replayPrevious_then_playNext_witness :
  ∃ st1 st2 s1 s2,
    Play.replayPrevious (T := Play.ascii_text) Play.game_mid = (st1, Play.NoTimer)
    ∧ Play.playNext (T := Play.ascii_text) (D := Play.counter_dice) st1 1%nat
      = (Ok st2, 1%nat)
    ∧ Play.historyIndex st1 = Play.historyIndex Play.game_mid - 1
    ∧ Play.currentSong st1 = Some s1 ∧ id s1 = "b"
    ∧ Play.historyIndex st2 = Play.historyIndex Play.game_mid
    ∧ Play.currentSong st2 = Some s2 ∧ id s2 = "c"
    ∧ Play.playedSongs st2 = Play.playedSongs Play.game_mid
    ∧ Play.songHistory st2 = Play.songHistory Play.game_mid
    ∧ Play.isPlaying st2 = true.
Proof.
  apply (replayPrevious_then_playNext (T := Play.ascii_text)
           (D := Play.counter_dice) Play.game_mid 1%nat "b" "c").
  - simpl. lia.
  - reflexivity.
  - apply (bool_decide_unpack _). by vm_compute.
  - reflexivity.
  - apply (bool_decide_unpack _). by vm_compute.
Defined.

Lemma first_dice_ok : Play.DiceOk Play.first_dice.
Proof. intros g n Hn. simpl. lia. Qed.

Lemma playNext_in_repeats_witness :
  ∃ s st1 g1 st2 g2,
    s ∈ Play.catalogToUse (Play.startGame Play.game_3)
    ∧ (id s ∉ Play.playedSongs (Play.startGame Play.game_3))
    ∧ Play.playNext (T := Play.ascii_text) (D := Play.first_dice)
        (Play.startGame Play.game_3) () = (Ok st1, g1)
    ∧ Play.songHistory st1
      = Play.songHistory (Play.startGame Play.game_3) ++ [id s]
    ∧ Play.playNext_in (T := Play.ascii_text) (D := Play.first_dice)
        (Play.startGame Play.game_3) st1 g1 = (Ok st2, g2)
    ∧ Play.songHistory st2
      = Play.songHistory (Play.startGame Play.game_3) ++ [id s; id s]
    ∧ ¬ NoDup (Play.songHistory st2)
    ∧ Play.playedSongs st2 = Play.playedSongs st1
    ∧ Play.historyIndex st2 = Play.historyIndex (Play.startGame Play.game_3) + 2.
Proof.
  apply (playNext_in_repeats (T := Play.ascii_text) (D := Play.first_dice)
           first_dice_ok (Play.startGame Play.game_3) ()).
  - reflexivity.
  - discriminate.
  - reflexivity.
Defined.

(** ** Reloading saved boards *)


Section boards.
Import Play Boards.
Context {T : Text}.


















End boards.


(** ** Printing the tickets *)

Lemma list_pair_ind {A} (P : list A → Prop) :
  P [] → (∀ x, P [x]) → (∀ x y l, P l → P (x :: y :: l)) → ∀ l, P l.
Proof.
  intros Hnil Hone Hstep l.
  assert (P l ∧ ∀ x, P (x :: l)) as [? _]; [|done].
  induction l as [|y l [IH1 IH2]]; [by split|].
  split; [apply IH2|]. intros x. by apply Hstep.
Qed.

Section pdf.
Import PDFGenerator.
Variable drawTicket : BingoTicket → Q → result unit.

Lemma pages_loop_sheets (l pre : list BingoTicket) (done_ops : list Op) :
  (∀ t y, t ∈ l → drawTicket t y = Ok ()) →
  pages_loop drawTicket (Nat.div2 (S (length l))) (length pre) (pre ++ l) done_ops
  = (reverse (sheets (negb (0 <? length pre)%nat) l) ++ done_ops, Ok ()).
Proof.
  revert pre done_ops. induction l as [|top|top bottom l IH] using list_pair_ind;
    intros pre done_ops Hdraw.
  - done.
  - cbn [length Nat.div2 pages_loop sheets].
    rewrite (list_lookup_middle pre [] top (length pre) eq_refl).
    rewrite (Hdraw top 0%Q) by left.
    rewrite lookup_ge_None_2 by (rewrite length_app; simpl; lia).
    f_equal. destruct (0 <? length pre)%nat; done.
  - cbn [length Nat.div2 pages_loop sheets].
    rewrite (list_lookup_middle pre (bottom :: l) top (length pre) eq_refl).
    rewrite (Hdraw top 0%Q) by left.
    replace ((pre ++ top :: bottom :: l) !! (length pre + 1)%nat) with (Some bottom);
      [|by rewrite lookup_app_r, Nat.add_comm, Nat.add_sub by lia].
    rewrite (Hdraw bottom half_page) by (right; left).
    replace (pre ++ top :: bottom :: l) with ((pre ++ [top; bottom]) ++ l)
      by (by rewrite <- app_assoc).
    replace (length pre + 2)%nat with (length (pre ++ [top; bottom]))
      by (rewrite length_app; simpl; lia).
    rewrite IH by (intros t y Ht; apply Hdraw; by do 2 right).
    replace (0 <? length (pre ++ [top; bottom]))%nat with true
      by (symmetry; apply Nat.ltb_lt; rewrite length_app; simpl; lia).
    f_equal. destruct (0 <? length pre)%nat; simpl;
      rewrite ?reverse_cons, <- ?app_assoc; done.
Qed.

Lemma added_pages_app (l1 l2 : list Op) :
  added_pages (l1 ++ l2) = (added_pages l1 + added_pages l2)%nat.
Proof. unfold added_pages. by rewrite List.filter_app, length_app. Qed.

Lemma cut_lines_app (l1 l2 : list Op) :
  cut_lines (l1 ++ l2) = (cut_lines l1 + cut_lines l2)%nat.
Proof. unfold cut_lines. by rewrite List.filter_app, length_app. Qed.

Lemma drawn_app (l1 l2 : list Op) : drawn (l1 ++ l2) = drawn l1 ++ drawn l2.
Proof. apply omap_app. Qed.

(** Where the draw of the ticket at index [i] stands among the calls. *)
Lemma sheets_position (first : bool) (l : list BingoTicket) (i : nat) t :
  l !! i = Some t →
  ∃ before after,
    sheets first l = before ++ DrawTicket t (half_of i) :: after
    ∧ added_pages before = (Nat.div2 i + if first then 0 else 1)%nat
    ∧ cut_lines before = Nat.div2 (S i)
    ∧ length (drawn before) = i.
Proof.
  revert first i. induction l as [|top|top bottom l IH] using list_pair_ind;
    intros first i Hi; [done| |].
  - destruct i as [|i]; [|done]. injection Hi as ->.
    exists (if first then [] else [AddPage]), []. by destruct first.
  - destruct i as [|[|i]].
    + injection Hi as ->.
      exists (if first then [] else [AddPage]),
        (CutLine :: DrawTicket bottom half_page :: sheets false l).
      by destruct first.
    + injection Hi as ->.
      exists ((if first then [] else [AddPage]) ++ [DrawTicket top 0%Q; CutLine]),
        (sheets false l).
      split; [by rewrite <- app_assoc|]. by destruct first.
    + destruct (IH false i Hi) as (before & after & Heq & Hpages & Hcuts & Hdrawn).
      exists ((if first then [] else [AddPage])
              ++ [DrawTicket top 0%Q; CutLine; DrawTicket bottom half_page] ++ before),
        after.
      split_and!.
      * cbn [sheets]. rewrite Heq, <- !app_assoc. done.
      * rewrite !added_pages_app, Hpages. destruct first; simpl; lia.
      * rewrite !cut_lines_app, Hcuts. destruct first; simpl; lia.
      * rewrite !drawn_app, !length_app, Hdrawn. destruct first; simpl; lia.
Qed.

Lemma sheets_counts (first : bool) (l : list BingoTicket) :
  drawn (sheets first l) = imap (λ i t, (t, half_of i)) l
  ∧ added_pages (sheets first l)
    = (if first then Nat.div2 (S (length l)) - 1 else Nat.div2 (S (length l)))%nat
  ∧ cut_lines (sheets first l) = Nat.div2 (length l)
  ∧ Forall (λ op, ∀ name, op ≠ Save name) (sheets first l).
Proof.
  revert first. induction l as [|top|top bottom l IH] using list_pair_ind;
    intros first.
  - by destruct first.
  - destruct first; by split_and!; repeat constructor.
  - destruct (IH false) as (Hdrawn & Hpages & Hcuts & Hsave).
    change (sheets first (top :: bottom :: l))
      with ((if first then [] else [AddPage])
            ++ [DrawTicket top 0%Q; CutLine; DrawTicket bottom half_page]
            ++ sheets false l).
    split_and!.
    + rewrite !drawn_app, Hdrawn. by destruct first.
    + rewrite !added_pages_app, Hpages.
      destruct first; simpl; destruct (length l) as [|[|n]]; simpl; lia.
    + rewrite !cut_lines_app, Hcuts. by destruct first.
    + apply Forall_app. split; [by destruct first; repeat constructor|].
      apply Forall_app. split; [by repeat constructor|done].
Qed.

(** X28.  Two tickets to a page.  When drawing a ticket does not throw,
    the calls of [generateTicketsPDF] are, in this order: for every pair
    of tickets a [doc.addPage()] unless it is the first pair, the draw of
    the first ticket of the pair at 0, and, when there is a second, the cut
    line and then its draw at 148.5 mm; and last [doc.save].  So the
    ticket at index i is drawn after i / 2 pages were added and after the
    i tickets before it, on the upper half when i is even and the lower
    when i is odd, a cut line is drawn for every pair of two, between its
    two draws, and nothing is saved before the end.  (Pages that autoTable
    may add while a ticket is drawn are not among these calls.) *)
Theorem generateTicketsPDF_layout (tickets : list BingoTicket) :
  (∀ t y, t ∈ tickets → drawTicket t y = Ok ()) →
  generateTicketsPDF drawTicket tickets
  = (sheets true tickets ++ [Save "bingo-tickets.pdf"], Ok ())
  ∧ (∀ i t, tickets !! i = Some t →
       ∃ before after,
         sheets true tickets = before ++ DrawTicket t (half_of i) :: after
         ∧ added_pages before = Nat.div2 i
         ∧ cut_lines before = Nat.div2 (S i)
         ∧ length (drawn before) = i)
  ∧ drawn (sheets true tickets) = imap (λ i t, (t, half_of i)) tickets
  ∧ added_pages (sheets true tickets) = (Nat.div2 (S (length tickets)) - 1)%nat
  ∧ cut_lines (sheets true tickets) = Nat.div2 (length tickets)
  ∧ Forall (λ op, ∀ name, op ≠ Save name) (sheets true tickets).
Proof.
  intros Hdraw. split; [|split].
  - unfold generateTicketsPDF.
    pose proof (pages_loop_sheets tickets [] [] Hdraw) as Hloop.
    change (length (@nil BingoTicket)) with 0%nat in Hloop.
    change ([] ++ tickets) with tickets in Hloop. rewrite Hloop.
    change (negb (0 <? 0)%nat) with true.
    by rewrite app_nil_r, reverse_cons, reverse_involutive.
  - intros i t Hi.
    destruct (sheets_position true tickets i t Hi)
      as (before & after & ? & Hpages & ? & ?).
    exists before, after. rewrite Nat.add_0_r in Hpages. done.
  - apply (sheets_counts true).
Qed.

End pdf.

Lemma generateTicketsPDF_layout_witness :
  PDFGenerator.generateTicketsPDF (λ _ _, Ok ()) [ticket_2x2; ticket_jagged; ticket_3x0]
  = ([PDFGenerator.DrawTicket ticket_2x2 0%Q; PDFGenerator.CutLine;
      PDFGenerator.DrawTicket ticket_jagged PDFGenerator.half_page;
      PDFGenerator.AddPage; PDFGenerator.DrawTicket ticket_3x0 0%Q;
      PDFGenerator.Save "bingo-tickets.pdf"], Ok ()).
Proof.
  apply (generateTicketsPDF_layout (λ _ _, Ok ())
           [ticket_2x2; ticket_jagged; ticket_3x0]).
  done.
Defined.
